(** * racfp: removing comments from Dart sources

    A shallow embedding of [removeComments] (src/index.js), its per-file
    body and its run over a project, and the properties of it: those that
    the specification states, and more that the code shows.

    JavaScript strings are sequences of UTF-16 code units; none of the
    regular expressions of the program carries the [u] flag, so every
    operation below works on code units.  A text is a [list N]. *)

From Stdlib Require Import NArith Ascii String.
From Stdlib Require DecimalN DecimalPos.
From stdpp Require Import gmap list.

Abbreviation text := (list N).

(** ** Characters *)

Module Ch.
Definition nl : N := 10.
Definition cr : N := 13.
Definition space : N := 32.
Definition dquote : N := 34.
Definition dollar : N := 36.
Definition squote : N := 39.
Definition rparen : N := 41.
Definition star : N := 42.
Definition dot : N := 46.
Definition slash : N := 47.
Definition colon : N := 58.
Definition backslash : N := 92.
Definition r : N := 114.
Definition lbrace : N := 123.
Definition rbrace : N := 125.
End Ch.

(** An ASCII literal as a text. *)
Definition str (s : string) : text :=
  map N_of_ascii (list_ascii_of_string s).

(** [\s] of a JavaScript regular expression, which is also the set that
    [String.prototype.trim] removes: WhiteSpace and LineTerminator. *)
Definition isSpace (c : N) : bool :=
  ((9 <=? c) && (c <=? 13) || (c =? 32) || (c =? 160) || (c =? 0x1680)
   || (0x2000 <=? c) && (c <=? 0x200A)
   || (c =? 0x2028) || (c =? 0x2029) || (c =? 0x202F) || (c =? 0x205F)
   || (c =? 0x3000) || (c =? 0xFEFF))%N.

(** The characters that [.] does not match (no [s] flag). *)
Definition isLineTerminator (c : N) : bool :=
  ((c =? 10) || (c =? 13) || (c =? 0x2028) || (c =? 0x2029))%N.

(** [\d] *)
Definition isDigit (c : N) : bool := ((48 <=? c) && (c <=? 57))%N.

(** ** String methods *)

Fixpoint takeWhile (p : N → bool) (s : text) : text :=
  match s with
  | c :: s' => if p c then c :: takeWhile p s' else []
  | [] => []
  end.

Fixpoint dropWhile (p : N → bool) (s : text) : text :=
  match s with
  | c :: s' => if p c then dropWhile p s' else s
  | [] => []
  end.

Definition trimStart (s : text) : text := dropWhile isSpace s.
Definition trimEnd (s : text) : text := rev (dropWhile isSpace (rev s)).
Definition trim (s : text) : text := trimEnd (trimStart s).

(** The leading white space of a line: the match of [^\s*] on it. *)
Definition leadingSpace (s : text) : text := takeWhile isSpace s.

Fixpoint startsWith (s p : text) {struct p} : bool :=
  match p, s with
  | [], _ => true
  | a :: p', b :: s' => (a =? b)%N && startsWith s' p'
  | _ :: _, [] => false
  end.

Definition endsWith (s p : text) : bool := startsWith (rev s) (rev p).

Fixpoint includes (s p : text) : bool :=
  startsWith s p ||
  match s with
  | [] => false
  | _ :: s' => includes s' p
  end.

(** [s.indexOf(p)]: [None] stands for -1. *)
Fixpoint indexOf0 (s p : text) : option nat :=
  if startsWith s p then Some 0
  else match s with
       | [] => None
       | _ :: s' => S <$> indexOf0 s' p
       end.

(** [s.indexOf(p, from)] *)
Definition indexOf (s p : text) (from : nat) : option nat :=
  (λ i, from + i) <$> indexOf0 (drop from s) p.

(** [s.slice(a, b)] and [s.slice(a)] for non-negative indices. *)
Definition slice (s : text) (a b : nat) : text := take (b - a) (drop a s).

(** [s.split('\n')] *)
Fixpoint splitNl (s : text) : list text :=
  match s with
  | [] => [[]]
  | c :: s' =>
      if (c =? Ch.nl)%N then [] :: splitNl s'
      else match splitNl s' with
           | l :: ls => (c :: l) :: ls
           | [] => [[c]]
           end
  end.

(** [ls.join('\n')] *)
Fixpoint joinNl (ls : list text) : text :=
  match ls with
  | [] => []
  | [l] => l
  | l :: ls' => l ++ Ch.nl :: joinNl ls'
  end.

(** The decimal numeral of a number, as template literals print it. *)
Fixpoint uint_text (d : Decimal.uint) : text :=
  match d with
  | Decimal.Nil => []
  | Decimal.D0 d => 48%N :: uint_text d
  | Decimal.D1 d => 49%N :: uint_text d
  | Decimal.D2 d => 50%N :: uint_text d
  | Decimal.D3 d => 51%N :: uint_text d
  | Decimal.D4 d => 52%N :: uint_text d
  | Decimal.D5 d => 53%N :: uint_text d
  | Decimal.D6 d => 54%N :: uint_text d
  | Decimal.D7 d => 55%N :: uint_text d
  | Decimal.D8 d => 56%N :: uint_text d
  | Decimal.D9 d => 57%N :: uint_text d
  end.

Definition decimal (n : N) : text := uint_text (N.to_uint n).

(** ** Global replacement with a regular expression

    A regular expression is given by its matcher: at a position, with the
    character before it (for the lookbehind) and the text from it on, the
    length of the match that the backtracking search finds there, if any.
    [s.replace(re, f)] with a [g] flag walks the text from the left: where
    the expression matches the match is handed to [f] and the walk goes on
    behind it, elsewhere the character is copied.  [pieces] is that walk;
    [skip] counts the characters of the current match still to pass. *)

Inductive piece :=
  | Plain (c : N)
  | Hit (m : text).

Definition regex := option N → text → option nat.

Fixpoint pieces (re : regex) (prev : option N) (skip : nat) (s : text)
  : list piece :=
  match s with
  | [] => []
  | c :: s' =>
      match skip with
      | S k => pieces re (Some c) k s'
      | O =>
          match re prev s with
          | Some (S k) => Hit (take (S k) s) :: pieces re (Some c) k s'
          | Some O => Hit [] :: Plain c :: pieces re (Some c) 0 s'
          | None => Plain c :: pieces re (Some c) 0 s'
          end
      end
  end.

Definition fill (f : text → text) (p : piece) : text :=
  match p with
  | Plain c => [c]
  | Hit m => f m
  end.

Definition replace (re : regex) (f : text → text) (s : text) : text :=
  concat (map (fill f) (pieces re None 0 s)).

(** [/\/\/\/[^\n]*/] *)
Definition notNl (c : N) : bool := negb (c =? Ch.nl)%N.

Definition re_doc : regex := λ _ s,
  if startsWith s (str "///")
  then Some (3 + length (takeWhile notNl (drop 3 s)))
  else None.

(** [/(?<!:)\/\/[^\n]*/] *)
Definition re_line : regex := λ prev s,
  if decide (prev = Some Ch.colon) then None
  else if startsWith s (str "//")
       then Some (2 + length (takeWhile notNl (drop 2 s)))
       else None.

(** [/\/\*[\s\S]*?\*\//]: the lazy star stops at the first [*/]. *)
Definition re_block : regex := λ _ s,
  if startsWith s (str "/*")
  then (λ k, 2 + k + 2) <$> indexOf0 (drop 2 s) (str "*/")
  else None.

(** [/\$\{([^}]+)\}/]: the greedy class takes every character up to the
    next [}], and needs at least one. *)
Definition notRbrace (c : N) : bool := negb (c =? Ch.rbrace)%N.

Definition re_hole : regex := λ _ s,
  if startsWith s (str "${")
  then let expr := takeWhile notRbrace (drop 2 s) in
       match expr, drop (2 + length expr) s with
       | _ :: _, c :: _ => Some (2 + length expr + 1)
       | _, _ => None
       end
  else None.

(** [/PRESERVED_STRING_(\d+)/] *)
Definition sentinel : text := str "PRESERVED_STRING_".

Definition re_placeholder : regex := λ _ s,
  if startsWith s sentinel
  then match takeWhile isDigit (drop 17 s) with
       | [] => None
       | ds => Some (17 + length ds)
       end
  else None.

(** The string-literal expression has four alternatives, tried in this
    order, each behind an optional [r]: a body between triple double quotes,
    a body between triple single quotes, a body between single quotes, a
    body between double quotes.  A triple-quoted body is lazy and ends at
    the first closing triple; a single-quoted body takes characters other
    than the quote and the backslash, and a backslash together with the
    character after it unless that is a line terminator, up to the first
    quote. *)

Definition tripleQuoted (q : N) (s : text) : option nat :=
  if startsWith s [q; q; q]
  then (λ k, 3 + k + 3) <$> indexOf0 (drop 3 s) [q; q; q]
  else None.

Fixpoint quotedBody (q : N) (s : text) : option nat :=
  match s with
  | [] => None
  | c :: s' =>
      if (c =? q)%N then Some 1
      else if (c =? Ch.backslash)%N then
        match s' with
        | d :: s'' =>
            if isLineTerminator d then None
            else (λ k, 2 + k) <$> quotedBody q s''
        | [] => None
        end
      else S <$> quotedBody q s'
  end.

Definition singleQuoted (q : N) (s : text) : option nat :=
  match s with
  | c :: s' => if (c =? q)%N then S <$> quotedBody q s' else None
  | [] => None
  end.

Definition orElse {A} (a b : option A) : option A :=
  match a with
  | Some _ => a
  | None => b
  end.

Definition literalAt (body : text) : option nat :=
  orElse (tripleQuoted Ch.dquote body)
    (orElse (tripleQuoted Ch.squote body)
       (orElse (singleQuoted Ch.squote body)
          (singleQuoted Ch.dquote body))).

Definition re_string : regex := λ _ s,
  match s with
  | c :: s' => if (c =? Ch.r)%N then S <$> literalAt s' else literalAt s
  | [] => None
  end.

(** ** Comment removal by the three expressions *)

Definition erase (re : regex) (s : text) : text := replace re (λ _, []) s.

Definition removeDocComments : text → text := erase re_doc.
Definition removeLineComments : text → text := erase re_line.

(** ** Interpolation holes of a string literal *)

Definition nonEmpty (s : text) : bool :=
  match s with
  | [] => false
  | _ :: _ => true
  end.

(** The capture group of [re_hole] in a match of it. *)
Definition holeExpr (fullMatch : text) : text :=
  slice fullMatch 2 (length fullMatch - 1).

Definition firstLine (lines : list text) : text := hd [] lines.
Definition lastLine (lines : list text) : text := List.last lines [].

Definition cleanExpr (expr : text) : text :=
  erase re_block (erase re_line (erase re_doc expr)).

Definition hole (processedLines : list text) (lastIndent : text) : text :=
  str "${" ++ [Ch.nl] ++ joinNl processedLines ++ [Ch.nl] ++ lastIndent
    ++ str "}".

(** The callback on the holes of a raw string. *)
Definition rawHole (fullMatch : text) : text :=
  let expr := holeExpr fullMatch in
  if includes expr (str "${") || includes expr (str "/*")
     || includes expr (str "//")
  then fullMatch
  else
    let lines := splitNl expr in
    let baseIndent := leadingSpace (firstLine lines) in
    let lastIndent := leadingSpace (lastLine lines) in
    let cleanExpr := cleanExpr expr in
    if includes expr [Ch.nl] then
      let processedLines :=
        List.filter nonEmpty
          (map (λ line,
                  let trimmed := trim line in
                  if nonEmpty trimmed then baseIndent ++ trimmed else [])
               (splitNl cleanExpr)) in
      hole processedLines lastIndent
    else str "${" ++ trim cleanExpr ++ str "}".

(** The callback on the holes of the other strings; [isRawString] is the
    variable of the enclosing callback, false wherever this one is reached. *)
Definition plainHole (isRawString : bool) (fullMatch : text) : text :=
  let expr := holeExpr fullMatch in
  let lines := splitNl expr in
  let baseIndent := leadingSpace (firstLine lines) in
  let lastIndent := leadingSpace (lastLine lines) in
  if isRawString then
    if includes expr [Ch.nl]
    then str "${" ++ [Ch.nl] ++ expr ++ [Ch.nl] ++ lastIndent ++ str "}"
    else fullMatch
  else
    let cleanExpr := cleanExpr expr in
    if includes expr [Ch.nl] then
      let processedLines :=
        List.filter nonEmpty
          (map (λ line,
                  let trimmed := trim line in
                  if nonEmpty trimmed then
                    match List.find
                            (λ l, nonEmpty (trim l) && includes l trimmed)
                            lines with
                    | Some originalLine => leadingSpace originalLine ++ trimmed
                    | None => baseIndent ++ trimmed
                    end
                  else [])
               (splitNl cleanExpr)) in
      hole processedLines lastIndent
    else str "${" ++ trim cleanExpr ++ str "}".

Definition interpolated (match_ : text) : text :=
  let isRawString := startsWith match_ [Ch.r] in
  if isRawString then replace re_hole rawHole match_
  else replace re_hole (plainHole isRawString) match_.

(** ** String literals and their placeholders

    [preservedStrings] is a JavaScript array used through its properties:
    written at the key that [stringIndex] prints to, read at the digits of a
    placeholder.  It is declared outside the loop over the files, so a file
    starts with the entries of the files before it. *)

Record strings := {
  stringIndex : N;
  preservedStrings : gmap text text
}.

Definition placeholder (i : N) : text := sentinel ++ decimal i.

Definition onString (st : strings) (match_ : text) : strings * text :=
  if includes match_ (str "${") then (st, interpolated match_)
  else
    ({| stringIndex := stringIndex st + 1;
        preservedStrings :=
          <[decimal (stringIndex st) := match_]> (preservedStrings st) |},
     placeholder (stringIndex st)).

Fixpoint protect (st : strings) (ps : list piece) : strings * text :=
  match ps with
  | [] => (st, [])
  | Plain c :: ps' =>
      let '(st', out) := protect st ps' in (st', c :: out)
  | Hit m :: ps' =>
      let '(st1, out1) := onString st m in
      let '(st2, out2) := protect st1 ps' in
      (st2, out1 ++ out2)
  end.

Definition protectStrings (preserved : gmap text text) (content : text)
  : strings * text :=
  protect {| stringIndex := 0; preservedStrings := preserved |}
    (pieces re_string None 0 content).

Definition restoreStrings (preserved : gmap text text) (content : text)
  : text :=
  replace re_placeholder
    (λ m, match preserved !! drop 17 m with
          | Some s => s
          | None => str "undefined"
          end)
    content.

(** ** Block comments

    The two nested loops over [content], [stack] and [lastIndex], one
    iteration at a time.  With an empty stack the machine is at the head of
    the outer loop, otherwise at the head of the inner one.  The stack grows
    at its end, as [push] and [pop] do; [stack[0]] is its head. *)

Record scanner := {
  content : text;
  stack : list nat;
  lastIndex : nat
}.

(** [lines.slice(1).join('\n')] for the lines of [s] *)
Definition remainingCode (s : text) : text := joinNl (tail (splitNl s)).

Definition blockStep (st : scanner) : scanner + text :=
  let content := content st in
  match stack st with
  | [] =>
      match indexOf content (str "/*") (lastIndex st) with
      | None => inr content
      | Some startIndex =>
          let lastIndex := startIndex + 2 in
          match indexOf content (str "*/") lastIndex with
          | None =>
              inr (trimEnd (slice content 0 startIndex) ++ [Ch.nl]
                     ++ remainingCode (drop startIndex content))
          | Some endIndex =>
              inl {| content := content; stack := [startIndex];
                     lastIndex := lastIndex |}
          end
      end
  | bottom :: _ =>
      let nextStart := indexOf content (str "/*") (lastIndex st) in
      match indexOf content (str "*/") (lastIndex st) with
      | None =>
          inl {| content := slice content 0 bottom ++ [Ch.nl]
                              ++ remainingCode (drop bottom content);
                 stack := [];
                 lastIndex := lastIndex st |}
      | Some nextEnd =>
          if match nextStart with
             | Some nextStart => nextStart <? nextEnd
             | None => false
             end
          then
            inl {| content := content;
                   stack := stack st ++ [default 0 nextStart];
                   lastIndex := default 0 nextStart + 2 |}
          else
            let start := List.last (stack st) 0 in
            match removelast (stack st) with
            | [] =>
                inl {| content := trimEnd (slice content 0 start)
                                    ++ drop (nextEnd + 2) content;
                       stack := [];
                       lastIndex := start |}
            | stack' =>
                inl {| content := content; stack := stack';
                       lastIndex := nextEnd + 2 |}
            end
      end
  end.

Fixpoint blockRun (fuel : nat) (st : scanner) : option text :=
  match fuel with
  | O => None
  | S fuel' =>
      match blockStep st with
      | inr out => Some out
      | inl st' => blockRun fuel' st'
      end
  end.

(** Every iteration either moves [lastIndex] forward in the same content or
    shortens the content, which bounds their number. *)
Definition blockFuel (content : text) : nat :=
  S (length content) * (length content + 3).

Definition removeBlockComments (content : text) : text :=
  default content
    (blockRun (blockFuel content)
       {| content := content; stack := []; lastIndex := 0 |}).

(** ** Formatting, line by line

    [map] and [filter] hand the callback the element, its index and the
    array.  Here the array is cut at the index: [before] is
    [arr.slice(0, index).reverse()] and [after] is [arr.slice(index + 1)],
    so [arr[index - 1]] and [arr[index + 1]] are their heads. *)

Definition truthy (s : option text) : bool :=
  match s with
  | Some (_ :: _) => true
  | _ => false
  end.

(** [x?.trim()?.endsWith(p)] and [x?.trim()?.startsWith(p)] *)
Definition trimEndsWith (x : option text) (p : text) : bool :=
  match x with
  | Some l => endsWith (trim l) p
  | None => false
  end.

Definition trimStartsWith (x : option text) (p : text) : bool :=
  match x with
  | Some l => startsWith (trim l) p
  | None => false
  end.

Definition formatLine (prevLine : option text) (line : text)
  (nextLine : option text) : option text :=
  let originalIndent := leadingSpace line in
  let trimmedLine := trim line in
  if negb (nonEmpty trimmedLine) then
    if (trimEndsWith prevLine (str ")") || trimEndsWith prevLine (str "}"))
       && trimStartsWith nextLine (str ".")
    then None
    else if truthy (trim <$> prevLine) && truthy (trim <$> nextLine)
            && negb (trimEndsWith prevLine (str "{"))
            && negb (trimStartsWith nextLine (str "}"))
    then Some originalIndent
    else None
  else if includes trimmedLine sentinel
          || includes trimmedLine [Ch.dquote; Ch.dquote; Ch.dquote]
          || includes trimmedLine [Ch.squote; Ch.squote; Ch.squote]
  then Some line
  else Some (originalIndent ++ trimmedLine).

Fixpoint mapLines (before : list text) (arr : list text)
  : list (option text) :=
  match arr with
  | [] => []
  | line :: after =>
      formatLine (head before) line (head after)
        :: mapLines (line :: before) after
  end.

(** The callback of [find]: not [null], and not blank. *)
Definition isContent (l : option text) : bool := truthy (trim <$> l).

Definition keepLine (before : list (option text)) (line : option text)
  (after : list (option text)) : bool :=
  match line with
  | None => false
  | Some l =>
      if negb (nonEmpty (trim l)) then
        match List.find isContent before, List.find isContent after with
        | Some prevNonEmpty, Some nextNonEmpty =>
            negb (trimEndsWith prevNonEmpty (str "{"))
            && negb (trimStartsWith nextNonEmpty (str "}"))
        | _, _ => false
        end
      else true
  end.

Fixpoint filterLines (before : list (option text))
  (arr : list (option text)) : list text :=
  match arr with
  | [] => []
  | line :: after =>
      (if keepLine before line after then [default [] line] else [])
        ++ filterLines (line :: before) after
  end.

Definition formatLines (lines : list text) : list text :=
  filterLines [] (mapLines [] lines).

Definition format (content : text) : text :=
  joinNl (formatLines (splitNl content)).

(** ** One file, and all of them *)

Definition stripComments (content : text) : text :=
  removeBlockComments (removeLineComments (removeDocComments content)).

Definition processFile (preserved : gmap text text) (content : text)
  : gmap text text * text :=
  let '(st, content) := protectStrings preserved content in
  let content := stripComments content in
  let content := restoreStrings (preservedStrings st) content in
  (preservedStrings st, format content).

(** The text that [removeComments] leaves in a file, the first of a run or
    after other files. *)
Definition process (preserved : gmap text text) (content : text) : text :=
  (processFile preserved content).2.

Fixpoint processFiles (preserved : gmap text text) (files : list text)
  : list text :=
  match files with
  | [] => []
  | content :: files' =>
      let '(preserved', out) := processFile preserved content in
      out :: processFiles preserved' files'
  end.

Definition removeComments (files : list text) : list text :=
  processFiles ∅ files.

(** Lines of ASCII text, joined by newlines. *)
Definition nls (ls : list string) : text := joinNl (map str ls).

(** ** Notions used in the statements *)

(** *** The formatter *)

(** What keeps the formatter from touching a line that is not blank. *)
Definition marked (trimmedLine : text) : bool :=
  includes trimmedLine sentinel
  || includes trimmedLine [Ch.dquote; Ch.dquote; Ch.dquote]
  || includes trimmedLine [Ch.squote; Ch.squote; Ch.squote].

(** What the formatter makes of a line that is not blank. *)
Definition tidyLine (line : text) : text :=
  if marked (trim line) then line else leadingSpace line ++ trim line.

(** The lines that the formatter emits, as one pass over the lines with the
    line before at hand. *)
Fixpoint emit (prevLine : option text) (lines : list text) : list text :=
  match lines with
  | [] => []
  | line :: after =>
      match formatLine prevLine line (head after) with
      | Some out => out :: emit (Some line) after
      | None => emit (Some line) after
      end
  end.

(** The head of the mapped array stands for the head of the array: where the
    line before is not blank, the mapped one is that line as far as its
    trimmed text goes. *)
Definition headsAgree (before : list text) (mapped : list (option text))
  : Prop :=
  ∀ q, head before = Some q → trim q ≠ [] →
       ∃ q', head mapped = Some (Some q') ∧ trim q' = trim q.

(** *** The passes *)

(** The content that the formatter receives: strings replaced, comments
    removed, strings restored. *)
Definition unformatted (preserved : gmap text text) (content : text) : text :=
  let '(st, content) := protectStrings preserved content in
  restoreStrings (preservedStrings st) (stripComments content).

(** The two passes over line and documentation comments. *)
Definition lineStrip (content : text) : text :=
  removeLineComments (removeDocComments content).

(** Removal by an expression, from a place behind the character [prev]. *)
Definition eraseFrom (re : regex) (prev : option N) (s : text) : text :=
  concat (map (fill (λ _, [])) (pieces re prev 0 s)).

(** An expression without lookbehind. *)
Definition blind (re : regex) : Prop :=
  ∀ prev prev' s, re prev s = re prev' s.

(** What the two expressions for line comments share: a match is decided
    within the line, runs to the end of the line, is not lost when text is
    appended, and does not see whether the line is the first one. *)
Record lineComment (re : regex) : Prop := {
  lc_local : ∀ prev l rest,
    Ch.nl ∉ l → re prev (l ++ Ch.nl :: rest) = re prev l;
  lc_whole : ∀ prev s n,
    re prev s = Some n → Ch.nl ∉ s → n = length s ∧ 0 < n;
  lc_mono : ∀ prev s t, re prev (s ++ t) = None → re prev s = None;
  lc_start : ∀ s, re (Some Ch.nl) s = re None s
}.

(** No match anywhere in a text that comes behind [prev]. *)
Fixpoint quiet (re : regex) (prev : option N) (s : text) : Prop :=
  match s with
  | [] => True
  | c :: s' => re prev s = None ∧ quiet re (Some c) s'
  end.

(** Free of line and documentation comments. *)
Definition uncommented (l : text) : Prop :=
  quiet re_doc None l ∧ quiet re_line None l.

(** *** Kinds of input *)

(** The two quote characters. *)
Definition isQuote (q : N) : Prop := q = Ch.squote ∨ q = Ch.dquote.

(** No quote character, so no string literal. *)
Definition noQuote (s : text) : Prop :=
  (Ch.squote ∉ s) ∧ (Ch.dquote ∉ s).

(** Code only: no string literal, no comment, and nothing that looks like a
    placeholder. *)
Definition codeOnly (s : text) : Prop :=
  noQuote s
  ∧ includes s (str "//") = false
  ∧ includes s (str "/*") = false
  ∧ includes s sentinel = false.

(** Code with line and documentation comments at most: no string literal,
    no block comment, nothing that looks like a placeholder. *)
Definition lineCommentsOnly (s : text) : Prop :=
  noQuote s
  ∧ includes s (str "/*") = false
  ∧ includes s sentinel = false.

(** No line is blank or ends in white space. *)
Definition tidy (s : text) : Prop :=
  Forall (λ l, trim l ≠ [] ∧ trimEnd l = l) (splitNl s).

(** A raw single-quoted literal that is one interpolation hole. *)
Definition rawLiteral (expr : text) : text :=
  str "r'${" ++ expr ++ str "}'".

(** *** The loops over block comments *)

(** What holds of the scanner at every iteration: with a comment open, the
    openers on the stack are where [/*] stands, before [lastIndex], which
    lies within the content. *)
Definition scanning (st : scanner) : Prop :=
  stack st ≠ [] →
  lastIndex st ≤ length (content st)
  ∧ Forall (λ e, e + 2 ≤ lastIndex st
                 ∧ startsWith (drop e (content st)) (str "/*") = true)
      (stack st).

(** What decreases at every iteration, for contents of at most [bound]
    characters. *)
Definition remaining (bound : nat) (st : scanner) : nat :=
  length (content st) * (bound + 3) + (bound + 2 - lastIndex st).

(** *** What the formatter leaves of the lines *)

(** A line that is not blank. *)
Definition isCode (line : text) : bool := nonEmpty (trim line).

(** What may stand around a blank line of the output: a line that is not
    blank and does not end in an opening brace before it, a line that is not
    blank and does not start with a closing brace behind it, and not a call
    chain going on from a closing parenthesis or brace to a dot. *)
Definition aroundBlank (trimmedPrev trimmedNext : text) : Prop :=
  trimmedPrev ≠ [] ∧ trimmedNext ≠ []
  ∧ endsWith trimmedPrev (str "{") = false
  ∧ startsWith trimmedNext (str "}") = false
  ∧ (endsWith trimmedPrev (str ")") || endsWith trimmedPrev (str "}"))
    && startsWith trimmedNext (str ".") = false.

(** *** The body of a quoted literal *)

(** What stands between the quotes of a literal: characters other than the
    quote and the backslash, and backslashes with the character that they
    escape. *)
Inductive bodyUnit :=
  | Char (c : N)
  | Escaped (d : N).

Definition unitText (u : bodyUnit) : text :=
  match u with
  | Char c => [c]
  | Escaped d => [Ch.backslash; d]
  end.

Definition bodyText (us : list bodyUnit) : text := concat (map unitText us).

Definition unitOf (q : N) (u : bodyUnit) : Prop :=
  match u with
  | Char c => c ≠ q ∧ c ≠ Ch.backslash
  | Escaped d => isLineTerminator d = false
  end.

(** *** The table of preserved strings *)

(** The matches of the string expression that get a placeholder, in the
    order of the text: those without the opener of a hole. *)
Definition protectedOf (ps : list piece) : list text :=
  omap (λ p, match p with
             | Hit m => if includes m (str "${") then None else Some m
             | Plain _ => None
             end) ps.

Definition literals (content : text) : list text :=
  protectedOf (pieces re_string None 0 content).

(** No match of the string expression has the opener of a hole. *)
Definition holeFree (ps : list piece) : bool :=
  forallb (λ p, match p with
                | Hit m => negb (includes m (str "${"))
                | Plain _ => true
                end) ps.

(** No match is followed by a digit at once. *)
Fixpoint noDigitBehind (ps : list piece) : bool :=
  match ps with
  | [] => true
  | Hit _ :: ps' =>
      match ps' with
      | Plain d :: _ => negb (isDigit d)
      | _ => true
      end && noDigitBehind ps'
  | Plain _ :: ps' => noDigitBehind ps'
  end.

(** *** Holes *)

(** A single-quoted literal that is one interpolation hole. *)
Definition holeLiteral (expr : text) : text :=
  str "'${" ++ expr ++ str "}'".

(** ** The run over a project

    [removeComments] as a whole.  What the file system and [glob] answer is
    given: [stats] is what [fs.stat] finds at the path, [None] where it
    rejects and else whether the path is a directory, and [dartFiles] is
    what [glob] lists, in its order, each file with what [fs.readFile]
    returns for it, [None] where it rejects, and with whether
    [fs.writeFile] succeeds on it.  An [await] on a rejected promise throws,
    and the [catch] block throws the error again after logging it, so that
    the run ends with the error.  The outcome is the list of the writes
    done, in their order, and then the error or the file names of
    [results]. *)

Record dartFile := {
  file : text;
  source : option text;
  writable : bool
}.

Record project := {
  stats : option bool;
  dartFiles : list dartFile
}.

Inductive failure :=
  | PathRequired
  | StatFailed
  | NotADirectory
  | ReadFailed (file : text)
  | WriteFailed (file : text).

Definition outcome : Type := list (text * text) * (failure + list text).

(** The loop over the files, with [preservedStrings] and [results] as they
    stand; [written] collects the calls of [fs.writeFile]. *)
Fixpoint eachFile (preserved : gmap text text) (files : list dartFile)
  (written : list (text * text)) (results : list text) : outcome :=
  match files with
  | [] => (written, inr results)
  | f :: files' =>
      match source f with
      | None => (written, inl (ReadFailed (file f)))
      | Some originalContent =>
          let '(preserved', content) := processFile preserved originalContent in
          if decide (content = originalContent)
          then eachFile preserved' files' written results
          else if writable f
               then eachFile preserved' files'
                      (written ++ [(file f, content)]) (results ++ [file f])
               else (written, inl (WriteFailed (file f)))
      end
  end.

(** [flutterProjectPath] is [None] for [undefined]; that and the empty
    string are falsy. *)
Definition removeCommentsIn (flutterProjectPath : option text) (p : project)
  : outcome :=
  if negb (truthy flutterProjectPath) then ([], inl PathRequired)
  else
    match stats p with
    | None => ([], inl StatFailed)
    | Some false => ([], inl NotADirectory)
    | Some true =>
        match dartFiles p with
        | [] => ([], inr [])
        | files => eachFile ∅ files [] []
        end
    end.

(** *** Notions for the run *)

(** The texts of the files that can be read. *)
Definition sources (files : list dartFile) : list text := omap source files.

(** [preservedStrings] after the files with the given texts. *)
Fixpoint tableAfter (preserved : gmap text text) (contents : list text)
  : gmap text text :=
  match contents with
  | [] => preserved
  | content :: contents' =>
      tableAfter (processFile preserved content).1 contents'
  end.

(** The files whose text differs from the text given for them, each with
    that text. *)
Definition changed (files : list dartFile) (outs : list text)
  : list (text * text) :=
  omap (λ fo : dartFile * text,
          if decide (source fo.1 = Some fo.2) then None
          else Some (file fo.1, fo.2))
    (zip files outs).

(** A file that can be read and written. *)
Definition accessible (f : dartFile) : Prop :=
  is_Some (source f) ∧ writable f = true.

(** Where the loop ends at a file: it cannot be read, or its text changes
    and it cannot be written. *)
Definition failureAt (preserved : gmap text text) (f : dartFile)
  : option failure :=
  match source f with
  | None => Some (ReadFailed (file f))
  | Some originalContent =>
      if decide (process preserved originalContent = originalContent)
      then None
      else if writable f then None else Some (WriteFailed (file f))
  end.

(** The files with the given texts in them. *)
Definition withTexts (files : list dartFile) (outs : list text)
  : list dartFile :=
  zip_with (λ f out, {| file := file f; source := Some out;
                        writable := writable f |}) files outs.

(** *** Files as lines of code, literals and remarks

    A line as the statements about literals and line comments take it: code
    in front, then the literals of the line, each with the code behind it,
    and at the end a remark, which is empty or a line comment. *)

Record sourceLine := {
  front : text;
  behind : list (text * text);
  remark : text
}.

Definition partsText (ps : list (text * text)) : text :=
  concat (map (λ p, p.1 ++ p.2) ps).

Definition codeText (l : sourceLine) : text := front l ++ partsText (behind l).

Definition lineText (l : sourceLine) : text := codeText l ++ remark l.

(** The file, and the file without the remarks. *)
Definition sourceText (ls : list sourceLine) : text :=
  joinNl (map lineText ls).

Definition strippedText (ls : list sourceLine) : text :=
  joinNl (map codeText ls).

(** Two slashes stand in code only right behind a colon, and then without a
    third slash behind them; [prev] is the character before the code. *)
Fixpoint guardedFrom (prev : option N) (c : text) : bool :=
  match c with
  | [] => true
  | x :: c' =>
      (negb (startsWith c (str "//"))
       || bool_decide (prev = Some Ch.colon)
          && negb (startsWith c (str "///")))
      && guardedFrom (Some x) c'
  end.

(** Code on a line: no quote, no newline, two slashes only behind a colon,
    no opener of a block comment and no sentinel. *)
Definition plainCode (c : text) : Prop :=
  noQuote c ∧ (Ch.nl ∉ c) ∧ guardedFrom None c = true
  ∧ includes c (str "/*") = false ∧ includes c sentinel = false.

(** The literals of a line behind the code [before], with [rest] behind the
    code of the line: each is what the string expression matches at its
    place, has no opener of a hole, and is followed by code that does not
    begin with a digit; an [r] right before a quote belongs to the
    literal. *)
Fixpoint literalsAt (before : text) (ps : list (text * text)) (rest : text)
  : Prop :=
  match ps with
  | [] => True
  | (lit, c) :: ps' =>
      (last before ≠ Some Ch.r ∨ head lit = Some Ch.r)
      ∧ re_string None (lit ++ c ++ partsText ps' ++ rest)
        = Some (length lit)
      ∧ includes lit (str "${") = false
      ∧ plainCode c
      ∧ (∀ d, head c = Some d → isDigit d = false)
      ∧ literalsAt c ps' rest
  end.

(** The remark behind the code of a line: nothing, or a text without quote
    that starts with three slashes, or with two slashes where the code does
    not end in a colon; the code before it does not end in a slash. *)
Definition remarkAt (code t : text) : Prop :=
  t = []
  ∨ (noQuote t ∧ (Ch.nl ∉ t) ∧ last code ≠ Some Ch.slash
     ∧ (startsWith t (str "///") = true
        ∨ (startsWith t (str "//") = true ∧ last code ≠ Some Ch.colon))).

Fixpoint plainLines (ls : list sourceLine) : Prop :=
  match ls with
  | [] => True
  | l :: ls' =>
      plainCode (front l)
      ∧ literalsAt (front l) (behind l)
          (remark l ++ match ls' with
                       | [] => []
                       | _ => Ch.nl :: sourceText ls'
                       end)
      ∧ remarkAt (codeText l) (remark l)
      ∧ plainLines ls'
  end.

(** The pieces that the string expression cuts these texts into. *)
Definition partsPieces (ps : list (text * text)) : list piece :=
  concat (map (λ p, Hit p.1 :: map Plain p.2) ps).

Definition codePieces (l : sourceLine) : list piece :=
  map Plain (front l) ++ partsPieces (behind l).

Definition linePieces (l : sourceLine) : list piece :=
  codePieces l ++ map Plain (remark l).

Fixpoint textPieces (ls : list sourceLine) : list piece :=
  match ls with
  | [] => []
  | l :: ls' =>
      linePieces l ++ match ls' with
                      | [] => []
                      | _ => Plain Ch.nl :: textPieces ls'
                      end
  end.

Fixpoint strippedPieces (ls : list sourceLine) : list piece :=
  match ls with
  | [] => []
  | l :: ls' =>
      codePieces l ++ match ls' with
                      | [] => []
                      | _ => Plain Ch.nl :: strippedPieces ls'
                      end
  end.

(** The text of the pieces with a newline for every match. *)
Definition masked (pcs : list piece) : text :=
  concat (map (fill (λ _, [Ch.nl])) pcs).


(** * Properties *)

(** ** Facts about the string methods *)

Section text_facts.

Implicit Types (s p l a b w : text) (c d : N) (f : N → bool).

Lemma takeWhile_dropWhile f s : takeWhile f s ++ dropWhile f s = s.
Proof. induction s as [|c s IH]; simpl; [done|]. destruct (f c); simpl; congruence. Qed.

Lemma takeWhile_true f s : Forall (λ c, f c = true) (takeWhile f s).
Proof.
  induction s as [|c s IH]; simpl; [constructor|].
  destruct (f c) eqn:E; constructor; auto.
Qed.

Lemma dropWhile_head f s c s' : dropWhile f s = c :: s' → f c = false.
Proof.
  induction s as [|x s IH]; simpl; [done|].
  destruct (f x) eqn:E; [auto|]. intros [= -> _]. done.
Qed.

Lemma dropWhile_all f w s :
  Forall (λ c, f c = true) w → dropWhile f (w ++ s) = dropWhile f s.
Proof. induction 1 as [|c w Hc _ IH]; simpl; [done|]. by rewrite Hc. Qed.

Lemma takeWhile_all f w s :
  Forall (λ c, f c = true) w → takeWhile f (w ++ s) = w ++ takeWhile f s.
Proof. induction 1 as [|c w Hc _ IH]; simpl; [done|]. by rewrite Hc, IH. Qed.

Lemma dropWhile_stop f c s : f c = false → dropWhile f (c :: s) = c :: s.
Proof. simpl. by intros ->. Qed.

Lemma takeWhile_stop f c s : f c = false → takeWhile f (c :: s) = [].
Proof. simpl. by intros ->. Qed.

Lemma takeWhile_until f a d s :
  Forall (λ c, f c = true) a → f d = false → takeWhile f (a ++ d :: s) = a.
Proof.
  intros Ha Hd. rewrite takeWhile_all by done.
  by rewrite takeWhile_stop, app_nil_r.
Qed.

Lemma dropWhile_nil_all f s :
  dropWhile f s = [] → Forall (λ c, f c = true) s.
Proof.
  induction s as [|c s IH]; simpl; [constructor|].
  destruct (f c) eqn:E; [|done]. constructor; auto.
Qed.

(** ** [trimEnd] *)

Lemma trimEnd_app_space a w :
  Forall (λ c, isSpace c = true) w → trimEnd (a ++ w) = trimEnd a.
Proof.
  intros Hw. unfold trimEnd. rewrite rev_app_distr, dropWhile_all; [done|].
  apply Forall_forall. intros c Hc. rewrite Forall_forall in Hw.
  apply Hw. by apply list_elem_of_In, in_rev, list_elem_of_In in Hc.
Qed.

Lemma trimEnd_snoc a d : isSpace d = false → trimEnd (a ++ [d]) = a ++ [d].
Proof.
  intros Hd. unfold trimEnd. rewrite rev_app_distr. simpl. rewrite Hd.
  simpl. by rewrite rev_involutive.
Qed.

Lemma trimEnd_shape l :
  trimEnd l = [] ∨ ∃ a d, trimEnd l = a ++ [d] ∧ isSpace d = false.
Proof.
  unfold trimEnd. destruct (dropWhile isSpace (rev l)) as [|d x] eqn:E.
  - by left.
  - right. exists (rev x), d. split; [done|]. by eapply dropWhile_head.
Qed.

Lemma trimEnd_split l :
  ∃ w, Forall (λ c, isSpace c = true) w ∧ l = trimEnd l ++ w.
Proof.
  exists (rev (takeWhile isSpace (rev l))). split.
  - apply Forall_forall. intros c Hc.
    apply list_elem_of_In, in_rev, list_elem_of_In in Hc.
    pose proof (takeWhile_true isSpace (rev l)) as H.
    rewrite Forall_forall in H. by apply H.
  - unfold trimEnd. rewrite <- rev_app_distr, takeWhile_dropWhile.
    by rewrite rev_involutive.
Qed.

Lemma trimEnd_idem l : trimEnd (trimEnd l) = trimEnd l.
Proof.
  destruct (trimEnd_shape l) as [->|(a & d & -> & Hd)]; [done|].
  by apply trimEnd_snoc.
Qed.

Lemma trimEnd_nil_all l :
  trimEnd l = [] → Forall (λ c, isSpace c = true) l.
Proof.
  intros H. destruct (trimEnd_split l) as (w & Hw & E).
  rewrite H in E. simpl in E. by subst.
Qed.

Lemma trimEnd_all l : Forall (λ c, isSpace c = true) l → trimEnd l = [].
Proof. intros H. by rewrite <- (app_nil_l l), trimEnd_app_space. Qed.

(** White space in front of text that [trimEnd] does not empty stays. *)
Lemma trimEnd_app a b : trimEnd b ≠ [] → trimEnd (a ++ b) = a ++ trimEnd b.
Proof.
  intros Hb. destruct (trimEnd_split b) as (w & Hw & E).
  rewrite E at 1. rewrite app_assoc, trimEnd_app_space by done.
  destruct (trimEnd_shape b) as [?|(x & d & -> & Hd)]; [done|].
  by rewrite app_assoc, trimEnd_snoc.
Qed.

Lemma trimEnd_cons c s : isSpace c = false → trimEnd (c :: s) = c :: trimEnd s.
Proof.
  intros Hc. destruct (trimEnd s) as [|x y] eqn:E.
  - rewrite <- (app_nil_l s) at 1. change (c :: [] ++ s) with ([c] ++ s).
    rewrite trimEnd_app_space; [by apply (trimEnd_snoc [])|].
    by apply trimEnd_nil_all.
  - change (c :: s) with ([c] ++ s). rewrite trimEnd_app; [by rewrite E|].
    by rewrite E.
Qed.

(** ** [trim] and the leading white space *)

Lemma trim_cases l :
  (Forall (λ c, isSpace c = true) l ∧ trim l = [])
  ∨ (∃ c s, l = leadingSpace l ++ c :: s ∧ isSpace c = false
            ∧ trim l = c :: trimEnd s).
Proof.
  unfold trim, trimStart, leadingSpace.
  pose proof (takeWhile_dropWhile isSpace l) as E.
  destruct (dropWhile isSpace l) as [|c s] eqn:D.
  - left. split; [by apply dropWhile_nil_all|done].
  - right. exists c, s. pose proof (dropWhile_head _ _ _ _ D) as Hc.
    split; [done|]. split; [done|]. by apply trimEnd_cons.
Qed.

Lemma trim_nil_all l : trim l = [] ↔ Forall (λ c, isSpace c = true) l.
Proof.
  split.
  - destruct (trim_cases l) as [[H _]|(c & s & _ & _ & ->)]; done.
  - intros H. unfold trim, trimStart.
    rewrite <- (app_nil_r l), dropWhile_all by done. done.
Qed.

Lemma leadingSpace_all l :
  Forall (λ c, isSpace c = true) l → leadingSpace l = l.
Proof.
  intros H. unfold leadingSpace.
  rewrite <- (app_nil_r l) at 1. rewrite takeWhile_all by done.
  simpl. by rewrite app_nil_r.
Qed.

(** On a line that is not blank, the leading white space followed by the
    trimmed line is the line without its trailing white space. *)
Lemma indent_trim l :
  trim l ≠ [] → leadingSpace l ++ trim l = trimEnd l.
Proof.
  intros H. destruct (trim_cases l) as [[_ ?]|(c & s & E & Hc & T)]; [done|].
  rewrite T.
  transitivity (trimEnd (leadingSpace l ++ c :: s)); [|by rewrite <- E].
  rewrite trimEnd_app; by rewrite trimEnd_cons.
Qed.

Lemma trim_trimEnd l : trim (trimEnd l) = trim l.
Proof.
  destruct (trim_cases l) as [[Ha T]|(c & s & E & Hc & T)].
  - rewrite T, (trimEnd_all _ Ha). done.
  - rewrite <- indent_trim by (rewrite T; done).
    unfold trim at 1, trimStart. rewrite dropWhile_all
      by apply takeWhile_true.
    rewrite T. rewrite dropWhile_stop by done.
    rewrite <- T. unfold trim. apply trimEnd_idem.
Qed.

Lemma leadingSpace_trimEnd l :
  trim l ≠ [] → leadingSpace (trimEnd l) = leadingSpace l.
Proof.
  intros H. rewrite <- indent_trim by done.
  destruct (trim_cases l) as [[_ ?]|(c & s & E & Hc & T)]; [done|].
  unfold leadingSpace at 1. rewrite takeWhile_all by apply takeWhile_true.
  rewrite T, takeWhile_stop by done. by rewrite app_nil_r.
Qed.

End text_facts.

Section search_facts.

Implicit Types (s p l a b w : text) (c d : N) (ls : list text).

Lemma startsWith_spec s p : startsWith s p = true ↔ ∃ b, s = p ++ b.
Proof.
  revert s. induction p as [|x p IH]; intros s; simpl.
  - split; [eauto|done].
  - destruct s as [|y s].
    + split; [done|]. by intros [b ?].
    + rewrite andb_true_iff, N.eqb_eq, IH. split.
      * intros [-> [b ->]]. eauto.
      * intros [b [= -> ->]]. eauto.
Qed.

Lemma startsWith_app s p b : startsWith s p = true → startsWith (s ++ b) p = true.
Proof.
  rewrite !startsWith_spec. intros [x ->]. exists (x ++ b).
  by rewrite app_assoc.
Qed.

Lemma startsWith_self p b : startsWith (p ++ b) p = true.
Proof. apply startsWith_spec. eauto. Qed.

Lemma includes_spec s p : includes s p = true ↔ ∃ a b, s = a ++ p ++ b.
Proof.
  induction s as [|y s IH]; simpl.
  - rewrite orb_false_r, startsWith_spec. split.
    + intros [b E]. by exists [], b.
    + intros (a & b & E). symmetry in E.
      apply app_eq_nil in E as [-> E]. eauto.
  - rewrite orb_true_iff, startsWith_spec, IH. split.
    + intros [[b E]|(a & b & ->)].
      * by exists [], b.
      * by exists (y :: a), b.
    + intros ([|x a] & b & E); simpl in E.
      * left. eauto.
      * right. injection E as -> ->. eauto.
Qed.

Lemma includes_app_l a b p : includes a p = true → includes (a ++ b) p = true.
Proof.
  rewrite !includes_spec. intros (x & y & ->). exists x, (y ++ b).
  by rewrite <- !app_assoc.
Qed.

Lemma includes_app_r a b p : includes b p = true → includes (a ++ b) p = true.
Proof.
  rewrite !includes_spec. intros (x & y & ->). exists (a ++ x), y.
  by rewrite <- !app_assoc.
Qed.

Lemma includes_cons_false c s p :
  includes (c :: s) p = false →
  startsWith (c :: s) p = false ∧ includes s p = false.
Proof. simpl. by intros [? ?]%orb_false_iff. Qed.

Lemma includes_false_app a b p :
  includes (a ++ b) p = false → includes a p = false ∧ includes b p = false.
Proof.
  intros H. split; apply not_true_is_false; intros E;
    [apply (includes_app_l _ b) in E | apply (includes_app_r a) in E];
    congruence.
Qed.

Lemma indexOf0_None s p : indexOf0 s p = None ↔ includes s p = false.
Proof.
  induction s as [|y s IH]; simpl.
  - destruct (startsWith [] p); simpl; split; done.
  - destruct (startsWith (y :: s) p); simpl; [split; done|].
    rewrite <- IH. destruct (indexOf0 s p); simpl; split; done.
Qed.

(** A pattern cannot lie across a character that it does not contain. *)
Lemma startsWith_sep l c r p :
  c ∉ p → startsWith (l ++ c :: r) p = startsWith l p.
Proof.
  revert l. induction p as [|x p IH]; intros l Hc; [by destruct l|].
  apply not_elem_of_cons in Hc as [Hx Hc].
  destruct l as [|y l]; simpl.
  - apply andb_false_iff. left. by apply N.eqb_neq.
  - by rewrite IH.
Qed.

Lemma includes_sep l c r p :
  c ∉ p → includes (l ++ c :: r) p = includes l p || includes r p.
Proof.
  intros Hc. induction l as [|y l IH].
  - cbn [app includes]. pose proof (startsWith_sep [] c r p Hc) as E.
    cbn [app] in E. rewrite E. by rewrite orb_false_r.
  - change ((y :: l) ++ c :: r) with (y :: (l ++ c :: r)).
    cbn [includes]. rewrite IH.
    change (y :: (l ++ c :: r)) with ((y :: l) ++ c :: r).
    rewrite startsWith_sep by done. by rewrite orb_assoc.
Qed.

(** ** Lines *)

Lemma split_nonnil s : splitNl s ≠ [].
Proof.
  destruct s as [|c s]; simpl; [done|].
  destruct (c =? Ch.nl)%N; [done|]. by destruct (splitNl s).
Qed.

Lemma join_cons l ls : ls ≠ [] → joinNl (l :: ls) = l ++ Ch.nl :: joinNl ls.
Proof. by destruct ls. Qed.

Lemma join_split s : joinNl (splitNl s) = s.
Proof.
  induction s as [|c s IH]; [done|]. simpl.
  destruct (c =? Ch.nl)%N eqn:E.
  - apply N.eqb_eq in E as ->. rewrite join_cons by apply split_nonnil.
    simpl. by rewrite IH.
  - pose proof (split_nonnil s) as Hn.
    destruct (splitNl s) as [|l ls]; [done|].
    destruct ls as [|l' ls].
    + simpl in *. by rewrite IH.
    + rewrite join_cons by done. rewrite join_cons in IH by done.
      rewrite <- IH. done.
Qed.

Lemma split_line l : Ch.nl ∉ l → splitNl l = [l].
Proof.
  induction l as [|c l IH]; [done|]. intros [Hc Hl]%not_elem_of_cons.
  simpl. assert ((c =? Ch.nl)%N = false) as -> by (apply N.eqb_neq; congruence).
  by rewrite IH.
Qed.

Lemma split_app_nl l r : Ch.nl ∉ l → splitNl (l ++ Ch.nl :: r) = l :: splitNl r.
Proof.
  induction l as [|c l IH]; [done|]. intros [Hc Hl]%not_elem_of_cons.
  simpl. assert ((c =? Ch.nl)%N = false) as -> by (apply N.eqb_neq; congruence).
  by rewrite IH.
Qed.

Lemma split_lines s : Forall (λ l, Ch.nl ∉ l) (splitNl s).
Proof.
  induction s as [|c s IH]; simpl.
  - repeat constructor. apply not_elem_of_nil.
  - destruct (c =? Ch.nl)%N eqn:E.
    + constructor; [apply not_elem_of_nil|done].
    + destruct (splitNl s) as [|l ls]; simpl.
      * repeat constructor. apply N.eqb_neq in E.
        apply not_elem_of_cons. split; [congruence|apply not_elem_of_nil].
      * inversion IH; subst. constructor; [|done].
        apply N.eqb_neq in E. apply not_elem_of_cons. split; [congruence|done].
Qed.

Lemma split_join ls :
  ls ≠ [] → Forall (λ l, Ch.nl ∉ l) ls → splitNl (joinNl ls) = ls.
Proof.
  induction ls as [|l ls IH]; [done|]. intros _ H.
  inversion H as [|? ? Hl Hls]; subst. destruct ls as [|l' ls].
  - simpl. by apply split_line.
  - rewrite join_cons by done. rewrite split_app_nl by done.
    by rewrite IH.
Qed.

Lemma includes_join ls p :
  Ch.nl ∉ p → includes (joinNl ls) p = true →
  p = [] ∨ ∃ l, l ∈ ls ∧ includes l p = true.
Proof.
  intros Hp. induction ls as [|l ls IH].
  - simpl. rewrite orb_false_r. destruct p; [by left|done].
  - destruct ls as [|l' ls].
    + simpl. intros H. right. exists l. split; [apply list_elem_of_here|done].
    + rewrite join_cons by done. rewrite includes_sep by done.
      intros [H|H]%orb_true_iff.
      * right. exists l. split; [apply list_elem_of_here|done].
      * destruct (IH H) as [?|(x & Hx & Hi)]; [by left|].
        right. exists x. split; [by apply list_elem_of_further|done].
Qed.

Lemma join_includes ls l p :
  l ∈ ls → includes l p = true → includes (joinNl ls) p = true.
Proof.
  induction ls as [|x ls IH]; [by intros ?%elem_of_nil|].
  intros [->|Hl]%elem_of_cons Hi.
  - destruct ls; [done|]. rewrite join_cons by done.
    by apply includes_app_l.
  - destruct ls as [|y ls]; [by apply elem_of_nil in Hl|].
    rewrite join_cons by done.
    apply includes_app_r. change (includes ([Ch.nl] ++ joinNl (y :: ls)) p = true).
    apply includes_app_r. auto.
Qed.

Lemma elem_of_join ls c :
  c ∈ joinNl ls → c = Ch.nl ∨ ∃ l, l ∈ ls ∧ c ∈ l.
Proof.
  induction ls as [|l ls IH]; [by intros ?%elem_of_nil|].
  destruct ls as [|l' ls].
  - simpl. intros H. right. exists l. split; [apply list_elem_of_here|done].
  - rewrite join_cons by done.
    intros [H|[->|H]%elem_of_cons]%elem_of_app.
    + right. exists l. split; [apply list_elem_of_here|done].
    + by left.
    + destruct (IH H) as [?|(x & Hx & Hc)]; [by left|].
      right. exists x. split; [by apply list_elem_of_further|done].
Qed.

Lemma join_elem_of ls l c : l ∈ ls → c ∈ l → c ∈ joinNl ls.
Proof.
  induction ls as [|x ls IH]; [by intros ?%elem_of_nil|].
  intros [->|Hl]%elem_of_cons Hc.
  - destruct ls; [done|]. rewrite join_cons by done.
    apply elem_of_app. by left.
  - destruct ls as [|y ls]; [by apply elem_of_nil in Hl|].
    rewrite join_cons by done. apply elem_of_app. right.
    apply list_elem_of_further. auto.
Qed.

End search_facts.

(** * The formatter *)

Section formatter.

Implicit Types (l x : text) (p n : option text) (ls : list text).

Lemma nonEmpty_true l : nonEmpty l = true ↔ l ≠ [].
Proof. by destruct l. Qed.

Lemma nonEmpty_false l : nonEmpty l = false ↔ l = [].
Proof. by destruct l. Qed.

Lemma formatLine_content p l n :
  trim l ≠ [] → formatLine p l n = Some (tidyLine l).
Proof.
  intros H. unfold formatLine, tidyLine, marked.
  apply nonEmpty_true in H. rewrite H. simpl.
  by destruct (_ || _ || _).
Qed.

Lemma formatLine_blank p l n x :
  trim l = [] → formatLine p l n = Some x →
  x = l ∧ truthy (trim <$> p) = true ∧ truthy (trim <$> n) = true
  ∧ trimEndsWith p (str "{") = false ∧ trimStartsWith n (str "}") = false.
Proof.
  intros H. unfold formatLine. rewrite (proj2 (nonEmpty_false _) H). simpl.
  destruct (_ && trimStartsWith n (str ".")); [done|].
  destruct (truthy (trim <$> p)); [|done].
  destruct (truthy (trim <$> n)); [|done].
  destruct (trimEndsWith p (str "{")); [done|].
  destruct (trimStartsWith n (str "}")); [done|]. simpl.
  intros [= <-]. split; [|done].
  by apply leadingSpace_all, trim_nil_all.
Qed.

(** The lines around matter through their trimmed text only. *)
Lemma formatLine_ext p p' l n n' :
  trim <$> p = trim <$> p' → trim <$> n = trim <$> n' →
  formatLine p l n = formatLine p' l n'.
Proof.
  intros Hp Hn. unfold formatLine.
  assert (∀ q, trimEndsWith p q = trimEndsWith p' q) as E1.
  { intros q. destruct p, p'; simpl in *; try done. by injection Hp as ->. }
  assert (∀ q, trimStartsWith n q = trimStartsWith n' q) as E2.
  { intros q. destruct n, n'; simpl in *; try done. by injection Hn as ->. }
  by rewrite !E1, !E2, Hp, Hn.
Qed.

Lemma tidyLine_cases l : trim l ≠ [] → tidyLine l = l ∨ tidyLine l = trimEnd l.
Proof.
  intros H. unfold tidyLine. destruct (marked (trim l)); [by left|].
  right. by apply indent_trim.
Qed.

Lemma trim_tidyLine l : trim l ≠ [] → trim (tidyLine l) = trim l.
Proof.
  intros H. destruct (tidyLine_cases l H) as [->| ->]; [done|].
  apply trim_trimEnd.
Qed.

Lemma tidyLine_idem l : trim l ≠ [] → tidyLine (tidyLine l) = tidyLine l.
Proof.
  intros H. unfold tidyLine at 1. rewrite trim_tidyLine by done.
  unfold tidyLine. destruct (marked (trim l)) eqn:E; [done|].
  rewrite indent_trim by done.
  by rewrite leadingSpace_trimEnd, indent_trim.
Qed.

Lemma tidyLine_fixed l : trim l ≠ [] → trimEnd l = l → tidyLine l = l.
Proof. intros H E. destruct (tidyLine_cases l H) as [->| ->]; done. Qed.

(** ** [map] then [filter] is one pass *)

Lemma truthy_trim p : truthy (trim <$> p) = true ↔ ∃ q, p = Some q ∧ trim q ≠ [].
Proof.
  destruct p as [q|]; simpl.
  - destruct (trim q) eqn:E; split; try done.
    + by intros (? & [= <-] & ?).
    + intros _. exists q. by rewrite E.
  - split; [done|]. by intros (? & ? & _).
Qed.

Lemma isContent_Some q : trim q ≠ [] → isContent (Some q) = true.
Proof. unfold isContent. simpl. by destruct (trim q). Qed.

Lemma filter_map before mapped ls :
  headsAgree before mapped →
  filterLines mapped (mapLines before ls) = emit (head before) ls.
Proof.
  revert before mapped. induction ls as [|l after IH]; intros B MB HR; [done|].
  cbn [mapLines filterLines emit].
  set (m := formatLine (head B) l (head after)).
  assert (headsAgree (l :: B) (m :: MB)) as HR'.
  { intros q [= <-] Hq. exists (tidyLine l). split.
    - simpl. f_equal. by apply formatLine_content.
    - by apply trim_tidyLine. }
  rewrite (IH _ _ HR'). simpl head.
  destruct m as [x|] eqn:Em; [|done].
  assert (keepLine MB (Some x) (mapLines (l :: B) after) = true) as ->; [|done].
  unfold keepLine. destruct (trim l) as [|c t] eqn:El.
  - destruct (formatLine_blank _ _ _ _ El Em) as (-> & Hp & Hn & Hb & Hc).
    rewrite El. simpl.
    apply truthy_trim in Hp as (q & Hq & Hqt).
    apply truthy_trim in Hn as (n & Hn & Hnt).
    destruct (HR q Hq Hqt) as (q' & HMB & Eq').
    destruct MB as [|m0 MB]; [done|]. injection HMB as ->.
    destruct after as [|n0 after]; [done|]. injection Hn as ->.
    cbn [mapLines]. rewrite formatLine_content by done.
    cbn [List.find].
    rewrite !isContent_Some by (by rewrite ?trim_tidyLine, ?Eq').
    rewrite Hq in Hb. unfold trimEndsWith, trimStartsWith in *.
    cbn [head] in Hc. rewrite Eq', Hb, trim_tidyLine, Hc by done. done.
  - assert (trim l ≠ []) as Hl by (by rewrite El).
    subst m. rewrite formatLine_content in Em by done. injection Em as <-.
    rewrite trim_tidyLine, El by done. done.
Qed.

Lemma formatLines_emit ls : formatLines ls = emit None ls.
Proof. apply (filter_map [] []). intros q Hq. done. Qed.

(** ** What is emitted *)

Lemma emit_origin p ls x :
  x ∈ emit p ls →
  ∃ l, l ∈ ls ∧ ((trim l = [] ∧ x = l) ∨ (trim l ≠ [] ∧ x = tidyLine l)).
Proof.
  revert p. induction ls as [|l after IH]; intros p; [by intros ?%elem_of_nil|].
  cbn [emit]. destruct (formatLine p l (head after)) as [y|] eqn:E.
  - intros [->|H]%elem_of_cons.
    + exists l. split; [apply list_elem_of_here|].
      destruct (trim l) eqn:El.
      * left. split; [done|]. by destruct (formatLine_blank _ _ _ _ El E).
      * right. split; [done|]. rewrite formatLine_content in E
          by (by rewrite El). by injection E.
    + destruct (IH _ H) as (l0 & ? & ?). exists l0.
      split; [by apply list_elem_of_further|done].
  - intros H. destruct (IH _ H) as (l0 & ? & ?). exists l0.
    split; [by apply list_elem_of_further|done].
Qed.

Lemma emit_content p ls l :
  l ∈ ls → trim l ≠ [] → tidyLine l ∈ emit p ls.
Proof.
  revert p. induction ls as [|l0 after IH]; intros p; [by intros ?%elem_of_nil|].
  intros [->|H]%elem_of_cons Hl; cbn [emit].
  - rewrite formatLine_content by done. apply list_elem_of_here.
  - destruct (formatLine p l0 (head after));
      [apply list_elem_of_further|]; by apply IH.
Qed.

Lemma emit_fixed p ls :
  Forall (λ l, trim l ≠ [] ∧ trimEnd l = l) ls → emit p ls = ls.
Proof.
  intros H. revert p. induction H as [|l after [Hl Ht] _ IH]; intros p; [done|].
  cbn [emit]. rewrite formatLine_content by done.
  by rewrite tidyLine_fixed, IH.
Qed.

Lemma emit_idem ls p p' :
  (truthy (trim <$> p) = true → trim <$> p' = trim <$> p) →
  emit p' (emit p ls) = emit p ls.
Proof.
  revert p p'. induction ls as [|l after IH]; intros p p' Hp; [done|].
  cbn [emit]. destruct (trim l) as [|c t] eqn:El.
  - destruct (formatLine p l (head after)) as [x|] eqn:E.
    + destruct (formatLine_blank _ _ _ _ El E) as (-> & Hq & Hn & _).
      specialize (Hp Hq). apply truthy_trim in Hn as (n & Hn & Hnt).
      destruct after as [|n0 after']; [done|]. injection Hn as ->.
      assert (head (emit (Some l) (n :: after')) = Some (tidyLine n)) as Eh.
      { cbn [emit]. by rewrite formatLine_content. }
      set (X := emit (Some l) (n :: after')) in *.
      change (emit p' (l :: X)) with
        (match formatLine p' l (head X) with
         | Some out => out :: emit (Some l) X
         | None => emit (Some l) X
         end).
      rewrite Eh, (formatLine_ext p' p l _ (Some n)); [|done|].
      * simpl in E. rewrite E. f_equal. by apply IH.
      * simpl. by rewrite trim_tidyLine.
    + apply IH. intros Hq. apply truthy_trim in Hq as (q & [= <-] & Hq).
      done.
  - assert (trim l ≠ []) as Hl by (by rewrite El).
    rewrite formatLine_content by done. cbn [emit].
    rewrite formatLine_content by (by rewrite trim_tidyLine).
    rewrite tidyLine_idem by done. f_equal. apply IH.
    intros _. simpl. by rewrite trim_tidyLine.
Qed.

Lemma trimEnd_elem_of l c : c ∈ trimEnd l → c ∈ l.
Proof.
  intros H. destruct (trimEnd_split l) as (w & _ & E). rewrite E.
  apply elem_of_app. by left.
Qed.

Lemma emit_elem_of p ls x c :
  x ∈ emit p ls → c ∈ x → ∃ l, l ∈ ls ∧ c ∈ l.
Proof.
  intros Hx Hc. destruct (emit_origin _ _ _ Hx) as (l & Hl & [[_ ->]|[Ht ->]]).
  - eauto.
  - exists l. split; [done|].
    destruct (tidyLine_cases l Ht) as [E|E]; rewrite E in Hc; [done|].
    by apply trimEnd_elem_of.
Qed.

Lemma emit_lines p ls :
  Forall (λ l, Ch.nl ∉ l) ls → Forall (λ l, Ch.nl ∉ l) (emit p ls).
Proof.
  intros H. apply Forall_forall. intros x Hx Hc.
  destruct (emit_elem_of _ _ _ _ Hx Hc) as (l & Hl & Hcl).
  rewrite Forall_forall in H. by apply (H l).
Qed.

(** ** The formatter on texts *)

Lemma format_emit content : format content = joinNl (emit None (splitNl content)).
Proof. unfold format. by rewrite formatLines_emit. Qed.

Lemma format_lines content :
  splitNl (format content) = emit None (splitNl content)
  ∨ (emit None (splitNl content) = [] ∧ format content = []).
Proof.
  rewrite format_emit. destruct (emit None (splitNl content)) as [|l ls] eqn:E.
  - by right.
  - left. apply split_join; [done|]. rewrite <- E.
    apply emit_lines, split_lines.
Qed.

Lemma format_idem content : format (format content) = format content.
Proof.
  destruct (format_lines content) as [E|[E1 E2]].
  - rewrite (format_emit (format content)), E.
    rewrite emit_idem by done. by rewrite format_emit.
  - rewrite E2. done.
Qed.

Lemma format_fixed content :
  Forall (λ l, trim l ≠ [] ∧ trimEnd l = l) (splitNl content) →
  format content = content.
Proof.
  intros H. rewrite format_emit, emit_fixed by done. apply join_split.
Qed.

Lemma format_elem_of content c :
  c ∈ format content → c ≠ Ch.nl → c ∈ content.
Proof.
  rewrite format_emit. intros [->|(x & Hx & Hc)]%elem_of_join Hn; [done|].
  destruct (emit_elem_of _ _ _ _ Hx Hc) as (l & Hl & Hcl).
  rewrite <- (join_split content). by eapply join_elem_of.
Qed.

Lemma trimEnd_includes l q : includes (trimEnd l) q = true → includes l q = true.
Proof.
  intros H. destruct (trimEnd_split l) as (w & _ & E). rewrite E.
  by apply includes_app_l.
Qed.

(** The formatter creates no occurrence of a pattern within a line. *)
Lemma format_includes content q :
  q ≠ [] → Ch.nl ∉ q →
  includes (format content) q = true → includes content q = true.
Proof.
  intros Hq Hn. rewrite format_emit. intros H.
  destruct (includes_join _ _ Hn H) as [?|(x & Hx & Hi)]; [done|].
  rewrite <- (join_split content).
  destruct (emit_origin _ _ _ Hx) as (l & Hl & [[_ ->]|[Ht ->]]).
  - by eapply join_includes.
  - eapply join_includes; [done|].
    destruct (tidyLine_cases l Ht) as [E|E]; rewrite E in Hi; [done|].
    by apply trimEnd_includes.
Qed.

End formatter.

(** * Replacement *)

Section replacement.

Implicit Types (s p l a b : text) (c d : N) (re : regex) (prev : option N).

Lemma pieces_plain re s :
  (∀ prev a c b, s = a ++ c :: b → re prev (c :: b) = None) →
  ∀ prev, pieces re prev 0 s = map Plain s.
Proof.
  induction s as [|c s IH]; intros H prev; [done|].
  cbn [pieces]. rewrite (H prev [] c s) by done. cbn [map]. f_equal.
  apply IH. intros prev' a c' b ->. by apply (H prev' (c :: a)).
Qed.

Lemma fill_plain (f : text → text) s : concat (map (fill f) (map Plain s)) = s.
Proof. induction s as [|c s IH]; [done|]. simpl. by rewrite IH. Qed.

Lemma protect_plain st s : protect st (map Plain s) = (st, s).
Proof. induction s as [|c s IH]; [done|]. simpl. by rewrite IH. Qed.

Lemma protect_app st ps1 ps2 :
  protect st (ps1 ++ ps2)
  = let '(st1, out1) := protect st ps1 in
    let '(st2, out2) := protect st1 ps2 in
    (st2, out1 ++ out2).
Proof.
  revert st. induction ps1 as [|[c|m] ps1 IH]; intros st; simpl.
  - by destruct (protect st ps2).
  - rewrite IH. destruct (protect st ps1) as [st1 o1].
    by destruct (protect st1 ps2).
  - destruct (onString st m) as [st0 o0]. rewrite IH.
    destruct (protect st0 ps1) as [st1 o1].
    destruct (protect st1 ps2) as [st2 o2]. by rewrite app_assoc.
Qed.

(** Past a match the walk goes on from the text behind it. *)
Lemma pieces_skip re prev k s :
  ∃ prev', pieces re prev k s = pieces re prev' 0 (drop k s).
Proof.
  revert prev k. induction s as [|c s IH]; intros prev k.
  - exists prev. by destruct k.
  - destruct k as [|k]; [by exists prev|]. cbn [pieces drop]. apply IH.
Qed.

Lemma pieces_skip_all re prev k s : length s ≤ k → pieces re prev k s = [].
Proof.
  revert prev k. induction s as [|c s IH]; intros prev k Hk; [done|].
  destruct k as [|k]; simpl in Hk; [lia|]. cbn [pieces]. apply IH. lia.
Qed.

(** The pieces of a text of which the front has no match. *)
Lemma pieces_app_plain re a b :
  (∀ prev x c y, a = x ++ c :: y → re prev (c :: y ++ b) = None) →
  ∀ prev, pieces re prev 0 (a ++ b)
          = map Plain a ++ pieces re (from_option Some prev (last a)) 0 b.
Proof.
  induction a as [|c a IH]; intros H prev; [done|].
  cbn [app pieces]. rewrite (H prev [] c a) by done. cbn [map app]. f_equal.
  rewrite IH.
  - assert (from_option Some (Some c) (last a)
            = from_option Some prev (last (c :: a))) as ->; [|done].
    destruct a as [|c' a]; [done|]. rewrite last_cons_cons.
    destruct (last (c' :: a)) eqn:E; [done|]. by apply last_None in E.
  - intros prev' x c' y ->. by apply (H prev' (c :: x)).
Qed.

Lemma pieces_blind re prev prev' k s :
  blind re → pieces re prev k s = pieces re prev' k s.
Proof.
  intros Hb. revert prev prev' k. induction s as [|c s IH]; intros; [done|].
  cbn [pieces]. destruct k; [|done]. by rewrite (Hb prev prev').
Qed.

Lemma re_doc_blind : blind re_doc. Proof. done. Qed.
Lemma re_string_blind : blind re_string. Proof. done. Qed.
Lemma re_placeholder_blind : blind re_placeholder. Proof. done. Qed.
Lemma re_hole_blind : blind re_hole. Proof. done. Qed.

End replacement.

(** A character is not among the characters of a given text. *)
Ltac notin :=
  let H := fresh in
  intros H; vm_compute in H;
  repeat (apply elem_of_cons in H as [H|H]; [discriminate H|]);
  by apply elem_of_nil in H.

(** * Text in which the passes find nothing *)

Section quiet.

Implicit Types (s p l a b : text) (c d : N)
  (preserved : gmap text text).

Lemma startsWith_short s p q :
  startsWith s p = false → startsWith s (p ++ q) = false.
Proof.
  intros H. apply not_true_is_false. intros E. apply startsWith_spec in E as [b E].
  rewrite <- app_assoc in E.
  assert (startsWith s p = true) by (apply startsWith_spec; eauto). congruence.
Qed.

Lemma startsWith_head s c p d s' :
  s = d :: s' → d ≠ c → startsWith s (c :: p) = false.
Proof. intros -> H. simpl. apply andb_false_iff. left. by apply N.eqb_neq. Qed.

Lemma tripleQuoted_head q body :
  head body ≠ Some q → tripleQuoted q body = None.
Proof.
  intros H. unfold tripleQuoted. destruct body as [|d body]; [done|].
  erewrite startsWith_head; [done|done|]. intros ->. by apply H.
Qed.

Lemma singleQuoted_head q body :
  head body ≠ Some q → singleQuoted q body = None.
Proof.
  intros H. destruct body as [|d body]; [done|]. simpl.
  destruct (d =? q)%N eqn:E; [|done]. apply N.eqb_eq in E as ->. by destruct H.
Qed.

Lemma literalAt_head body :
  head body ≠ Some Ch.squote → head body ≠ Some Ch.dquote →
  literalAt body = None.
Proof.
  intros H1 H2. unfold literalAt.
  by rewrite !tripleQuoted_head, !singleQuoted_head.
Qed.

Lemma noQuote_app a b : noQuote (a ++ b) ↔ noQuote a ∧ noQuote b.
Proof. unfold noQuote. rewrite !not_elem_of_app. tauto. Qed.

Lemma noQuote_cons c s : noQuote (c :: s) ↔ (c ≠ Ch.squote ∧ c ≠ Ch.dquote) ∧ noQuote s.
Proof.
  unfold noQuote. rewrite !not_elem_of_cons. split.
  - intros [[? ?] [? ?]]. repeat split; congruence.
  - intros [[? ?] [? ?]]. repeat split; congruence.
Qed.

Lemma noQuote_head s : noQuote s → head s ≠ Some Ch.squote ∧ head s ≠ Some Ch.dquote.
Proof.
  destruct s as [|c s]; [done|]. intros [[? ?] _]%noQuote_cons.
  split; intros [= ->]; done.
Qed.

Lemma re_string_noQuote prev s : noQuote s → re_string prev s = None.
Proof.
  intros H. destruct s as [|c s]; [done|]. cbn [re_string].
  destruct (noQuote_head _ H) as [H1 H2].
  apply noQuote_cons in H as [_ H]. destruct (noQuote_head _ H) as [H3 H4].
  destruct (c =? Ch.r)%N.
  - by rewrite literalAt_head.
  - by rewrite literalAt_head.
Qed.

Lemma pieces_string_noQuote prev s :
  noQuote s → pieces re_string prev 0 s = map Plain s.
Proof.
  intros H. apply pieces_plain. intros prev' a c b ->.
  apply re_string_noQuote. by apply noQuote_app in H as [_ H].
Qed.

Lemma protectStrings_noQuote preserved s :
  noQuote s →
  protectStrings preserved s
  = ({| stringIndex := 0; preservedStrings := preserved |}, s).
Proof.
  intros H. unfold protectStrings.
  by rewrite pieces_string_noQuote, protect_plain.
Qed.

Lemma replace_quiet re f s :
  (∀ prev a c b, s = a ++ c :: b → re prev (c :: b) = None) →
  replace re f s = s.
Proof. intros H. unfold replace. by rewrite pieces_plain, fill_plain. Qed.

Lemma removeDocComments_quiet s :
  includes s (str "//") = false → removeDocComments s = s.
Proof.
  intros H. apply replace_quiet. intros prev a c b ->.
  apply includes_false_app in H as [_ H].
  apply includes_cons_false in H as [H _]. unfold re_doc.
  by rewrite (startsWith_short _ (str "//") (str "/")).
Qed.

Lemma removeLineComments_quiet s :
  includes s (str "//") = false → removeLineComments s = s.
Proof.
  intros H. apply replace_quiet. intros prev a c b ->.
  apply includes_false_app in H as [_ H].
  apply includes_cons_false in H as [H _]. unfold re_line.
  rewrite H. by destruct (decide _).
Qed.

Lemma blockFuel_pos s : ∃ n, blockFuel s = S n.
Proof. unfold blockFuel. exists (length s + 2 + length s * (length s + 3)). lia. Qed.

Lemma removeBlockComments_quiet s :
  includes s (str "/*") = false → removeBlockComments s = s.
Proof.
  intros H. unfold removeBlockComments.
  destruct (blockFuel_pos s) as [n ->]. cbn [blockRun].
  unfold blockStep. cbn [stack content lastIndex].
  unfold indexOf. rewrite drop_0.
  apply indexOf0_None in H. by rewrite H.
Qed.

Lemma stripComments_quiet s :
  includes s (str "//") = false → includes s (str "/*") = false →
  stripComments s = s.
Proof.
  intros H1 H2. unfold stripComments.
  by rewrite removeDocComments_quiet, removeLineComments_quiet,
    removeBlockComments_quiet.
Qed.

Lemma restoreStrings_quiet preserved s :
  includes s sentinel = false → restoreStrings preserved s = s.
Proof.
  intros H. apply replace_quiet. intros prev a c b ->.
  apply includes_false_app in H as [_ H].
  apply includes_cons_false in H as [H _]. unfold re_placeholder.
  by rewrite H.
Qed.

Lemma process_unformatted preserved content :
  process preserved content = format (unformatted preserved content).
Proof.
  unfold process, processFile, unformatted.
  by destruct (protectStrings preserved content).
Qed.

Lemma unformatted_codeOnly preserved content :
  codeOnly content → unformatted preserved content = content.
Proof.
  intros (Hq & H1 & H2 & H3). unfold unformatted.
  rewrite protectStrings_noQuote by done. cbn [preservedStrings].
  by rewrite stripComments_quiet, restoreStrings_quiet.
Qed.

(** On code the formatter alone acts. *)
Lemma process_codeOnly preserved content :
  codeOnly content → process preserved content = format content.
Proof. intros H. by rewrite process_unformatted, unformatted_codeOnly. Qed.

Lemma format_codeOnly content : codeOnly content → codeOnly (format content).
Proof.
  intros ([Hs Hd] & H1 & H2 & H3). repeat split.
  - intros H. by apply Hs, format_elem_of.
  - intros H. by apply Hd, format_elem_of.
  - apply not_true_is_false. intros H.
    apply format_includes in H; [congruence|done|].
    notin.
  - apply not_true_is_false. intros H.
    apply format_includes in H; [congruence|done|].
    notin.
  - apply not_true_is_false. intros H.
    apply format_includes in H; [congruence|done|].
    notin.
Qed.

End quiet.

(** * Line and documentation comments *)

Section line_comments.

Implicit Types (s p l a b pre after : text) (c d : N) (re : regex)
  (prev : option N).

Lemma erase_eraseFrom re s : erase re s = eraseFrom re None s.
Proof. done. Qed.

Lemma eraseFrom_nil re prev : eraseFrom re prev [] = [].
Proof. done. Qed.

Lemma eraseFrom_miss re prev c s :
  re prev (c :: s) = None →
  eraseFrom re prev (c :: s) = c :: eraseFrom re (Some c) s.
Proof. intros H. unfold eraseFrom. cbn [pieces]. by rewrite H. Qed.

Lemma eraseFrom_hit re prev s k :
  re prev s = Some (S k) →
  ∃ prev', eraseFrom re prev s = eraseFrom re prev' (drop (S k) s).
Proof.
  intros H. destruct s as [|c s].
  - exists prev. by rewrite drop_nil.
  - destruct (pieces_skip re (Some c) k s) as [prev' E]. exists prev'.
    unfold eraseFrom. cbn [pieces]. rewrite H. cbn [map fill concat app drop].
    by rewrite E.
Qed.

Lemma eraseFrom_first re prev prev' s :
  re prev s = re prev' s → eraseFrom re prev s = eraseFrom re prev' s.
Proof.
  intros H. unfold eraseFrom. destruct s as [|c s]; [done|].
  cbn [pieces]. by rewrite H.
Qed.

Lemma eraseFrom_blind re prev prev' s :
  blind re → eraseFrom re prev s = eraseFrom re prev' s.
Proof. intros H. apply eraseFrom_first, H. Qed.

Lemma eraseFrom_app_plain re a b :
  (∀ prev x c y, a = x ++ c :: y → re prev (c :: y ++ b) = None) →
  ∀ prev, eraseFrom re prev (a ++ b)
          = a ++ eraseFrom re (from_option Some prev (last a)) b.
Proof.
  intros H prev. unfold eraseFrom. rewrite pieces_app_plain by done.
  by rewrite map_app, concat_app, fill_plain.
Qed.

Lemma drop_takeWhile (f : N → bool) s :
  drop (length (takeWhile f s)) s = dropWhile f s.
Proof. induction s as [|c s IH]; [done|]. simpl. by destruct (f c). Qed.

Lemma dropWhile_notNl_head s : head (dropWhile notNl s) ≠ Some Ch.slash.
Proof.
  destruct (dropWhile notNl s) as [|c r] eqn:E; [done|].
  apply dropWhile_head in E. intros [= ->]. done.
Qed.

(** ** The two expressions at a character *)

Lemma re_doc_miss prev s : head s ≠ Some Ch.slash → re_doc prev s = None.
Proof.
  intros H. unfold re_doc. destruct s as [|c s]; [done|].
  change (str "///") with (Ch.slash :: str "//").
  erewrite startsWith_head; [done|done|]. intros ->. by apply H.
Qed.

Lemma re_line_miss prev s : head s ≠ Some Ch.slash → re_line prev s = None.
Proof.
  intros H. unfold re_line. destruct (decide _); [done|].
  destruct s as [|c s]; [done|].
  change (str "//") with (Ch.slash :: str "/").
  erewrite startsWith_head; [done|done|]. intros ->. by apply H.
Qed.

Lemma re_doc_hit prev after :
  re_doc prev (str "///" ++ after)
  = Some (S (2 + length (takeWhile notNl after))).
Proof. done. Qed.

Lemma re_line_hit prev after :
  prev ≠ Some Ch.colon →
  re_line prev (str "//" ++ after)
  = Some (S (1 + length (takeWhile notNl after))).
Proof. intros H. unfold re_line. destruct (decide _) as [E|E]; [by destruct H|reflexivity]. Qed.

Lemma re_doc_two prev after :
  head after ≠ Some Ch.slash → re_doc prev (str "//" ++ after) = None.
Proof.
  intros H. unfold re_doc.
  destruct (startsWith _ _) eqn:E; [|done].
  apply startsWith_spec in E as [b E]. destruct after as [|c after]; [done|].
  injection E as -> _. by destruct H.
Qed.

Lemma re_line_one prev after :
  head after ≠ Some Ch.slash → re_line prev (Ch.slash :: after) = None.
Proof.
  intros H. unfold re_line. destruct (decide _); [done|].
  destruct (startsWith _ _) eqn:E; [|done].
  apply startsWith_spec in E as [b E]. destruct after as [|c after]; [done|].
  injection E as -> _. by destruct H.
Qed.

(** ** The passes behind code without a slash *)

Lemma plain_front (re : regex) pre b :
  (∀ prev s, head s ≠ Some Ch.slash → re prev s = None) →
  Ch.slash ∉ pre →
  ∀ prev x c y, pre = x ++ c :: y → re prev (c :: y ++ b) = None.
Proof.
  intros Hre Hpre prev x c y ->. apply Hre. intros [= ->].
  apply Hpre. apply elem_of_app. right. apply list_elem_of_here.
Qed.

Lemma doc_front pre b prev :
  Ch.slash ∉ pre →
  eraseFrom re_doc prev (pre ++ b) = pre ++ removeDocComments b.
Proof.
  intros H. rewrite eraseFrom_app_plain.
  - f_equal. apply eraseFrom_blind, re_doc_blind.
  - apply plain_front; [apply re_doc_miss|done].
Qed.

Lemma line_front pre b prev :
  Ch.slash ∉ pre →
  eraseFrom re_line prev (pre ++ b)
  = pre ++ eraseFrom re_line (from_option Some prev (last pre)) b.
Proof.
  intros H. rewrite eraseFrom_app_plain; [done|].
  apply plain_front; [apply re_line_miss|done].
Qed.

Lemma line_any prev s :
  head s ≠ Some Ch.slash → eraseFrom re_line prev s = removeLineComments s.
Proof.
  intros H. apply eraseFrom_first. by rewrite !re_line_miss.
Qed.

Lemma removeDocComments_head s :
  head s ≠ Some Ch.slash → head (removeDocComments s) ≠ Some Ch.slash.
Proof.
  intros H. destruct s as [|c s]; [done|].
  unfold removeDocComments. rewrite erase_eraseFrom, eraseFrom_miss; [done|].
  by apply re_doc_miss.
Qed.

(** A documentation comment ends where its line ends. *)
Lemma removeDocComments_hit after :
  removeDocComments (str "///" ++ after)
  = removeDocComments (dropWhile notNl after).
Proof.
  unfold removeDocComments. rewrite !erase_eraseFrom.
  destruct (eraseFrom_hit re_doc None _ _ (re_doc_hit None after)) as [p ->].
  replace (drop _ (str "///" ++ after))
    with (drop (length (takeWhile notNl after)) after) by reflexivity.
  rewrite drop_takeWhile. apply eraseFrom_blind, re_doc_blind.
Qed.

(** The pass over documentation comments works line by line. *)
Lemma removeDocComments_rest s :
  dropWhile notNl (removeDocComments s)
  = removeDocComments (dropWhile notNl s).
Proof.
  assert (∀ t, head t ≠ Some Ch.slash →
               (∀ c r, t = c :: r → notNl c = false) →
               dropWhile notNl (removeDocComments t) = removeDocComments t)
    as Hstop.
  { intros t Ht Hn. destruct t as [|c r]; [done|].
    unfold removeDocComments. rewrite erase_eraseFrom, eraseFrom_miss
      by (by apply re_doc_miss).
    cbn [dropWhile]. by rewrite (Hn c r). }
  induction s as [|c s IH]; [done|].
  destruct (re_doc None (c :: s)) as [k|] eqn:E.
  - unfold re_doc in E. destruct (startsWith (c :: s) (str "///")) eqn:Es; [|done].
    apply startsWith_spec in Es as [after Es]. rewrite Es.
    rewrite removeDocComments_hit.
    change (dropWhile notNl (str "///" ++ after)) with (dropWhile notNl after).
    apply Hstop; [apply dropWhile_notNl_head|].
    intros c' r Hr. by apply dropWhile_head in Hr.
  - unfold removeDocComments at 1. rewrite erase_eraseFrom, eraseFrom_miss by done.
    rewrite (eraseFrom_blind _ _ None) by apply re_doc_blind.
    cbn [dropWhile]. destruct (notNl c) eqn:En.
    + apply IH.
    + unfold removeDocComments. rewrite erase_eraseFrom, eraseFrom_miss by done.
      f_equal. apply eraseFrom_blind, re_doc_blind.
Qed.

Lemma lineStrip_front pre b :
  Ch.slash ∉ pre → head b ≠ Some Ch.slash →
  lineStrip (pre ++ b) = pre ++ lineStrip b.
Proof.
  intros Hp Hb. unfold lineStrip, removeDocComments at 1.
  rewrite erase_eraseFrom, doc_front by done.
  unfold removeLineComments at 1. rewrite erase_eraseFrom, line_front by done.
  f_equal. apply line_any. by apply removeDocComments_head.
Qed.

Lemma re_doc_one prev after :
  head after ≠ Some Ch.slash → re_doc prev (Ch.slash :: after) = None.
Proof.
  intros H. unfold re_doc.
  destruct (startsWith _ _) eqn:E; [|done].
  apply startsWith_spec in E as [b E]. destruct after as [|c after]; [done|].
  injection E as -> _. by destruct H.
Qed.

(** Unless a third slash follows, the pass over documentation comments
    leaves two slashes alone. *)
Lemma removeDocComments_two after :
  head after ≠ Some Ch.slash →
  removeDocComments (str "//" ++ after) = str "//" ++ removeDocComments after.
Proof.
  intros H. unfold removeDocComments. rewrite !erase_eraseFrom.
  change (str "//" ++ after) with (Ch.slash :: Ch.slash :: after).
  rewrite eraseFrom_miss by (by apply (re_doc_two None)).
  rewrite eraseFrom_miss by (by apply re_doc_one).
  change (str "//" ++ ?x) with (Ch.slash :: Ch.slash :: x).
  do 2 f_equal. apply eraseFrom_blind, re_doc_blind.
Qed.

Lemma last_prev pre : from_option Some None (last pre) = last pre.
Proof. by destruct (last pre). Qed.

End line_comments.

(** * String literals *)

Section literals.

Implicit Types (s p l a b pre post body : text) (c d q : N)
  (preserved : gmap text text).

(** ** A quote that is never closed *)

Lemma quotedBody_miss q s : q ∉ s → quotedBody q s = None.
Proof.
  assert (∀ n s, length s ≤ n → q ∉ s → quotedBody q s = None) as H.
  { clear s. induction n as [|n IH]; intros s Hn Hq.
    - destruct s; [done|]. simpl in Hn. lia.
    - destruct s as [|c s]; [done|]. apply not_elem_of_cons in Hq as [Hc Hq].
      cbn [quotedBody].
      assert ((c =? q)%N = false) as -> by (apply N.eqb_neq; congruence).
      destruct (c =? Ch.backslash)%N.
      + destruct s as [|d s]; [done|]. destruct (isLineTerminator d); [done|].
        apply not_elem_of_cons in Hq as [_ Hq]. rewrite IH; [done| |done].
        simpl in Hn. lia.
      + rewrite IH; [done| |done]. simpl in Hn. lia. }
  intros Hq. by apply (H (length s)).
Qed.

Lemma tripleQuoted_second q c s :
  head s ≠ Some q → tripleQuoted q (c :: s) = None.
Proof.
  intros H. unfold tripleQuoted. cbn [startsWith].
  destruct s as [|d s]; [by rewrite andb_false_r|].
  assert ((q =? d)%N = false) as ->; [|by rewrite andb_false_r].
  apply N.eqb_neq. intros ->. by apply H.
Qed.

Lemma literalAt_lone q post :
  isQuote q → noQuote post → literalAt (q :: post) = None.
Proof.
  intros Hq Hp. destruct (noQuote_head _ Hp) as [H1 H2]. unfold literalAt.
  rewrite !tripleQuoted_second by done. cbn [orElse singleQuoted].
  destruct Hp as [Hs Hd].
  destruct (q =? Ch.squote)%N, (q =? Ch.dquote)%N;
    by rewrite ?quotedBody_miss.
Qed.

Lemma isQuote_not_r q : isQuote q → (q =? Ch.r)%N = false.
Proof. by intros [-> | ->]. Qed.

Lemma pieces_lone_quote prev pre q post :
  isQuote q → noQuote pre → noQuote post →
  pieces re_string prev 0 (pre ++ q :: post) = map Plain (pre ++ q :: post).
Proof.
  intros Hq Hpre Hpost. revert prev.
  induction pre as [|c pre IH]; intros prev.
  - cbn [app pieces re_string]. rewrite isQuote_not_r, literalAt_lone by done.
    cbn [map]. f_equal. by apply pieces_string_noQuote.
  - apply noQuote_cons in Hpre as [[Hc1 Hc2] Hpre].
    cbn [app pieces].
    assert (re_string prev (c :: pre ++ q :: post) = None) as ->;
      [|cbn [map]; f_equal; by apply IH].
    cbn [re_string]. destruct (c =? Ch.r)%N.
    + destruct pre as [|c' pre].
      * cbn [app]. by rewrite literalAt_lone.
      * apply noQuote_cons in Hpre as [[? ?] _].
        rewrite literalAt_head; [done| |]; intros [= ->]; done.
    + rewrite literalAt_head; [done| |]; intros [= ->]; done.
Qed.

End literals.

(** ** Holes of raw strings *)

Section raw_holes.

Implicit Types (s p l a b expr body t : text) (c d q : N)
  (preserved : gmap text text).

Lemma quotedBody_plain q body t :
  q ∉ body → Ch.backslash ∉ body →
  quotedBody q (body ++ q :: t) = Some (S (length body)).
Proof.
  induction body as [|c body IH]; intros Hq Hb.
  - simpl. by rewrite N.eqb_refl.
  - apply not_elem_of_cons in Hq as [Hq1 Hq]. apply not_elem_of_cons in Hb as [Hb1 Hb].
    cbn [app quotedBody].
    assert ((c =? q)%N = false) as -> by (apply N.eqb_neq; congruence).
    assert ((c =? Ch.backslash)%N = false) as -> by (apply N.eqb_neq; congruence).
    by rewrite IH.
Qed.

Lemma rawLiteral_shape expr :
  rawLiteral expr
  = Ch.r :: Ch.squote :: (str "${" ++ expr ++ str "}") ++ [Ch.squote].
Proof.
  unfold rawLiteral. rewrite <- !app_assoc. done.
Qed.

Lemma re_string_rawLiteral prev expr :
  Ch.squote ∉ expr → Ch.backslash ∉ expr →
  re_string prev (rawLiteral expr) = Some (length (rawLiteral expr)).
Proof.
  intros Hq Hb. rewrite rawLiteral_shape.
  cbn [re_string]. rewrite N.eqb_refl. unfold literalAt.
  rewrite tripleQuoted_head by done.
  rewrite tripleQuoted_second by done.
  cbn [orElse singleQuoted]. rewrite N.eqb_refl.
  rewrite quotedBody_plain.
  - cbn [fmap option_fmap option_map orElse]. f_equal.
    cbn [length]. rewrite !length_app. simpl. lia.
  - rewrite !not_elem_of_app. repeat split; [notin|done|notin].
  - rewrite !not_elem_of_app. repeat split; [notin|done|notin].
Qed.

Lemma pieces_whole (re : regex) prev s :
  s ≠ [] → re prev s = Some (length s) → pieces re prev 0 s = [Hit s].
Proof.
  intros Hs H. destruct s as [|c s]; [done|]. cbn [pieces]. rewrite H.
  cbn [length]. rewrite pieces_skip_all by done. f_equal. f_equal.
  apply (take_ge (c :: s)). simpl. lia.
Qed.

Lemma holeExpr_hole expr : holeExpr (str "${" ++ expr ++ str "}") = expr.
Proof.
  unfold holeExpr, slice. rewrite !length_app.
  change (drop 2 (str "${" ++ expr ++ str "}")) with (expr ++ str "}").
  replace (length (str "${") + (length expr + length (str "}")) - 1 - 2)
    with (length expr) by (simpl; lia).
  by rewrite take_app_length.
Qed.

Lemma rawHole_comment expr :
  includes expr (str "//") = true ∨ includes expr (str "/*") = true →
  rawHole (str "${" ++ expr ++ str "}") = str "${" ++ expr ++ str "}".
Proof.
  intros H. unfold rawHole. rewrite holeExpr_hole.
  destruct H as [-> | ->]; by rewrite ?orb_true_r.
Qed.

Lemma re_hole_hole prev expr t :
  expr ≠ [] → Ch.rbrace ∉ expr →
  re_hole prev (str "${" ++ expr ++ str "}" ++ t)
  = Some (S (length expr + 2)).
Proof.
  intros He Hr. unfold re_hole.
  change (startsWith (str "${" ++ expr ++ str "}" ++ t) (str "${")) with true.
  change (drop 2 (str "${" ++ expr ++ str "}" ++ t))
    with (expr ++ Ch.rbrace :: t).
  cbv zeta. rewrite takeWhile_until.
  - destruct expr as [|c e]; [done|].
    change (drop (2 + length (c :: e)) (str "${" ++ (c :: e) ++ str "}" ++ t))
      with (drop (length (c :: e)) ((c :: e) ++ Ch.rbrace :: t)).
    rewrite drop_app_length.
    change (startsWith (Ch.rbrace :: t) (str "}")) with true. cbv iota.
    f_equal. lia.
  - apply Forall_forall. intros c Hc. unfold notRbrace.
    apply negb_true_iff, N.eqb_neq. intros ->. done.
  - done.
Qed.

Lemma re_hole_miss prev c s : c ≠ Ch.dollar → re_hole prev (c :: s) = None.
Proof.
  intros H. unfold re_hole. change (str "${") with (Ch.dollar :: [Ch.lbrace]).
  erewrite startsWith_head; [done|done|congruence].
Qed.

Lemma pieces_hit (re : regex) prev c s k :
  re prev (c :: s) = Some (S k) →
  pieces re prev 0 (c :: s) = Hit (take (S k) (c :: s)) :: pieces re (Some c) k s.
Proof. intros H. cbn [pieces]. by rewrite H. Qed.

Lemma pieces_miss (re : regex) prev c s :
  re prev (c :: s) = None →
  pieces re prev 0 (c :: s) = Plain c :: pieces re (Some c) 0 s.
Proof. intros H. cbn [pieces]. by rewrite H. Qed.

Lemma interpolated_rawLiteral expr :
  expr ≠ [] → Ch.rbrace ∉ expr →
  includes expr (str "//") = true ∨ includes expr (str "/*") = true →
  interpolated (rawLiteral expr) = rawLiteral expr.
Proof.
  intros He Hr Hc. unfold interpolated.
  change (startsWith (rawLiteral expr) [Ch.r]) with true. cbv iota.
  unfold replace.
  change (rawLiteral expr)
    with (Ch.r :: Ch.squote :: Ch.dollar :: Ch.lbrace
            :: (expr ++ Ch.rbrace :: [Ch.squote])).
  rewrite pieces_miss by (by apply re_hole_miss).
  rewrite pieces_miss by (by apply re_hole_miss).
  pose proof (re_hole_hole (Some Ch.squote) expr [Ch.squote] He Hr) as Hh.
  change (str "${" ++ expr ++ str "}" ++ [Ch.squote])
    with (Ch.dollar :: Ch.lbrace :: (expr ++ Ch.rbrace :: [Ch.squote])) in Hh.
  rewrite (pieces_hit _ _ _ _ _ Hh).
  destruct (pieces_skip re_hole (Some Ch.dollar) (length expr + 2)
              (Ch.lbrace :: (expr ++ Ch.rbrace :: [Ch.squote]))) as [p ->].
  replace (drop (length expr + 2)
             (Ch.lbrace :: (expr ++ Ch.rbrace :: [Ch.squote])))
    with [Ch.squote].
  2:{ replace (length expr + 2) with (S (length expr + 1)) by lia.
      cbn [drop]. rewrite drop_app_add'; done. }
  rewrite pieces_miss by (by apply re_hole_miss).
  replace (take (S (length expr + 2))
             (Ch.dollar :: Ch.lbrace :: (expr ++ Ch.rbrace :: [Ch.squote])))
    with (str "${" ++ expr ++ str "}").
  2:{ replace (S (length expr + 2)) with (S (S (length expr + 1))) by lia.
      cbn [take]. change (str "${" ++ expr ++ str "}")
        with (Ch.dollar :: Ch.lbrace :: (expr ++ [Ch.rbrace])).
      do 2 f_equal.
      change (expr ++ Ch.rbrace :: [Ch.squote])
        with (expr ++ [Ch.rbrace] ++ [Ch.squote]).
      rewrite app_assoc, take_app_length'; [done|].
      rewrite length_app. simpl. lia. }
  cbn [map fill concat pieces]. rewrite rawHole_comment by done.
  rewrite <- !app_assoc. done.
Qed.

(** The string pass on a raw literal whose hole holds a comment. *)
Lemma protectStrings_rawLiteral preserved expr :
  expr ≠ [] → Ch.rbrace ∉ expr → Ch.squote ∉ expr → Ch.backslash ∉ expr →
  includes expr (str "//") = true ∨ includes expr (str "/*") = true →
  protectStrings preserved (rawLiteral expr)
  = ({| stringIndex := 0; preservedStrings := preserved |}, rawLiteral expr).
Proof.
  intros He Hr Hq Hb Hc. unfold protectStrings.
  rewrite pieces_whole.
  - cbn [protect]. unfold onString.
    assert (includes (rawLiteral expr) (str "${") = true) as ->.
    { apply includes_spec. exists (str "r'"), (expr ++ str "}'"). done. }
    rewrite interpolated_rawLiteral by done. by rewrite app_nil_r.
  - by rewrite rawLiteral_shape.
  - by apply re_string_rawLiteral.
Qed.

End raw_holes.

(** ** A literal in code *)

Section literal_in_code.

Implicit Types (s p l a b pre lit post body t : text) (c d q : N)
  (preserved : gmap text text).

(** *** A match of the string expression ends with a quote *)

Lemma indexOf0_Some s p k :
  indexOf0 s p = Some k → ∃ a b, s = a ++ p ++ b ∧ length a = k.
Proof.
  revert k. induction s as [|c s IH]; intros k; cbn [indexOf0].
  - destruct (startsWith [] p) eqn:E; [|done]. intros [= <-].
    apply startsWith_spec in E as [b E]. by exists [], b.
  - destruct (startsWith (c :: s) p) eqn:E.
    + intros [= <-]. apply startsWith_spec in E as [b E]. by exists [], b.
    + destruct (indexOf0 s p) as [k'|] eqn:Ei; [|done]. intros [= <-].
      destruct (IH k' eq_refl) as (a & b & -> & <-). by exists (c :: a), b.
Qed.

Lemma tripleQuoted_last q s n :
  tripleQuoted q s = Some n → ∃ body, take n s = body ++ [q].
Proof.
  unfold tripleQuoted. destruct (startsWith s [q; q; q]) eqn:E; [|done].
  apply startsWith_spec in E as [t ->].
  change (drop 3 ([q; q; q] ++ t)) with t.
  destruct (indexOf0 t [q; q; q]) as [k|] eqn:Ei; [|done]. intros [= <-].
  apply indexOf0_Some in Ei as (a & b & -> & <-).
  exists ([q; q; q] ++ a ++ [q; q]).
  assert ([q; q; q] ++ a ++ [q; q; q] ++ b
          = ([q; q; q] ++ a ++ [q; q; q]) ++ b) as -> by (by rewrite <- !app_assoc).
  rewrite take_app_length'.
  - by rewrite <- !app_assoc.
  - rewrite !length_app. simpl. lia.
Qed.

Lemma quotedBody_last q s n :
  quotedBody q s = Some n → ∃ body, take n s = body ++ [q].
Proof.
  assert (∀ m s n, length s ≤ m → quotedBody q s = Some n →
                   ∃ body, take n s = body ++ [q]) as H.
  { clear s n. induction m as [|m IH]; intros s n Hm.
    - destruct s; [done|]. simpl in Hm. lia.
    - destruct s as [|c s]; [done|]. cbn [quotedBody].
      destruct (c =? q)%N eqn:Ec.
      + intros [= <-]. apply N.eqb_eq in Ec as ->. by exists [].
      + destruct (c =? Ch.backslash)%N.
        * destruct s as [|d s]; [done|]. destruct (isLineTerminator d); [done|].
          destruct (quotedBody q s) as [k|] eqn:Ek; [|done]. intros [= <-].
          destruct (IH s k) as [body Hb]; [simpl in Hm; lia|done|].
          exists (c :: d :: body). cbn [take Nat.add]. by rewrite Hb.
        * destruct (quotedBody q s) as [k|] eqn:Ek; [|done]. intros [= <-].
          destruct (IH s k) as [body Hb]; [simpl in Hm; lia|done|].
          exists (c :: body). cbn [take]. by rewrite Hb. }
  by apply (H (length s)).
Qed.

Lemma singleQuoted_last q s n :
  singleQuoted q s = Some n → ∃ body, take n s = body ++ [q].
Proof.
  destruct s as [|c s]; [done|]. cbn [singleQuoted].
  destruct (c =? q)%N; [|done].
  destruct (quotedBody q s) as [k|] eqn:Ek; [|done]. intros [= <-].
  destruct (quotedBody_last _ _ _ Ek) as [body Hb].
  exists (c :: body). cbn [take]. by rewrite Hb.
Qed.

Lemma literalAt_last s n :
  literalAt s = Some n → ∃ body q, take n s = body ++ [q] ∧ isQuote q.
Proof.
  unfold literalAt.
  destruct (tripleQuoted Ch.dquote s) as [k|] eqn:E1.
  { intros [= <-]. destruct (tripleQuoted_last _ _ _ E1) as [body ?].
    exists body, Ch.dquote. split; [done|by right]. }
  destruct (tripleQuoted Ch.squote s) as [k|] eqn:E2.
  { intros [= <-]. destruct (tripleQuoted_last _ _ _ E2) as [body ?].
    exists body, Ch.squote. split; [done|by left]. }
  destruct (singleQuoted Ch.squote s) as [k|] eqn:E3.
  { intros [= <-]. destruct (singleQuoted_last _ _ _ E3) as [body ?].
    exists body, Ch.squote. split; [done|by left]. }
  cbn [orElse]. intros E4.
  destruct (singleQuoted_last _ _ _ E4) as [body ?].
  exists body, Ch.dquote. split; [done|by right].
Qed.

Lemma re_string_last prev s n :
  re_string prev s = Some n → ∃ body q, take n s = body ++ [q] ∧ isQuote q.
Proof.
  destruct s as [|c s]; [done|]. cbn [re_string].
  destruct (c =? Ch.r)%N; [|apply literalAt_last].
  destruct (literalAt s) as [k|] eqn:E; [|done]. intros [= <-].
  destruct (literalAt_last _ _ E) as (body & q & Hb & Hq).
  exists (c :: body), q. cbn [take]. by rewrite Hb.
Qed.

(** *** The formatter keeps a literal that lies on one line *)

Lemma trimEnd_keep a q b :
  isSpace q = false → trimEnd ((a ++ [q]) ++ b) = (a ++ [q]) ++ trimEnd b.
Proof.
  intros Hq. destruct (trimEnd b) as [|x y] eqn:E.
  - rewrite trimEnd_app_space by (by apply trimEnd_nil_all).
    by rewrite trimEnd_snoc, app_nil_r.
  - rewrite trimEnd_app by (by rewrite E). by rewrite E.
Qed.

Lemma format_keeps content body q :
  Ch.nl ∉ body ++ [q] → isSpace q = false →
  includes content (body ++ [q]) = true →
  includes (format content) (body ++ [q]) = true.
Proof.
  intros Hn Hq H. rewrite <- (join_split content) in H.
  destruct (includes_join _ _ Hn H) as [E|(l & Hl & Hi)].
  { by destruct body. }
  assert (trim l ≠ []) as Hb.
  { intros Hb. apply trim_nil_all in Hb. rewrite Forall_forall in Hb.
    apply includes_spec in Hi as (x & y & ->).
    rewrite (Hb q) in Hq; [done|]. rewrite !elem_of_app.
    right. left. right. apply list_elem_of_here. }
  rewrite format_emit.
  apply (join_includes _ (tidyLine l)); [by apply emit_content|].
  destruct (tidyLine_cases l Hb) as [-> | ->]; [done|].
  apply includes_spec in Hi as (x & y & ->). apply includes_spec.
  exists x, (trimEnd y).
  replace (x ++ (body ++ [q]) ++ y) with (((x ++ body) ++ [q]) ++ y)
    by (by rewrite <- !app_assoc).
  rewrite trimEnd_keep by done. by rewrite <- !app_assoc.
Qed.

End literal_in_code.

Section placeholder_roundtrip.

Implicit Types (s p l a b pre lit post body t : text) (c d q : N)
  (preserved : gmap text text).

(** *** The string pass *)

Lemma literal_front pre lit post prev x c y :
  noQuote pre → last pre ≠ Some Ch.r ∨ head lit = Some Ch.r →
  pre = x ++ c :: y →
  re_string prev (c :: y ++ lit ++ post) = None.
Proof.
  intros Hq Hr ->. apply noQuote_app in Hq as [_ Hq].
  apply noQuote_cons in Hq as [[Hc1 Hc2] Hy].
  cbn [re_string]. destruct (c =? Ch.r)%N eqn:Ec.
  - destruct y as [|c' y].
    + apply N.eqb_eq in Ec as ->. destruct Hr as [Hr|Hr].
      * by rewrite last_snoc in Hr.
      * destruct lit as [|c lit]; [done|]. injection Hr as ->.
        cbn [app]. by rewrite literalAt_head.
    + apply noQuote_cons in Hy as [[? ?] _].
      rewrite literalAt_head; [done| |]; intros [= ->]; done.
  - rewrite literalAt_head; [done| |]; intros [= ->]; done.
Qed.

Lemma pieces_literal pre lit post :
  noQuote pre → noQuote post →
  last pre ≠ Some Ch.r ∨ head lit = Some Ch.r →
  re_string None (lit ++ post) = Some (length lit) →
  pieces re_string None 0 (pre ++ lit ++ post)
  = map Plain pre ++ Hit lit :: map Plain post.
Proof.
  intros Hpre Hpost Hr Hm.
  rewrite pieces_app_plain
    by (intros prev x c y E; by apply (literal_front pre lit post prev x c y)).
  f_equal. destruct lit as [|c lit].
  { cbn [app length] in Hm. by rewrite re_string_noQuote in Hm. }
  cbn [app]. cbn [app length] in Hm.
  rewrite (pieces_hit re_string _ c (lit ++ post) (length lit)) by done.
  f_equal.
  - f_equal. apply (take_app_length (c :: lit)).
  - destruct (pieces_skip re_string (Some c) (length lit) (lit ++ post))
      as [p ->].
    rewrite drop_app_length. by apply pieces_string_noQuote.
Qed.

Lemma protectStrings_literal preserved pre lit post :
  noQuote pre → noQuote post →
  last pre ≠ Some Ch.r ∨ head lit = Some Ch.r →
  re_string None (lit ++ post) = Some (length lit) →
  includes lit (str "${") = false →
  protectStrings preserved (pre ++ lit ++ post)
  = ({| stringIndex := 1;
        preservedStrings := <[decimal 0 := lit]> preserved |},
     pre ++ placeholder 0 ++ post).
Proof.
  intros Hpre Hpost Hr Hm Hi. unfold protectStrings.
  rewrite pieces_literal by done.
  rewrite protect_app, protect_plain. cbn [protect]. unfold onString.
  rewrite Hi. cbn [stringIndex preservedStrings].
  by rewrite protect_plain.
Qed.

(** *** The comment passes *)

(** Text whose characters are foreign to a pattern separates its two sides. *)
Lemma includes_mid a m b p :
  m ≠ [] → p ≠ [] → Forall (λ c, c ∉ p) m →
  includes (a ++ m ++ b) p = includes a p || includes b p.
Proof.
  intros Hm Hp Hf. destruct m as [|c m]; [done|].
  inversion Hf as [|? ? Hc Hf']; subst.
  cbn [app]. rewrite includes_sep by done. f_equal.
  clear Hm Hf Hc. induction Hf' as [|d m Hd _ IH]; [done|].
  pose proof (includes_sep [] d (m ++ b) p Hd) as E. cbn [app] in E |- *.
  rewrite E, IH. by destruct p.
Qed.

Lemma stripComments_placeholder pre post :
  includes pre (str "//") = false → includes pre (str "/*") = false →
  includes post (str "//") = false → includes post (str "/*") = false →
  stripComments (pre ++ placeholder 0 ++ post) = pre ++ placeholder 0 ++ post.
Proof.
  intros H1 H2 H3 H4. apply stripComments_quiet.
  - rewrite includes_mid, H1, H3; [done|done|done|].
    vm_compute. repeat constructor; notin.
  - rewrite includes_mid, H2, H4; [done|done|done|].
    vm_compute. repeat constructor; notin.
Qed.

(** *** The restoration *)

Lemma startsWith_app_cases a b p :
  startsWith (a ++ b) p = true →
  startsWith a p = true
  ∨ (length a < length p ∧ startsWith b (drop (length a) p) = true).
Proof.
  revert a. induction p as [|x p IH]; intros a; [by left|].
  destruct a as [|y a].
  - intros H. right. split; [simpl; lia|done].
  - cbn [app startsWith]. intros [Hx H]%andb_true_iff.
    destruct (IH a H) as [E|[Hl E]].
    + left. by rewrite Hx, E.
    + right. split; [simpl; lia|done].
Qed.

(** The placeholder text overlaps itself nowhere. *)
Lemma sentinel_overlap k t :
  0 < k → k < length sentinel →
  startsWith (placeholder 0 ++ t) (drop k sentinel) = false.
Proof.
  intros H0 Hk.
  do 17 (destruct k as [|k]; [first [lia|reflexivity]|]).
  simpl in Hk. lia.
Qed.

Lemma placeholder_front pre post prev x c y :
  includes pre sentinel = false → pre = x ++ c :: y →
  re_placeholder prev (c :: y ++ placeholder 0 ++ post) = None.
Proof.
  intros Hi ->. apply includes_false_app in Hi as [_ Hi].
  apply includes_cons_false in Hi as [Hs _]. unfold re_placeholder.
  destruct (startsWith (c :: y ++ placeholder 0 ++ post) sentinel) eqn:E;
    [|done].
  apply (startsWith_app_cases (c :: y)) in E as [E|[Hl E]]; [congruence|].
  rewrite sentinel_overlap in E; [done| |done]. simpl. lia.
Qed.

Lemma pieces_placeholder_quiet prev post :
  includes post sentinel = false →
  pieces re_placeholder prev 0 post = map Plain post.
Proof.
  intros H. apply pieces_plain. intros prev' a c b ->.
  apply includes_false_app in H as [_ H].
  apply includes_cons_false in H as [H _]. unfold re_placeholder.
  by rewrite H.
Qed.

Lemma re_placeholder_hit prev post :
  (∀ d, head post = Some d → isDigit d = false) →
  re_placeholder prev (placeholder 0 ++ post) = Some 18.
Proof.
  intros Hd. unfold re_placeholder.
  change (startsWith (placeholder 0 ++ post) sentinel) with true.
  change (drop 17 (placeholder 0 ++ post)) with (48%N :: post).
  cbn [takeWhile isDigit]. change (isDigit 48) with true. cbv iota.
  destruct post as [|d post]; [done|].
  cbn [takeWhile]. by rewrite (Hd d).
Qed.

Lemma restoreStrings_placeholder preserved pre lit post :
  includes pre sentinel = false → includes post sentinel = false →
  (∀ d, head post = Some d → isDigit d = false) →
  restoreStrings (<[decimal 0 := lit]> preserved)
    (pre ++ placeholder 0 ++ post)
  = pre ++ lit ++ post.
Proof.
  intros Hpre Hpost Hd. unfold restoreStrings, replace.
  rewrite pieces_app_plain
    by (intros prev x c y E; by apply (placeholder_front pre post prev x c y)).
  rewrite map_app, concat_app, fill_plain. f_equal.
  pose proof (re_placeholder_hit (from_option Some None (last pre)) post Hd)
    as Hh.
  change (placeholder 0 ++ post)
    with (80%N :: (drop 1 (placeholder 0) ++ post)) in *.
  rewrite (pieces_hit _ _ _ _ _ Hh).
  destruct (pieces_skip re_placeholder (Some 80%N) 17
              (drop 1 (placeholder 0) ++ post)) as [p ->].
  change (drop 17 (drop 1 (placeholder 0) ++ post)) with post.
  rewrite pieces_placeholder_quiet by done.
  cbn [map concat fill].
  change (take 18 (80%N :: drop 1 (placeholder 0) ++ post))
    with (placeholder 0).
  change (drop 17 (placeholder 0)) with (decimal 0).
  rewrite lookup_insert_eq. by rewrite fill_plain.
Qed.

(** The restoration at a placeholder whatever the table holds for it: the
    callback returns the entry, and [undefined] where there is none. *)
Lemma restoreStrings_at preserved pre post :
  includes pre sentinel = false → includes post sentinel = false →
  (∀ d, head post = Some d → isDigit d = false) →
  restoreStrings preserved (pre ++ placeholder 0 ++ post)
  = pre ++ match preserved !! decimal 0 with
           | Some s => s
           | None => str "undefined"
           end ++ post.
Proof.
  intros Hpre Hpost Hd. unfold restoreStrings, replace.
  rewrite pieces_app_plain
    by (intros prev x c y E; by apply (placeholder_front pre post prev x c y)).
  rewrite map_app, concat_app, fill_plain. f_equal.
  pose proof (re_placeholder_hit (from_option Some None (last pre)) post Hd)
    as Hh.
  change (placeholder 0 ++ post)
    with (80%N :: (drop 1 (placeholder 0) ++ post)) in *.
  rewrite (pieces_hit _ _ _ _ _ Hh).
  destruct (pieces_skip re_placeholder (Some 80%N) 17
              (drop 1 (placeholder 0) ++ post)) as [p ->].
  change (drop 17 (drop 1 (placeholder 0) ++ post)) with post.
  rewrite pieces_placeholder_quiet by done.
  cbn [map concat fill].
  change (take 18 (80%N :: drop 1 (placeholder 0) ++ post))
    with (placeholder 0).
  change (drop 17 (placeholder 0)) with (decimal 0).
  by rewrite fill_plain.
Qed.

End placeholder_roundtrip.

(** * The loops over block comments end *)

Section block_loops.

Implicit Types (s p l a b : text) (c d : N) (st : scanner).

Lemma indexOf_Some s p from i :
  p ≠ [] → indexOf s p from = Some i →
  from ≤ i ∧ i + length p ≤ length s ∧ startsWith (drop i s) p = true.
Proof.
  intros Hp. unfold indexOf.
  destruct (indexOf0 (drop from s) p) as [k|] eqn:E; [|done]. intros [= <-].
  apply indexOf0_Some in E as (a & b & E & <-).
  assert (length (drop from s) = length a + length p + length b) as Hl
    by (by rewrite E, !length_app; lia).
  rewrite length_drop in Hl. split; [lia|]. split.
  - destruct p; [done|]. simpl in *. lia.
  - rewrite <- drop_drop, E, drop_app_length. apply startsWith_self.
Qed.

Lemma trimEnd_length s : length (trimEnd s) ≤ length s.
Proof.
  destruct (trimEnd_split s) as (w & _ & E). rewrite E at 2.
  rewrite length_app. lia.
Qed.

Lemma slice_length s n : length (slice s 0 n) ≤ n ∧ length (slice s 0 n) ≤ length s.
Proof. unfold slice. rewrite drop_0, length_take. lia. Qed.

Lemma join_length l ls :
  length (joinNl (l :: ls))
  = length l + length (joinNl ls) + match ls with [] => 0 | _ => 1 end.
Proof.
  destruct ls as [|l' ls]; [simpl; lia|].
  rewrite join_cons by done. rewrite length_app. simpl. lia.
Qed.

Lemma remainingCode_length s :
  startsWith s (str "/*") = true → length (remainingCode s) + 2 ≤ length s.
Proof.
  intros H. apply startsWith_spec in H as [t ->]. unfold remainingCode.
  change (str "/*" ++ t) with (Ch.slash :: Ch.star :: t).
  pose proof (join_split t) as E. cbn [splitNl].
  change (Ch.slash =? Ch.nl)%N with false.
  change (Ch.star =? Ch.nl)%N with false. cbv iota.
  pose proof (split_nonnil t) as Hn.
  destruct (splitNl t) as [|l ls]; [done|]. cbn [tail length].
  rewrite <- E, join_length. lia.
Qed.

Lemma removelast_elem_of (x : nat) (l : list nat) :
  x ∈ removelast l → x ∈ l.
Proof.
  induction l as [|y l IH]; [done|]. destruct l as [|z l].
  - by intros ?%elem_of_nil.
  - change (removelast (y :: z :: l)) with (y :: removelast (z :: l)).
    intros [->|H]%elem_of_cons; [apply list_elem_of_here|].
    by apply list_elem_of_further, IH.
Qed.

Lemma blockStep_progress bound st st' :
  scanning st → length (content st) ≤ bound → blockStep st = inl st' →
  scanning st' ∧ length (content st') ≤ bound
  ∧ remaining bound st' < remaining bound st.
Proof.
  intros Hinv Hb. unfold blockStep, scanning, remaining in *.
  destruct st as [ct sk li]. cbn [content stack lastIndex] in *.
  destruct sk as [|bottom sk].
  - destruct (indexOf ct (str "/*") li) as [si|] eqn:E1; [|done].
    destruct (indexOf ct (str "*/") (si + 2)) as [ei|] eqn:E2; [|done].
    intros [= <-]. cbn [content stack lastIndex].
    apply indexOf_Some in E1 as (H1 & H2 & H3); [|done]. simpl in H2.
    split; [|split; [done|]].
    + intros _. split; [lia|]. constructor; [split; [lia|done]|constructor].
    + apply Nat.add_lt_mono_l. lia.
  - destruct (Hinv ltac:(done)) as [Hli Hst].
    destruct (indexOf ct (str "*/") li) as [ne|] eqn:E2.
    + apply indexOf_Some in E2 as (H1 & H2 & H3); [|done]. simpl in H2.
      destruct (match indexOf ct (str "/*") li with
                | Some nextStart => nextStart <? ne
                | None => false
                end) eqn:Epush.
      * destruct (indexOf ct (str "/*") li) as [ns|] eqn:E1; [|done].
        apply indexOf_Some in E1 as (G1 & G2 & G3); [|done]. simpl in G2.
        intros [= <-]. cbn [content stack lastIndex default].
        split; [|split; [done|]].
        -- intros _. split; [lia|].
           change (bottom :: sk ++ [ns]) with ((bottom :: sk) ++ [ns]).
           apply Forall_app. split.
           ++ eapply Forall_impl; [exact Hst|]. intros e [? ?].
              split; [lia|done].
           ++ constructor; [split; [lia|done]|constructor].
        -- apply Nat.add_lt_mono_l. lia.
      * clear Epush. destruct sk as [|e sk].
        -- cbn [removelast List.last]. intros [= <-].
           cbn [content stack lastIndex].
           split; [done|]. inversion Hst as [|? ? [Hb1 Hb2] _]; subst.
           pose proof (trimEnd_length (slice ct 0 bottom)).
           pose proof (slice_length ct bottom) as [? ?].
           rewrite length_app, length_drop. split; [lia|]. nia.
        -- change (removelast (bottom :: e :: sk))
             with (bottom :: removelast (e :: sk)).
           intros [= <-]. cbn [content stack lastIndex].
           split; [|split; [done|]].
           ++ intros _. split; [lia|].
              apply Forall_forall. intros x Hx. rewrite Forall_forall in Hst.
              destruct (Hst x) as [? ?]; [|split; [lia|done]].
              apply elem_of_cons in Hx as [->|Hx]; [apply list_elem_of_here|].
              by apply list_elem_of_further, removelast_elem_of.
           ++ apply Nat.add_lt_mono_l. lia.
    + intros [= <-]. cbn [content stack lastIndex].
      split; [done|]. inversion Hst as [|? ? [Hb1 Hb2] _]; subst.
      pose proof (remainingCode_length _ Hb2) as Hr.
      pose proof (slice_length ct bottom) as [? ?].
      rewrite !length_app, length_drop in *. simpl length. split; [lia|]. nia.
Qed.

Lemma blockRun_ends bound fuel st :
  scanning st → length (content st) ≤ bound →
  remaining bound st < fuel → is_Some (blockRun fuel st).
Proof.
  revert st. induction fuel as [|fuel IH]; intros st Hinv Hb Hf; [lia|].
  cbn [blockRun]. destruct (blockStep st) as [st'|out] eqn:E; [|by eexists].
  destruct (blockStep_progress bound st st' Hinv Hb E) as (? & ? & ?).
  apply IH; [done|done|lia].
Qed.

(** The fuel of [removeBlockComments] is enough: the pass has a result. *)
Lemma removeBlockComments_ends s :
  is_Some (blockRun (blockFuel s)
             {| content := s; stack := []; lastIndex := 0 |}).
Proof.
  apply (blockRun_ends (length s)); [done|done|].
  unfold remaining, blockFuel. cbn [content lastIndex]. lia.
Qed.

Lemma removeBlockComments_run s :
  blockRun (blockFuel s) {| content := s; stack := []; lastIndex := 0 |}
  = Some (removeBlockComments s).
Proof.
  unfold removeBlockComments.
  by destruct (removeBlockComments_ends s) as [out ->].
Qed.

End block_loops.

(** * Line comments, line by line *)

Section line_by_line.

Implicit Types (s p l a b t rest : text) (c d : N) (re : regex)
  (prev : option N) (ls : list text).

Lemma takeWhile_notNl l : Ch.nl ∉ l → takeWhile notNl l = l.
Proof.
  induction l as [|c l IH]; [done|]. intros [Hc Hl]%not_elem_of_cons.
  cbn [takeWhile]. unfold notNl at 1.
  assert ((c =? Ch.nl)%N = false) as -> by (apply N.eqb_neq; congruence).
  cbn [negb]. by rewrite IH.
Qed.

Lemma takeWhile_notNl_line l rest :
  Ch.nl ∉ l → takeWhile notNl (l ++ Ch.nl :: rest) = l.
Proof.
  intros H. apply takeWhile_until; [|done].
  rewrite <- (takeWhile_notNl l H) at 1. apply takeWhile_true.
Qed.

Lemma startsWith_false_app s t p :
  startsWith (s ++ t) p = false → startsWith s p = false.
Proof.
  intros H. apply not_true_is_false. intros E.
  by rewrite (startsWith_app _ _ t E) in H.
Qed.

(** The tail of a line comment: behind [k] characters of a line. *)
Lemma comment_length k l rest :
  Ch.nl ∉ l → k ≤ length l →
  k + length (takeWhile notNl (drop k (l ++ Ch.nl :: rest))) = length l
  ∧ k + length (takeWhile notNl (drop k l)) = length l.
Proof.
  intros Hl Hk.
  assert (Ch.nl ∉ drop k l) as Hd.
  { intros H. apply Hl. rewrite <- (take_drop k l). apply elem_of_app. by right. }
  rewrite drop_app_le by done.
  rewrite takeWhile_notNl_line, takeWhile_notNl by done.
  rewrite length_drop. lia.
Qed.

Lemma startsWith_length s p : startsWith s p = true → length p ≤ length s.
Proof.
  intros [b ->]%startsWith_spec. rewrite length_app. lia.
Qed.

Lemma re_doc_lineComment : lineComment re_doc.
Proof.
  split.
  - intros prev l rest Hl. unfold re_doc.
    rewrite startsWith_sep by notin.
    destruct (startsWith l (str "///")) eqn:E; [|done].
    apply startsWith_length in E.
    destruct (comment_length 3 l rest Hl E) as [E1 E2]. f_equal. lia.
  - intros prev s n. unfold re_doc.
    destruct (startsWith s (str "///")) eqn:E; [|done].
    intros [= <-] Hs. apply startsWith_length in E.
    assert (Ch.nl ∉ drop 3 s) as Hd.
    { intros H. apply Hs. rewrite <- (take_drop 3 s). apply elem_of_app. by right. }
    rewrite takeWhile_notNl, length_drop by done. simpl in E. lia.
  - intros prev s t. unfold re_doc.
    destruct (startsWith (s ++ t) (str "///")) eqn:E; [done|].
    by rewrite (startsWith_false_app _ _ _ E).
  - done.
Qed.

Lemma re_line_lineComment : lineComment re_line.
Proof.
  split.
  - intros prev l rest Hl. unfold re_line. destruct (decide _); [done|].
    rewrite startsWith_sep by notin.
    destruct (startsWith l (str "//")) eqn:E; [|done].
    apply startsWith_length in E.
    destruct (comment_length 2 l rest Hl E) as [E1 E2]. f_equal. lia.
  - intros prev s n. unfold re_line. destruct (decide _); [done|].
    destruct (startsWith s (str "//")) eqn:E; [|done].
    intros [= <-] Hs. apply startsWith_length in E.
    assert (Ch.nl ∉ drop 2 s) as Hd.
    { intros H. apply Hs. rewrite <- (take_drop 2 s). apply elem_of_app. by right. }
    rewrite takeWhile_notNl, length_drop by done. simpl in E. lia.
  - intros prev s t. unfold re_line. destruct (decide _); [done|].
    destruct (startsWith (s ++ t) (str "//")) eqn:E; [done|].
    by rewrite (startsWith_false_app _ _ _ E).
  - intros s. unfold re_line.
    destruct (decide (Some Ch.nl = Some Ch.colon)); [done|].
    by destruct (decide (None = Some Ch.colon)).
Qed.

Section generic.

Context (re : regex) (Hre : lineComment re).

Lemma lc_nil prev : re prev [] = None.
Proof.
  destruct (re prev []) as [n|] eqn:E; [|done].
  destruct (lc_whole re Hre prev [] n E) as [-> ?]; [apply not_elem_of_nil|].
  simpl in *. lia.
Qed.

Lemma pieces_line prev k l rest :
  Ch.nl ∉ l → k ≤ length l →
  pieces re prev k (l ++ Ch.nl :: rest)
  = pieces re prev k l ++ Plain Ch.nl :: pieces re (Some Ch.nl) 0 rest.
Proof.
  revert prev k. induction l as [|c l IH]; intros prev k Hl Hk.
  - destruct k; [|simpl in Hk; lia]. cbn [app pieces].
    pose proof (lc_local re Hre prev [] rest ltac:(apply not_elem_of_nil)) as E.
    cbn [app] in E. by rewrite E, lc_nil.
  - pose proof Hl as Hl'. apply not_elem_of_cons in Hl' as [Hc Hl'].
    destruct k as [|k].
    + cbn [app pieces].
      pose proof (lc_local re Hre prev (c :: l) rest Hl) as E.
      cbn [app] in E. rewrite E.
      destruct (re prev (c :: l)) as [n|] eqn:En.
      * destruct (lc_whole re Hre prev _ n En Hl) as [-> _]. cbn [length].
        rewrite IH by done. cbn [app take]. do 3 f_equal.
        by rewrite take_app_length, take_ge.
      * rewrite IH by (done || lia). done.
    + cbn [app pieces]. apply IH; [done|]. simpl in Hk. lia.
Qed.

Lemma eraseFrom_line prev l rest :
  Ch.nl ∉ l →
  eraseFrom re prev (l ++ Ch.nl :: rest)
  = eraseFrom re prev l ++ Ch.nl :: eraseFrom re None rest.
Proof.
  intros Hl. unfold eraseFrom. rewrite pieces_line by (done || lia).
  rewrite map_app, concat_app. cbn [map concat fill app]. do 2 f_equal.
  apply (eraseFrom_first re). apply (lc_start re Hre).
Qed.

(** On a line, what is left is what stands before the first match. *)
Lemma eraseFrom_prefix prev l :
  Ch.nl ∉ l → ∃ t, l = eraseFrom re prev l ++ t.
Proof.
  revert prev. induction l as [|c l IH]; intros prev Hl; [by exists []|].
  pose proof Hl as Hl'. apply not_elem_of_cons in Hl' as [Hc Hl'].
  destruct (re prev (c :: l)) as [n|] eqn:E.
  - destruct (lc_whole re Hre prev _ n E Hl) as [-> _].
    exists (c :: l). unfold eraseFrom. cbn [pieces]. rewrite E. cbn [length].
    by rewrite pieces_skip_all.
  - rewrite eraseFrom_miss by done.
    destruct (IH (Some c) Hl') as [t Ht]. exists t. cbn [app]. by rewrite <- Ht.
Qed.

Lemma eraseFrom_quiet prev l :
  Ch.nl ∉ l → quiet re prev (eraseFrom re prev l).
Proof.
  revert prev. induction l as [|c l IH]; intros prev Hl; [done|].
  pose proof Hl as Hl'. apply not_elem_of_cons in Hl' as [Hc Hl'].
  destruct (re prev (c :: l)) as [n|] eqn:E.
  - destruct (lc_whole re Hre prev _ n E Hl) as [-> _].
    unfold eraseFrom. cbn [pieces]. rewrite E. cbn [length].
    by rewrite pieces_skip_all.
  - rewrite eraseFrom_miss by done. cbn [quiet]. split; [|by apply IH].
    destruct (eraseFrom_prefix (Some c) l Hl') as [t Ht].
    apply (lc_mono re Hre prev _ t). cbn [app]. by rewrite <- Ht.
Qed.

Lemma quiet_prefix prev a t : quiet re prev (a ++ t) → quiet re prev a.
Proof.
  revert prev. induction a as [|c a IH]; intros prev; [done|].
  cbn [app quiet]. intros [H1 H2]. split; [|by apply IH].
  by apply (lc_mono re Hre prev (c :: a) t).
Qed.

Lemma quiet_eraseFrom prev a : quiet re prev a → eraseFrom re prev a = a.
Proof.
  revert prev. induction a as [|c a IH]; intros prev; [done|].
  intros [H1 H2]. rewrite eraseFrom_miss by done. by rewrite IH.
Qed.

(** The pass is the pass on every line. *)
Lemma eraseFrom_lines ls :
  Forall (λ l, Ch.nl ∉ l) ls →
  eraseFrom re None (joinNl ls) = joinNl (map (eraseFrom re None) ls).
Proof.
  induction 1 as [|l ls Hl _ IH]; [done|]. destruct ls as [|l' ls]; [done|].
  rewrite join_cons by done. rewrite eraseFrom_line by done.
  rewrite IH. cbn [map]. symmetry. by apply join_cons.
Qed.

Lemma eraseFrom_elem_of prev l c : Ch.nl ∉ l → c ∈ eraseFrom re prev l → c ∈ l.
Proof.
  intros Hl Hc. destruct (eraseFrom_prefix prev l Hl) as [t Ht].
  rewrite Ht. apply elem_of_app. by left.
Qed.

End generic.

End line_by_line.

Section line_comments_only.

Implicit Types (s p l a b t x y : text) (c d : N) (ls : list text)
  (preserved : gmap text text).

Lemma removeDocComments_lines x :
  removeDocComments x = joinNl (map removeDocComments (splitNl x)).
Proof.
  unfold removeDocComments. rewrite !erase_eraseFrom.
  rewrite <- (join_split x) at 1.
  apply (eraseFrom_lines _ re_doc_lineComment), split_lines.
Qed.

Lemma removeDocComments_line l : Ch.nl ∉ l → Ch.nl ∉ removeDocComments l.
Proof.
  intros Hl H. apply Hl.
  by apply (eraseFrom_elem_of _ re_doc_lineComment None l).
Qed.

Lemma lineStrip_lines x : lineStrip x = joinNl (map lineStrip (splitNl x)).
Proof.
  unfold lineStrip at 1. rewrite removeDocComments_lines.
  unfold removeLineComments. rewrite erase_eraseFrom.
  rewrite (eraseFrom_lines _ re_line_lineComment).
  - by rewrite map_map.
  - apply Forall_forall. intros l [l0 [-> Hl0]]%list_elem_of_fmap.
    apply removeDocComments_line.
    pose proof (split_lines x) as H. rewrite Forall_forall in H. by apply H.
Qed.

Lemma lineStrip_prefix l : Ch.nl ∉ l → ∃ t, l = lineStrip l ++ t.
Proof.
  intros Hl. unfold lineStrip, removeLineComments, removeDocComments.
  rewrite !erase_eraseFrom.
  destruct (eraseFrom_prefix _ re_doc_lineComment None l Hl) as [t1 E1].
  destruct (eraseFrom_prefix _ re_line_lineComment None
              (eraseFrom re_doc None l)) as [t2 E2].
  { by apply removeDocComments_line. }
  exists (t2 ++ t1). rewrite app_assoc, <- E2. done.
Qed.

Lemma lineStrip_uncommented l : Ch.nl ∉ l → uncommented (lineStrip l).
Proof.
  intros Hl. split.
  - unfold lineStrip, removeLineComments. rewrite erase_eraseFrom.
    destruct (eraseFrom_prefix _ re_line_lineComment None
                (removeDocComments l)) as [t E].
    { by apply removeDocComments_line. }
    apply (quiet_prefix _ re_doc_lineComment None _ t). rewrite <- E.
    by apply (eraseFrom_quiet _ re_doc_lineComment).
  - apply (eraseFrom_quiet _ re_line_lineComment).
    by apply removeDocComments_line.
Qed.

Lemma uncommented_fixed a : uncommented a → lineStrip a = a.
Proof.
  intros [H1 H2]. unfold lineStrip, removeLineComments, removeDocComments.
  rewrite !erase_eraseFrom.
  rewrite (quiet_eraseFrom re_doc) by done.
  by apply quiet_eraseFrom.
Qed.

Lemma uncommented_prefix a t : uncommented (a ++ t) → uncommented a.
Proof.
  intros [H1 H2]. split.
  - by apply (quiet_prefix _ re_doc_lineComment None a t).
  - by apply (quiet_prefix _ re_line_lineComment None a t).
Qed.

Lemma lineStrip_split x : splitNl (lineStrip x) = map lineStrip (splitNl x).
Proof.
  rewrite lineStrip_lines. apply split_join.
  - pose proof (split_nonnil x). by destruct (splitNl x).
  - apply Forall_forall. intros l [l0 [-> Hl0]]%list_elem_of_fmap.
    pose proof (split_lines x) as H. rewrite Forall_forall in H.
    destruct (lineStrip_prefix l0 (H _ Hl0)) as [t E].
    intros Hn. apply (H _ Hl0). rewrite E. apply elem_of_app. by left.
Qed.

Lemma lineStrip_elem_of x c : c ∈ lineStrip x → c ≠ Ch.nl → c ∈ x.
Proof.
  rewrite lineStrip_lines.
  intros [->|(l & [l0 [-> Hl0]]%list_elem_of_fmap & Hc)]%elem_of_join Hn;
    [done|].
  pose proof (split_lines x) as H. rewrite Forall_forall in H.
  destruct (lineStrip_prefix l0 (H _ Hl0)) as [t E].
  rewrite <- (join_split x). apply (join_elem_of _ l0); [done|].
  rewrite E. apply elem_of_app. by left.
Qed.

(** The two passes create no occurrence of a pattern within a line. *)
Lemma lineStrip_includes x p :
  p ≠ [] → Ch.nl ∉ p →
  includes (lineStrip x) p = true → includes x p = true.
Proof.
  intros Hp Hn. rewrite lineStrip_lines. intros H.
  destruct (includes_join _ _ Hn H)
    as [?|(l & [l0 [-> Hl0]]%list_elem_of_fmap & Hi)]; [done|].
  pose proof (split_lines x) as Hs. rewrite Forall_forall in Hs.
  destruct (lineStrip_prefix l0 (Hs _ Hl0)) as [t E].
  rewrite <- (join_split x). apply (join_includes _ l0); [done|].
  rewrite E. by apply includes_app_l.
Qed.

Lemma lineStrip_joined ls :
  Forall uncommented ls → Forall (λ l, Ch.nl ∉ l) ls →
  lineStrip (joinNl ls) = joinNl ls.
Proof.
  intros Hu Hn. destruct ls as [|l ls]; [done|].
  rewrite lineStrip_lines, split_join by done. f_equal.
  induction Hu as [|x xs Hx _ IH]; [done|]. cbn [map].
  inversion Hn; subst. by rewrite uncommented_fixed, IH.
Qed.

Lemma lineCommentsOnly_lineStrip x :
  lineCommentsOnly x → lineCommentsOnly (lineStrip x).
Proof.
  intros ([Hs Hd] & H1 & H2). repeat split.
  - intros H. by apply Hs, lineStrip_elem_of.
  - intros H. by apply Hd, lineStrip_elem_of.
  - apply not_true_is_false. intros H.
    apply lineStrip_includes in H; [congruence|done|notin].
  - apply not_true_is_false. intros H.
    apply lineStrip_includes in H; [congruence|done|notin].
Qed.

Lemma lineCommentsOnly_format x :
  lineCommentsOnly x → lineCommentsOnly (format x).
Proof.
  intros ([Hs Hd] & H1 & H2). repeat split.
  - intros H. by apply Hs, format_elem_of.
  - intros H. by apply Hd, format_elem_of.
  - apply not_true_is_false. intros H.
    apply format_includes in H; [congruence|done|notin].
  - apply not_true_is_false. intros H.
    apply format_includes in H; [congruence|done|notin].
Qed.

(** Where the string pass finds nothing, and there is neither a block
    comment nor placeholder text, the two line passes and the formatter are
    all that acts. *)
Lemma unformatted_lineStrip preserved x :
  protectStrings preserved x
  = ({| stringIndex := 0; preservedStrings := preserved |}, x) →
  includes x (str "/*") = false → includes x sentinel = false →
  unformatted preserved x = lineStrip x.
Proof.
  intros E H1 H2. unfold unformatted. rewrite E. cbn [preservedStrings].
  unfold stripComments. fold (lineStrip x).
  rewrite removeBlockComments_quiet, restoreStrings_quiet; [done| |].
  - apply not_true_is_false. intros H.
    apply lineStrip_includes in H; [congruence|done|notin].
  - apply not_true_is_false. intros H.
    apply lineStrip_includes in H; [congruence|done|notin].
Qed.

Lemma unformatted_lineCommentsOnly preserved x :
  lineCommentsOnly x → unformatted preserved x = lineStrip x.
Proof.
  intros (Hq & H1 & H2). apply unformatted_lineStrip; [|done..].
  by apply protectStrings_noQuote.
Qed.

Lemma process_lineCommentsOnly preserved x :
  lineCommentsOnly x → process preserved x = format (lineStrip x).
Proof.
  intros H. by rewrite process_unformatted, unformatted_lineCommentsOnly.
Qed.

(** What the formatter emits from uncommented lines is uncommented. *)
Lemma format_lineStrip_fixed x :
  lineStrip (format (lineStrip x)) = format (lineStrip x).
Proof.
  rewrite format_emit, lineStrip_split.
  pose proof (split_lines x) as Hs. rewrite Forall_forall in Hs.
  apply lineStrip_joined.
  - apply Forall_forall. intros e He.
    destruct (emit_origin _ _ _ He)
      as (l & [l0 [-> Hl0]]%list_elem_of_fmap & [[_ ->]|[Hb ->]]).
    + by apply lineStrip_uncommented, Hs.
    + destruct (tidyLine_cases _ Hb) as [-> | ->].
      * by apply lineStrip_uncommented, Hs.
      * destruct (trimEnd_split (lineStrip l0)) as (w & _ & E).
        apply (uncommented_prefix _ w). rewrite <- E.
        by apply lineStrip_uncommented, Hs.
  - apply emit_lines. rewrite <- lineStrip_split. apply split_lines.
Qed.

End line_comments_only.

(** * Code without comments and strings *)

(** The lines of a given text are tidy. *)
Ltac tidy_lines :=
  let H := fresh in let l := fresh in
  apply Forall_forall; intros l H; vm_compute in H;
  repeat (apply elem_of_cons in H as [->|H];
          [split; [intros [=]|reflexivity]|]);
  by apply elem_of_nil in H.

(** C3, as the code has it.  On an input that is code only (no quote
    character, no [//], no [/*], no placeholder text) the formatter alone
    acts, and the input is returned unchanged if none of its lines is blank
    or ends in white space. *)
Theorem code_preserved (preserved : gmap text text) (content : text) :
  codeOnly content →
  process preserved content = format content
  ∧ (tidy content → process preserved content = content).
Proof.
  intros Hc. rewrite process_codeOnly by done. split; [done|].
  apply format_fixed.
Qed.

Lemma code_preserved_witness :
  process ∅ (nls ["void main() {"; "  run(1 / 2);"; "}"]%string)
  = nls ["void main() {"; "  run(1 / 2);"; "}"]%string.
Proof.
  apply (code_preserved ∅).
  - repeat split; [notin|notin|reflexivity..].
  - tidy_lines.
Defined.

(** C3 as the specification states it does not hold: code without comments
    and strings loses the blank line behind an opening brace. *)
Lemma code_not_preserved :
  codeOnly (nls ["void main() {"; EmptyString; "  run();  "; "}"]%string)
  ∧ process ∅ (nls ["void main() {"; EmptyString; "  run();  "; "}"]%string)
    = nls ["void main() {"; "  run();"; "}"]%string
  ∧ process ∅ (nls ["void main() {"; EmptyString; "  run();  "; "}"]%string)
    ≠ nls ["void main() {"; EmptyString; "  run();  "; "}"]%string.
Proof.
  split; [repeat split; [notin|notin|reflexivity..]|].
  split; [reflexivity|]. vm_compute. intros [=].
Qed.

(** C2, as the code has it.  On an input without quote characters, block
    comment openers and placeholder text (line and documentation comments
    may occur) the transformation is idempotent, whatever
    [preservedStrings] holds at either pass: the second pass finds no
    comment, and the formatter reaches a fixed point in one pass. *)
Theorem idempotent_without_blocks (preserved preserved' : gmap text text)
  (content : text) :
  lineCommentsOnly content →
  process preserved' (process preserved content) = process preserved content.
Proof.
  intros Hc. rewrite (process_lineCommentsOnly preserved) by done.
  rewrite process_lineCommentsOnly
    by (by apply lineCommentsOnly_format, lineCommentsOnly_lineStrip).
  rewrite format_lineStrip_fixed. apply format_idem.
Qed.

Lemma idempotent_without_blocks_witness :
  process ∅
    (process ∅ (nls ["f() { // a"; "  /// b"; "  g();  // c"; "}"]%string))
  = process ∅ (nls ["f() { // a"; "  /// b"; "  g();  // c"; "}"]%string).
Proof.
  apply (idempotent_without_blocks ∅ ∅).
  repeat split; [notin|notin|reflexivity..].
Defined.

(** C2 as the specification states it does not hold: removing a block
    comment can join a [/] and a [*] into a comment opener that only a
    second pass sees. *)
Lemma not_idempotent :
  process ∅ (str "/ /**/*") = str "/*"
  ∧ process ∅ (process ∅ (str "/ /**/*")) ≠ process ∅ (str "/ /**/*").
Proof. split; [reflexivity|]. vm_compute. intros [=]. Qed.

(** C7, as the code has it.  Where the only quote character of a file is a
    quote that is never closed, the string pass finds no literal and stores
    nothing, so that the whole text, the part behind the quote included,
    goes through the comment passes as code; without block comments and
    placeholder text the output is the formatted result of the two passes
    over line and documentation comments. *)
Theorem unterminated_string (preserved : gmap text text)
  (pre post : text) (q : N) :
  q = Ch.squote ∨ q = Ch.dquote → noQuote pre → noQuote post →
  protectStrings preserved (pre ++ q :: post)
  = ({| stringIndex := 0; preservedStrings := preserved |}, pre ++ q :: post)
  ∧ process preserved (pre ++ q :: post)
    = format (restoreStrings preserved (stripComments (pre ++ q :: post)))
  ∧ (includes (pre ++ q :: post) (str "/*") = false →
     includes (pre ++ q :: post) sentinel = false →
     process preserved (pre ++ q :: post)
     = format (lineStrip (pre ++ q :: post))).
Proof.
  intros Hq Hpre Hpost.
  assert (protectStrings preserved (pre ++ q :: post)
          = ({| stringIndex := 0; preservedStrings := preserved |},
             pre ++ q :: post)) as E.
  { unfold protectStrings. by rewrite pieces_lone_quote, protect_plain. }
  split; [done|]. rewrite process_unformatted. split.
  - unfold unformatted. by rewrite E.
  - intros H1 H2. by rewrite unformatted_lineStrip.
Qed.

Lemma unterminated_string_witness :
  protectStrings ∅ (str "x = " ++ Ch.squote :: str "a // b")
  = ({| stringIndex := 0; preservedStrings := ∅ |},
     str "x = " ++ Ch.squote :: str "a // b")
  ∧ process ∅ (str "x = " ++ Ch.squote :: str "a // b")
    = format (restoreStrings ∅
                (stripComments (str "x = " ++ Ch.squote :: str "a // b")))
  ∧ process ∅ (str "x = " ++ Ch.squote :: str "a // b")
    = format (lineStrip (str "x = " ++ Ch.squote :: str "a // b")).
Proof.
  destruct (unterminated_string ∅ (str "x = ") (str "a // b") Ch.squote)
    as (H1 & H2 & H3).
  - by left.
  - split; notin.
  - split; notin.
  - split; [exact H1|]. split; [exact H2|]. apply H3; reflexivity.
Defined.

(** C7 as the specification states it does not hold: the line comment
    behind a quote that is never closed is removed. *)
Lemma unterminated_string_stripped :
  process ∅ (str "x = 'a // b") = str "x = 'a"
  ∧ includes (process ∅ (str "x = 'a // b")) (str "//") = false.
Proof. split; reflexivity. Qed.

(** C9.  Every output line that is not blank and whose trimmed content has
    none of the three markers is the leading white space of a line of the
    content before formatting followed by that line trimmed, so it carries
    no trailing white space. *)
Theorem output_line_trimmed (preserved : gmap text text)
  (content line : text) :
  line ∈ splitNl (process preserved content) →
  trim line ≠ [] →
  marked (trim line) = false →
  (∃ source, source ∈ splitNl (unformatted preserved content)
             ∧ line = leadingSpace source ++ trim source)
  ∧ trimEnd line = line.
Proof.
  intros Hin Hnb Hm. rewrite process_unformatted in Hin.
  destruct (format_lines (unformatted preserved content)) as [E|[_ E]].
  - rewrite E in Hin.
    destruct (emit_origin _ _ _ Hin) as (l & Hl & [[Hb ->]|[Hb ->]]); [done|].
    rewrite trim_tidyLine in Hm by done.
    unfold tidyLine. rewrite Hm. split; [by exists l|].
    rewrite indent_trim by done. apply trimEnd_idem.
  - rewrite E in Hin. apply list_elem_of_singleton in Hin as ->. done.
Qed.

Lemma output_line_trimmed_witness :
  (∃ source, source ∈ splitNl (unformatted ∅ (str "  x = 1;   // one"))
             ∧ str "  x = 1;" = leadingSpace source ++ trim source)
  ∧ trimEnd (str "  x = 1;") = str "  x = 1;".
Proof.
  apply (output_line_trimmed ∅ (str "  x = 1;   // one") (str "  x = 1;")).
  - vm_compute. apply list_elem_of_here.
  - vm_compute. intros [=].
  - reflexivity.
Defined.

(** ** Worked inputs *)

(** C5, as the code has it.  The line comment between two code lines is
    removed, but the line it stood on stays as an empty line: the output for
    the three lines [code1], [// c], [code2] is [code1], an empty line,
    [code2], whatever the files before left in [preservedStrings]. *)
Theorem comment_line_between_code (preserved : gmap text text) :
  process preserved (nls ["code1"; "// c"; "code2"]%string)
  = nls ["code1"; EmptyString; "code2"]%string.
Proof. reflexivity. Qed.

(** C5 as the specification states it does not hold: the output is not
    [code1] directly followed by [code2]. *)
Lemma comment_line_between_code_not_joined :
  process ∅ (nls ["code1"; "// c"; "code2"]%string)
  ≠ nls ["code1"; "code2"]%string.
Proof. vm_compute. discriminate. Qed.

(** C6.  A block comment with a block comment nested in it is removed as a
    whole: the output for [/* a /* b */ c */x] is [x]. *)
Theorem nested_block_comment (preserved : gmap text text) :
  process preserved (str "/* a /* b */ c */x") = str "x".
Proof. reflexivity. Qed.

(** C4.  The line comment in the hole of a raw string: the raw branch of
    the string callback returns the hole as it is, the literal gets no
    placeholder, and the pass over line comments takes the rest of the line,
    the closing brace and quote included; the hole of the same string
    without the [r] is cleaned and closed.  A block comment in the hole of
    the raw string goes by the pass over block comments. *)
Theorem raw_hole_line_comment (preserved : gmap text text) :
  process preserved (str "r'${a // c}'") = str "r'${a"
  ∧ process preserved (str "'${a // c}'") = str "'${a}'"
  ∧ process preserved (str "r'${a /* c */ b}'") = str "r'${a b}'".
Proof. repeat split; reflexivity. Qed.

(** C10.  The text of the first placeholder in a file without any string
    literal: between code [pre] and [post] (no quote, no comment, no other
    sentinel; [post] does not begin with a digit) the string pass finds no
    literal and stores nothing, the comment passes change nothing, and the
    restoration, with a table that has no entry 0, puts [undefined] in the
    place of the text; the output is the formatted result of that. *)
Theorem sentinel_collision (preserved : gmap text text) (pre post : text) :
  codeOnly pre → codeOnly post →
  (∀ d, head post = Some d → isDigit d = false) →
  preserved !! decimal 0 = None →
  pieces re_string None 0 (pre ++ placeholder 0 ++ post)
  = map Plain (pre ++ placeholder 0 ++ post)
  ∧ protectStrings preserved (pre ++ placeholder 0 ++ post)
    = ({| stringIndex := 0; preservedStrings := preserved |},
       pre ++ placeholder 0 ++ post)
  ∧ stripComments (pre ++ placeholder 0 ++ post)
    = pre ++ placeholder 0 ++ post
  ∧ restoreStrings preserved (pre ++ placeholder 0 ++ post)
    = pre ++ str "undefined" ++ post
  ∧ process preserved (pre ++ placeholder 0 ++ post)
    = format (pre ++ str "undefined" ++ post).
Proof.
  intros (Hq1 & Ha1 & Hb1 & Hs1) (Hq2 & Ha2 & Hb2 & Hs2) Hd Hk.
  assert (noQuote (pre ++ placeholder 0 ++ post)) as Hq.
  { rewrite !noQuote_app.
    repeat split; first [done | notin | apply Hq1 | apply Hq2]. }
  assert (stripComments (pre ++ placeholder 0 ++ post)
          = pre ++ placeholder 0 ++ post) as Es
    by (by apply stripComments_placeholder).
  assert (restoreStrings preserved (pre ++ placeholder 0 ++ post)
          = pre ++ str "undefined" ++ post) as Er
    by (by rewrite restoreStrings_at, Hk).
  split; [by apply pieces_string_noQuote|].
  split; [by apply protectStrings_noQuote|].
  split; [done|]. split; [done|].
  unfold process, processFile. rewrite protectStrings_noQuote by done.
  cbn [snd preservedStrings]. by rewrite Es, Er.
Qed.

Lemma sentinel_collision_witness :
  pieces re_string None 0 (str "int PRESERVED_STRING_0 = 1;")
  = map Plain (str "int PRESERVED_STRING_0 = 1;")
  ∧ restoreStrings ∅ (str "int PRESERVED_STRING_0 = 1;")
    = str "int undefined = 1;"
  ∧ process ∅ (str "int PRESERVED_STRING_0 = 1;")
    = str "int undefined = 1;".
Proof.
  destruct (sentinel_collision ∅ (str "int ") (str " = 1;"))
    as (H1 & _ & _ & H4 & H5).
  - repeat split; [notin|notin|reflexivity..].
  - repeat split; [notin|notin|reflexivity..].
  - intros d [= <-]. reflexivity.
  - reflexivity.
  - split; [exact H1|]. split; [exact H4|exact H5].
Defined.

(** [preservedStrings] outlives a file: the placeholder text in a later file
    of the same run is replaced by a string of an earlier one. *)
Lemma placeholder_across_files :
  removeComments [str "a = 'x';"; str "b = PRESERVED_STRING_0;"]
  = [str "a = 'x';"; str "b = 'x';"].
Proof. reflexivity. Qed.

(** After a block comment is removed together with the white space before
    it, [lastIndex] still points to where the comment began, now behind the
    place of the removal: a second block comment on the line is passed over
    and stays. *)
Lemma second_block_comment_kept :
  process ∅ (nls ["x;"; "  /* c1 */ /* c2 */"; "y"]%string)
  = nls ["x; /* c2 */"; "y"]%string.
Proof. reflexivity. Qed.

(** ** More on the formatter *)

Section formatter_lines.

Implicit Types (l x : text) (p n : option text) (ls xs ys : list text).

Lemma isCode_tidyLine l : isCode l = true → isCode (tidyLine l) = true.
Proof.
  unfold isCode. intros H. apply nonEmpty_true in H.
  apply nonEmpty_true. by rewrite trim_tidyLine.
Qed.

Lemma tidyLine_trimEnd l :
  trim l ≠ [] → tidyLine l = if marked (trim l) then l else trimEnd l.
Proof.
  intros H. unfold tidyLine. destruct (marked (trim l)); [done|].
  by apply indent_trim.
Qed.

Lemma emit_code p ls :
  List.filter isCode (emit p ls) = map tidyLine (List.filter isCode ls).
Proof.
  revert p. induction ls as [|l after IH]; intros p; [done|].
  cbn [emit List.filter]. destruct (isCode l) eqn:El.
  - pose proof El as Hl. apply nonEmpty_true in Hl.
    rewrite formatLine_content by done. cbn [List.filter map].
    by rewrite isCode_tidyLine, IH.
  - apply nonEmpty_false in El.
    destruct (formatLine p l (head after)) as [x|] eqn:E; [|apply IH].
    destruct (formatLine_blank _ _ _ _ El E) as (-> & _).
    cbn [List.filter]. unfold isCode at 1. rewrite El. cbn [nonEmpty].
    apply IH.
Qed.

Lemma formatLine_blank_chain p l n x :
  trim l = [] → formatLine p l n = Some x →
  (trimEndsWith p (str ")") || trimEndsWith p (str "}"))
  && trimStartsWith n (str ".") = false.
Proof.
  intros H. unfold formatLine. rewrite (proj2 (nonEmpty_false _) H). simpl.
  by destruct (_ && trimStartsWith n (str ".")).
Qed.

Lemma formatLine_around p l n x :
  trim l = [] → formatLine p l n = Some x →
  ∃ q m, p = Some q ∧ n = Some m ∧ aroundBlank (trim q) (trim m).
Proof.
  intros Hl E.
  pose proof (formatLine_blank_chain _ _ _ _ Hl E) as Hc.
  destruct (formatLine_blank _ _ _ _ Hl E) as (_ & Hp & Hn & Hb & Hd).
  apply truthy_trim in Hp as (q & -> & Hq).
  apply truthy_trim in Hn as (m & -> & Hm).
  exists q, m. by repeat split.
Qed.

(** A blank line that is emitted has a line that is not blank on either
    side; the one before is the line emitted before it, or else the line
    that the pass came from. *)
Lemma emit_blank p ls xs l ys :
  emit p ls = xs ++ l :: ys → trim l = [] →
  ∃ tq m, head ys = Some m ∧ aroundBlank tq (trim m)
          ∧ ((∃ q, last xs = Some q ∧ trim q = tq)
             ∨ (xs = [] ∧ trim <$> p = Some tq)).
Proof.
  revert p xs. induction ls as [|l0 after IH]; intros p xs E Hl.
  { by destruct xs. }
  cbn [emit] in E. destruct (trim l0) as [|c t] eqn:El0.
  - destruct (formatLine p l0 (head after)) as [x|] eqn:Ef.
    + destruct (formatLine_around _ _ _ _ El0 Ef) as (q & m & -> & Hm & Ha).
      destruct (formatLine_blank _ _ _ _ El0 Ef) as (-> & _).
      destruct xs as [|x0 xs].
      * injection E as <- <-. exists (trim q), (tidyLine m).
        destruct after as [|m0 after]; [done|]. injection Hm as ->.
        destruct Ha as (? & ? & ?). cbn [emit].
        rewrite formatLine_content by done. rewrite trim_tidyLine by done.
        split; [done|]. split; [done|]. by right.
      * injection E as <- E.
        destruct (IH _ _ E Hl) as (tq & m' & Hh & Ha' & [Hx|[-> Hx]]).
        -- exists tq, m'. split; [done|]. split; [done|]. left.
           destruct Hx as (q' & Hq' & ?). exists q'. split; [|done].
           destruct xs; [done|]. by rewrite last_cons_cons.
        -- simpl in Hx. injection Hx as <-. destruct Ha' as [Hne _].
           by rewrite El0 in Hne.
    + destruct (IH _ _ E Hl) as (tq & m' & Hh & Ha' & [Hx|[-> Hx]]).
      * exists tq, m'. split; [done|]. split; [done|]. by left.
      * simpl in Hx. injection Hx as <-. destruct Ha' as [Hne _].
           by rewrite El0 in Hne.
  - assert (trim l0 ≠ []) as Hn0 by (by rewrite El0).
    rewrite formatLine_content in E by done.
    destruct xs as [|x0 xs].
    + injection E as <- _. by rewrite trim_tidyLine in Hl.
    + injection E as <- E.
      destruct (IH _ _ E Hl) as (tq & m' & Hh & Ha' & [Hx|[-> Hx]]).
      * exists tq, m'. split; [done|]. split; [done|]. left.
        destruct Hx as (q' & Hq' & ?). exists q'. split; [|done].
        destruct xs; [done|]. by rewrite last_cons_cons.
      * injection Hx as <-. exists (trim l0), m'.
        split; [done|]. split; [exact Ha'|]. left.
        exists (tidyLine l0). split; [done|]. by apply trim_tidyLine.
Qed.

End formatter_lines.

(** X1.  The formatter reaches a fixed point in one pass: formatting a
    formatted text changes nothing, whatever the text. *)
Theorem formatter_idempotent (content : text) :
  format (format content) = format content.
Proof. apply format_idem. Qed.

(** X2.  The formatter drops no code and keeps its order: the lines of the
    output that are not blank are the lines of the input that are not blank,
    each as it was if its trimmed text holds one of the three markers and
    without its trailing white space otherwise. *)
Theorem formatter_keeps_code (content : text) :
  List.filter isCode (splitNl (format content))
  = map (λ line, if marked (trim line) then line else trimEnd line)
      (List.filter isCode (splitNl content)).
Proof.
  assert (List.filter isCode (emit None (splitNl content))
          = map (λ line, if marked (trim line) then line else trimEnd line)
              (List.filter isCode (splitNl content))) as E.
  { rewrite emit_code. apply map_ext_in. intros l Hl.
    apply filter_In in Hl as [_ Hl]. apply tidyLine_trimEnd.
    by apply nonEmpty_true. }
  destruct (format_lines content) as [-> | [E1 ->]]; [done|].
  by rewrite <- E, E1.
Qed.

(** X3.  Among the lines that the formatter joins a blank line is never the
    first or the last and never next to another blank line: the line before
    it is not blank and does not end in [{], the line behind it is not
    blank and does not start with [}], and the two are not a line ending in
    [)] or [}] followed by a line starting with a dot. *)
Theorem formatter_blank_lines (lines before after : list text)
  (line : text) :
  formatLines lines = before ++ line :: after → trim line = [] →
  ∃ prevLine nextLine,
    last before = Some prevLine ∧ head after = Some nextLine
    ∧ aroundBlank (trim prevLine) (trim nextLine).
Proof.
  rewrite formatLines_emit. intros E Hl.
  destruct (emit_blank _ _ _ _ _ E Hl) as (tq & m & Hh & Ha & [Hx|[_ Hx]]);
    [|done].
  destruct Hx as (q & Hq & <-). by exists q, m.
Qed.

Lemma formatter_blank_lines_witness :
  ∃ prevLine nextLine,
    last [str "a();"] = Some prevLine
    ∧ head [str "b();"; str "}"] = Some nextLine
    ∧ aroundBlank (trim prevLine) (trim nextLine).
Proof.
  apply (formatter_blank_lines
           [str "a();"; str "  "; str "b();"; []; str "}"]
           [str "a();"] [str "b();"; str "}"] (str "  "));
    reflexivity.
Defined.

(** ** More on the passes over line comments *)

Section line_passes.

Implicit Types (s p l a b t x y : text) (c d : N) (ls : list text).

Lemma re_doc_opener prev s n :
  re_doc prev s = Some n → startsWith s (str "//") = true.
Proof.
  unfold re_doc. destruct (startsWith s (str "///")) eqn:E; [|done].
  intros _. apply startsWith_spec in E as [b ->].
  apply startsWith_spec. by exists (Ch.slash :: b).
Qed.

Lemma re_line_opener prev s n :
  re_line prev s = Some n → startsWith s (str "//") = true.
Proof.
  unfold re_line. destruct (decide _); [done|].
  by destruct (startsWith s (str "//")).
Qed.

(** On a line, what a pass takes away is nothing or starts where the
    expression matches. *)
Lemma eraseFrom_tail re prev l :
  lineComment re →
  (∀ prev s n, re prev s = Some n → startsWith s (str "//") = true) →
  Ch.nl ∉ l →
  ∃ t, l = eraseFrom re prev l ++ t
       ∧ (t = [] ∨ startsWith t (str "//") = true).
Proof.
  intros Hre Ho. revert prev.
  induction l as [|c l IH]; intros prev Hl; [exists []; by split; [|left]|].
  pose proof Hl as Hl'. apply not_elem_of_cons in Hl' as [Hc Hl'].
  destruct (re prev (c :: l)) as [n|] eqn:E.
  - destruct (lc_whole re Hre prev _ n E Hl) as [-> _].
    exists (c :: l). split; [|right; by eapply Ho].
    unfold eraseFrom. cbn [pieces]. rewrite E. cbn [length].
    by rewrite pieces_skip_all.
  - rewrite eraseFrom_miss by done.
    destruct (IH (Some c) Hl') as (t & Ht & Hs). exists t.
    split; [|done]. cbn [app]. by rewrite <- Ht.
Qed.

Lemma lineStrip_tail l :
  Ch.nl ∉ l →
  ∃ t, l = lineStrip l ++ t ∧ (t = [] ∨ startsWith t (str "//") = true).
Proof.
  intros Hl. unfold lineStrip, removeLineComments, removeDocComments.
  rewrite !erase_eraseFrom.
  destruct (eraseFrom_tail re_doc None l re_doc_lineComment re_doc_opener Hl)
    as (t1 & E1 & H1).
  destruct (eraseFrom_tail re_line None (eraseFrom re_doc None l)
              re_line_lineComment re_line_opener) as (t2 & E2 & H2).
  { by apply removeDocComments_line. }
  exists (t2 ++ t1). split; [by rewrite app_assoc, <- E2|].
  destruct H2 as [->|H2]; [done|]. right. by apply startsWith_app.
Qed.

End line_passes.

(** X4.  The passes over documentation and line comments work line by
    line: they leave as many lines as there were, and each line of the
    result is the line of the input without a tail that is empty or starts
    with two slashes. *)
Theorem line_comments_by_line (content : text) :
  Forall2 (λ out line,
             ∃ tail, line = out ++ tail
                     ∧ (tail = [] ∨ startsWith tail (str "//") = true))
    (splitNl (removeLineComments (removeDocComments content)))
    (splitNl content).
Proof.
  change (removeLineComments (removeDocComments content))
    with (lineStrip content).
  rewrite lineStrip_split. apply Forall2_fmap_l, Forall_Forall2_diag.
  eapply Forall_impl; [apply split_lines|].
  intros l Hl. by apply lineStrip_tail.
Qed.

(** X5.  Running the passes over documentation and line comments a second
    time changes nothing, whatever the text. *)
Theorem line_comments_idempotent (content : text) :
  removeLineComments (removeDocComments
    (removeLineComments (removeDocComments content)))
  = removeLineComments (removeDocComments content).
Proof.
  change (lineStrip (lineStrip content) = lineStrip content).
  rewrite (lineStrip_lines content).
  pose proof (split_lines content) as H.
  apply lineStrip_joined.
  - apply Forall_fmap. eapply Forall_impl; [exact H|].
    intros l Hl. by apply lineStrip_uncommented.
  - apply Forall_fmap. eapply Forall_impl; [exact H|].
    intros l Hl Hn. destruct (lineStrip_prefix l Hl) as [t E].
    apply Hl. rewrite E. apply elem_of_app. by left.
Qed.

(** ** More on the loops over block comments *)

Section block_comments.

Implicit Types (s p a b t x y pre post body : text) (c d : N)
  (st : scanner) (sk : list nat).

Local Abbreviation opener := (str "/*").
Local Abbreviation closer := (str "*/").

(** *** Searching from an index *)

Lemma startsWith_take s p : startsWith s p = startsWith (take (length p) s) p.
Proof.
  revert s. induction p as [|x p IH]; intros s; [done|].
  destruct s as [|y s]; [done|]. cbn [length take startsWith]. by rewrite <- IH.
Qed.

Lemma startsWith_includes s p : startsWith s p = true → includes s p = true.
Proof. intros H. destruct s; simpl; by rewrite H. Qed.

(** A match that starts within [a] ends at most one character short of its
    own length behind [a]. *)
Lemma no_start a b p :
  includes (a ++ take (length p - 1) b) p = false →
  ∀ j, j < length a → startsWith (drop j (a ++ b)) p = false.
Proof.
  intros H j Hj. apply not_true_is_false. intros E.
  rewrite drop_app_le in E by lia.
  destruct (drop j a) as [|c r] eqn:Ed.
  { apply (f_equal length) in Ed. rewrite length_drop in Ed. simpl in Ed. lia. }
  assert (startsWith ((c :: r) ++ take (length p - 1) b) p = true) as E'.
  { rewrite startsWith_take. rewrite startsWith_take in E.
    destruct p as [|x p]; [done|]. cbn [length] in *.
    replace (S (length p) - 1) with (length p) by lia.
    cbn [app take] in *.
    rewrite take_app in E. rewrite take_app, take_take.
    by replace ((length p - length r) `min` length p)
      with (length p - length r) by lia. }
  apply startsWith_includes in E'.
  apply (includes_app_r (take j a)) in E'.
  rewrite app_assoc, <- Ed, take_drop in E'. congruence.
Qed.

Lemma indexOf0_skip a b p :
  (∀ j, j < length a → startsWith (drop j (a ++ b)) p = false) →
  indexOf0 (a ++ b) p = (λ i, length a + i) <$> indexOf0 b p.
Proof.
  induction a as [|c a IH]; intros H.
  - cbn [app length]. by destruct (indexOf0 b p).
  - cbn [app indexOf0]. pose proof (H 0 ltac:(simpl; lia)) as H0.
    cbn [drop app] in H0. rewrite H0. rewrite IH.
    + by destruct (indexOf0 b p).
    + intros j Hj. apply (H (S j)). simpl. lia.
Qed.

Lemma indexOf_from x y p from :
  from = length x →
  indexOf (x ++ y) p from = (λ i, from + i) <$> indexOf0 y p.
Proof. intros ->. unfold indexOf. by rewrite drop_app_length. Qed.

Lemma includes_snoc2 a c c1 c2 :
  c ≠ c2 → includes (a ++ [c]) [c1; c2] = includes a [c1; c2].
Proof.
  intros Hc. assert ((c2 =? c)%N = false) as E by (apply N.eqb_neq; congruence).
  induction a as [|z a IH].
  - simpl. by rewrite ?andb_false_r.
  - cbn [app includes]. rewrite IH. f_equal.
    cbn [startsWith]. f_equal. destruct a as [|w a]; simpl; [|done].
    by rewrite E.
Qed.

Lemma snoc_opener a c :
  c ≠ Ch.star → includes (a ++ [c]) opener = includes a opener.
Proof. apply includes_snoc2. Qed.

Lemma snoc_closer a c :
  c ≠ Ch.slash → includes (a ++ [c]) closer = includes a closer.
Proof. apply includes_snoc2. Qed.

(** The index of the first occurrence. *)
Lemma indexOf0_first a b p :
  p ≠ [] → includes (a ++ take (length p - 1) (p ++ b)) p = false →
  indexOf0 (a ++ p ++ b) p = Some (length a).
Proof.
  intros Hp H. rewrite indexOf0_skip by (by apply no_start).
  destruct p as [|c p]; [done|]. cbn [app indexOf0].
  change (c :: p ++ b) with ((c :: p) ++ b). rewrite startsWith_self.
  simpl. f_equal. lia.
Qed.

Lemma first_opener pre y :
  includes pre opener = false →
  indexOf (pre ++ opener ++ y) opener 0 = Some (length pre).
Proof.
  intros H. unfold indexOf. rewrite drop_0.
  rewrite indexOf0_first; [done|done|].
  change (take _ _) with [Ch.slash].
  by rewrite snoc_opener.
Qed.

(** Behind [x], a body without opener and closer, then a closer: the closer
    is the next one, and no opener comes before it. *)
Lemma closes_first x body rest li :
  li = length x →
  includes body closer = false →
  includes (body ++ [Ch.star]) opener = false →
  indexOf (x ++ body ++ closer ++ rest) closer li = Some (li + length body)
  ∧ ∀ ns, indexOf (x ++ body ++ closer ++ rest) opener li = Some ns →
          li + length body ≤ ns.
Proof.
  intros Hli Hc Ho. split.
  - rewrite (indexOf_from x) by done. rewrite indexOf0_first; [done|done|].
    change (take _ _) with [Ch.star].
    by rewrite snoc_closer.
  - intros ns. rewrite (indexOf_from x) by done.
    rewrite indexOf0_skip by (by apply no_start).
    destruct (indexOf0 _ opener); [|done]. simpl. intros [= <-]. lia.
Qed.

(** *** The iterations, one by one *)

Lemma step_done ct li :
  indexOf ct opener li = None →
  blockStep {| content := ct; stack := []; lastIndex := li |} = inr ct.
Proof.
  intros E. unfold blockStep. cbn [content stack lastIndex]. by rewrite E.
Qed.

Lemma step_open ct li si :
  indexOf ct opener li = Some si →
  indexOf ct closer (si + 2) ≠ None →
  blockStep {| content := ct; stack := []; lastIndex := li |}
  = inl {| content := ct; stack := [si]; lastIndex := si + 2 |}.
Proof.
  intros E1 E2. unfold blockStep. cbn [content stack lastIndex]. rewrite E1.
  by destruct (indexOf ct closer (si + 2)).
Qed.

Lemma step_unclosed ct li si :
  indexOf ct opener li = Some si →
  indexOf ct closer (si + 2) = None →
  blockStep {| content := ct; stack := []; lastIndex := li |}
  = inr (trimEnd (slice ct 0 si) ++ [Ch.nl] ++ remainingCode (drop si ct)).
Proof.
  intros E1 E2. unfold blockStep. cbn [content stack lastIndex].
  by rewrite E1, E2.
Qed.

Lemma step_push ct bottom sk li ns ne :
  indexOf ct opener li = Some ns → indexOf ct closer li = Some ne →
  ns < ne →
  blockStep {| content := ct; stack := bottom :: sk; lastIndex := li |}
  = inl {| content := ct; stack := (bottom :: sk) ++ [ns];
           lastIndex := ns + 2 |}.
Proof.
  intros E1 E2 H. unfold blockStep. cbn [content stack lastIndex].
  rewrite E1, E2. apply Nat.ltb_lt in H. by rewrite H.
Qed.

Lemma step_pop ct bottom sk e li ne :
  indexOf ct closer li = Some ne →
  (∀ ns, indexOf ct opener li = Some ns → ne ≤ ns) →
  blockStep {| content := ct; stack := (bottom :: sk) ++ [e];
               lastIndex := li |}
  = inl {| content := ct; stack := bottom :: sk; lastIndex := ne + 2 |}.
Proof.
  intros E2 H. unfold blockStep. cbn [content stack lastIndex].
  rewrite E2.
  assert (match indexOf ct opener li with
          | Some nextStart => nextStart <? ne
          | None => false
          end = false) as ->.
  { destruct (indexOf ct opener li) as [ns|]; [|done].
    apply Nat.ltb_ge. by apply H. }
  cbn [app]. rewrite app_comm_cons, removelast_last. done.
Qed.

Lemma step_close ct e li ne :
  indexOf ct closer li = Some ne →
  (∀ ns, indexOf ct opener li = Some ns → ne ≤ ns) →
  blockStep {| content := ct; stack := [e]; lastIndex := li |}
  = inl {| content := trimEnd (slice ct 0 e) ++ drop (ne + 2) ct;
           stack := []; lastIndex := e |}.
Proof.
  intros E2 H. unfold blockStep. cbn [content stack lastIndex].
  rewrite E2.
  assert (match indexOf ct opener li with
          | Some nextStart => nextStart <? ne
          | None => false
          end = false) as ->.
  { destruct (indexOf ct opener li) as [ns|]; [|done].
    apply Nat.ltb_ge. by apply H. }
  done.
Qed.

(** The last iteration after a comment at [pre] is cut out: the search goes
    on from where the comment stood. *)
Lemma step_after pre post :
  includes post opener = false →
  blockStep {| content := trimEnd pre ++ post; stack := [];
               lastIndex := length pre |}
  = inr (trimEnd pre ++ post).
Proof.
  intros H. apply step_done. unfold indexOf.
  rewrite drop_app_ge by apply trimEnd_length.
  assert (includes (drop (length pre - length (trimEnd pre)) post) opener
          = false) as E.
  { rewrite <- (take_drop (length pre - length (trimEnd pre)) post) in H.
    by apply includes_false_app in H as [_ H]. }
  apply indexOf0_None in E. by rewrite E.
Qed.

(** *** Fuel *)

Lemma blockRun_more fuel fuel' st out :
  blockRun fuel st = Some out → fuel ≤ fuel' → blockRun fuel' st = Some out.
Proof.
  revert fuel' st. induction fuel as [|fuel IH]; intros fuel' st; [done|].
  destruct fuel' as [|fuel']; [lia|]. cbn [blockRun].
  destruct (blockStep st) as [st'|o]; [|done].
  intros H ?. apply (IH _ _ H). lia.
Qed.

Lemma blockRun_agree fuel fuel' st out out' :
  blockRun fuel st = Some out → blockRun fuel' st = Some out' → out = out'.
Proof.
  intros H H'. destruct (Nat.le_ge_cases fuel fuel') as [Hle|Hle].
  - apply (blockRun_more _ _ _ _ H) in Hle. congruence.
  - apply (blockRun_more _ _ _ _ H') in Hle. congruence.
Qed.

Lemma removeBlockComments_by fuel s out :
  blockRun fuel {| content := s; stack := []; lastIndex := 0 |} = Some out →
  removeBlockComments s = out.
Proof.
  intros H. symmetry.
  apply (blockRun_agree _ _ _ _ _ H (removeBlockComments_run s)).
Qed.

Lemma blockRun_step fuel st st' :
  blockStep st = inl st' → blockRun (S fuel) st = blockRun fuel st'.
Proof. intros H. cbn [blockRun]. by rewrite H. Qed.

Lemma blockRun_last fuel st out :
  blockStep st = inr out → blockRun (S fuel) st = Some out.
Proof. intros H. cbn [blockRun]. by rewrite H. Qed.

Lemma remainingCode_opener t :
  remainingCode (opener ++ t) = joinNl (tail (splitNl t)).
Proof.
  unfold remainingCode. change (opener ++ t) with (Ch.slash :: Ch.star :: t).
  cbn [splitNl]. change (Ch.slash =? Ch.nl)%N with false.
  change (Ch.star =? Ch.nl)%N with false. cbv iota.
  pose proof (split_nonnil t). by destruct (splitNl t).
Qed.

End block_comments.

(** X6.  The two loops over block comments come to an end on every text:
    for a text of n characters, within (n + 1) * (n + 3) iterations, and
    what they return is the result of the pass. *)
Theorem block_loops_end (s : text) (fuel : nat) :
  blockFuel s ≤ fuel →
  blockRun fuel {| content := s; stack := []; lastIndex := 0 |}
  = Some (removeBlockComments s).
Proof. apply blockRun_more, removeBlockComments_run. Qed.

Lemma block_loops_end_witness :
  blockRun 200 {| content := str "a /* b */ c"; stack := []; lastIndex := 0 |}
  = Some (removeBlockComments (str "a /* b */ c")).
Proof. apply block_loops_end. vm_compute. lia. Defined.

(** X7.  A block comment that is never closed: where the first opener of
    the text has no closer behind it, the pass leaves the text before the
    opener without its trailing white space, a newline, and the lines after
    the line of the opener as they are, other openers in them included. *)
Theorem unclosed_block_comment (pre rest : text) :
  includes pre (str "/*") = false →
  includes rest (str "*/") = false →
  removeBlockComments (pre ++ str "/*" ++ rest)
  = trimEnd pre ++ [Ch.nl] ++ joinNl (tail (splitNl rest)).
Proof.
  intros Hpre Hrest. apply (removeBlockComments_by 1).
  apply blockRun_last.
  rewrite (step_unclosed _ 0 (length pre)).
  - unfold slice. rewrite drop_0, Nat.sub_0_r, take_app_length.
    by rewrite drop_app_length, remainingCode_opener.
  - by apply first_opener.
  - rewrite app_assoc. rewrite (indexOf_from (pre ++ str "/*"));
      [|by rewrite length_app].
    apply indexOf0_None in Hrest. by rewrite Hrest.
Qed.

Lemma unclosed_block_comment_witness :
  removeBlockComments
    (str "a();  " ++ str "/*" ++ nls ["never closed"; "b(); /* c"]%string)
  = nls ["a();"; "b(); /* c"]%string.
Proof.
  apply (unclosed_block_comment (str "a();  ")
           (nls ["never closed"; "b(); /* c"]%string)); reflexivity.
Defined.

(** X8.  A block comment without an opener in it is cut out together with
    the white space before it: for a text before it without opener, a body
    without closer that forms no opener even with the star of the closer
    behind it, and a text behind it without opener, what is left is the
    text before without its trailing white space and then the text behind,
    also where the two put together form an opener. *)
Theorem block_comment_removed (pre body post : text) :
  includes pre (str "/*") = false →
  includes body (str "*/") = false →
  includes (body ++ [Ch.star]) (str "/*") = false →
  includes post (str "/*") = false →
  removeBlockComments (pre ++ str "/*" ++ body ++ str "*/" ++ post)
  = trimEnd pre ++ post.
Proof.
  intros Hpre Hbc Hbo Hpost. apply (removeBlockComments_by 3).
  set (ct := pre ++ str "/*" ++ body ++ str "*/" ++ post).
  assert (ct = (pre ++ str "/*") ++ body ++ str "*/" ++ post) as Ect
    by (unfold ct; by rewrite <- app_assoc).
  assert (length pre + 2 = length (pre ++ str "/*")) as El
    by (by rewrite length_app).
  destruct (closes_first (pre ++ str "/*") body post (length pre + 2)
              El Hbc Hbo) as [Hne Hns].
  rewrite <- Ect in Hne, Hns.
  rewrite (blockRun_step _ _ _ (step_open ct 0 (length pre)
             (first_opener pre _ Hpre) ltac:(by rewrite Hne))).
  rewrite (blockRun_step _ _ _ (step_close ct _ _ _ Hne Hns)).
  assert (trimEnd (slice ct 0 (length pre))
            ++ drop (length pre + 2 + length body + 2) ct
          = trimEnd pre ++ post) as ->.
  { unfold slice, ct. rewrite drop_0, Nat.sub_0_r, take_app_length. f_equal.
    rewrite !app_assoc. apply drop_app_length'.
    rewrite !length_app. change (length (str "/*")) with 2.
    change (length (str "*/")) with 2. lia. }
  apply blockRun_last. by apply step_after.
Qed.

Lemma block_comment_removed_witness :
  removeBlockComments
    (str "int a;  " ++ str "/*" ++ str " old: / * " ++ str "*/"
       ++ str " int b;")
  = str "int a; int b;".
Proof.
  apply (block_comment_removed (str "int a;  ") (str " old: / * ")
           (str " int b;")); reflexivity.
Defined.

(** X9.  A block comment with one block comment nested in it is cut out as
    a whole, with the white space before it.  The texts before and behind
    the comment hold no opener.  The text [a] between the two openers holds
    no opener and no closer and does not end in a star.  The text [b] of the
    inner comment and the text [c] behind it each hold no opener and no
    closer and do not end in a slash. *)
Theorem nested_comment_removed (pre a b c post : text) :
  includes pre (str "/*") = false →
  includes a (str "/*") = false →
  includes (a ++ [Ch.slash]) (str "*/") = false →
  includes b (str "*/") = false →
  includes (b ++ [Ch.star]) (str "/*") = false →
  includes c (str "*/") = false →
  includes (c ++ [Ch.star]) (str "/*") = false →
  includes post (str "/*") = false →
  removeBlockComments
    (pre ++ str "/*" ++ a ++ str "/*" ++ b ++ str "*/" ++ c ++ str "*/"
       ++ post)
  = trimEnd pre ++ post.
Proof.
  intros Hpre Hao Hac Hbc Hbo Hcc Hco Hpost.
  apply (removeBlockComments_by 5).
  set (r3 := c ++ str "*/" ++ post).
  set (r2 := b ++ str "*/" ++ r3).
  set (r1 := a ++ str "/*" ++ r2).
  set (ct := pre ++ str "/*" ++ r1).
  set (l1 := length pre + 2).
  set (l2 := l1 + length a + 2).
  set (l3 := l2 + length b + 2).
  assert (ct = (pre ++ str "/*") ++ r1) as E1
    by (unfold ct; by rewrite <- app_assoc).
  assert (l1 = length (pre ++ str "/*")) as L1 by (by rewrite length_app).
  assert (ct = (pre ++ str "/*" ++ a ++ str "/*") ++ r2) as E2
    by (unfold ct, r1; by rewrite <- !app_assoc).
  assert (l2 = length (pre ++ str "/*" ++ a ++ str "/*")) as L2.
  { unfold l2, l1. rewrite !length_app. change (length (str "/*")) with 2.
    lia. }
  assert (ct = (pre ++ str "/*" ++ a ++ str "/*" ++ b ++ str "*/") ++ r3)
    as E3 by (unfold ct, r1, r2; by rewrite <- !app_assoc).
  assert (l3 = length (pre ++ str "/*" ++ a ++ str "/*" ++ b ++ str "*/"))
    as L3.
  { unfold l3, l2, l1. rewrite !length_app. change (length (str "/*")) with 2.
    change (length (str "*/")) with 2. lia. }
  (* the inner opener is the next one, and comes before the next closer *)
  assert (indexOf ct (str "/*") l1 = Some (l1 + length a)) as Hns.
  { rewrite E1, (indexOf_from _ _ _ l1) by done. unfold r1.
    rewrite indexOf0_first; [done|done|].
    change (take _ _) with [Ch.slash].
    by rewrite snoc_opener. }
  assert (∃ k, indexOf ct (str "*/") l1 = Some (l1 + (length a + 1 + k)))
    as [k Hne].
  { rewrite E1, (indexOf_from _ _ _ l1) by done. unfold r1.
    change (str "/*" ++ r2) with ([Ch.slash] ++ Ch.star :: r2).
    rewrite app_assoc, indexOf0_skip.
    - destruct (indexOf0 (Ch.star :: r2) (str "*/")) as [k|] eqn:Ek.
      + exists k. simpl. by rewrite length_app.
      + apply indexOf0_None in Ek. exfalso.
        assert (includes (Ch.star :: r2) (str "*/") = true); [|congruence].
        apply (includes_app_r [Ch.star]). unfold r2. apply includes_spec.
        by exists b, r3.
    - apply no_start. change (take _ _) with [Ch.star].
      by rewrite snoc_closer. }
  destruct (closes_first _ b r3 l2 L2 Hbc Hbo) as [Hne2 Hns2].
  fold r2 in Hne2, Hns2. rewrite <- E2 in Hne2, Hns2.
  destruct (closes_first _ c post l3 L3 Hcc Hco) as [Hne3 Hns3].
  fold r3 in Hne3, Hns3. rewrite <- E3 in Hne3, Hns3.
  rewrite (blockRun_step _ _ _ (step_open ct 0 (length pre)
             (first_opener pre _ Hpre) ltac:(by fold l1; rewrite Hne))).
  fold l1.
  rewrite (blockRun_step _ _ _ (step_push ct _ [] l1 _ _ Hns Hne
             ltac:(lia))).
  replace (l1 + length a + 2) with l2 by done.
  rewrite (blockRun_step _ _ _ (step_pop ct _ [] _ l2 _ Hne2 Hns2)).
  replace (l2 + length b + 2) with l3 by done.
  rewrite (blockRun_step _ _ _ (step_close ct _ l3 _ Hne3 Hns3)).
  assert (trimEnd (slice ct 0 (length pre)) ++ drop (l3 + length c + 2) ct
          = trimEnd pre ++ post) as ->.
  { unfold slice. rewrite drop_0, Nat.sub_0_r. unfold ct at 1.
    rewrite take_app_length. f_equal. rewrite E3. unfold r3.
    rewrite !app_assoc. apply drop_app_length'. rewrite L3.
    rewrite !length_app. change (length (str "*/")) with 2. lia. }
  apply blockRun_last. by apply step_after.
Qed.

Lemma nested_comment_removed_witness :
  removeBlockComments
    (str "x; " ++ str "/*" ++ str " a " ++ str "/*" ++ str " b " ++ str "*/"
       ++ str " c " ++ str "*/" ++ str "y;")
  = str "x;y;".
Proof.
  apply (nested_comment_removed (str "x; ") (str " a ") (str " b ")
           (str " c ") (str "y;")); reflexivity.
Defined.

(** ** More on string literals *)

Section literal_bodies.

Implicit Types (s p a b t x y : text) (c d q : N) (us : list bodyUnit).

Lemma isQuote_not_backslash q : isQuote q → (Ch.backslash =? q)%N = false.
Proof. by intros [-> | ->]. Qed.

Lemma quotedBody_units q us t :
  isQuote q → Forall (unitOf q) us →
  quotedBody q (bodyText us ++ q :: t) = Some (S (length (bodyText us))).
Proof.
  intros Hq. induction 1 as [|u us Hu _ IH].
  - cbn [bodyText map concat app quotedBody length]. by rewrite N.eqb_refl.
  - unfold bodyText in *. cbn [map concat]. destruct u as [c|d].
    + destruct Hu as [Hc Hb]. cbn [unitText app quotedBody length].
      apply N.eqb_neq in Hc, Hb. rewrite Hc, Hb, IH. done.
    + cbn [unitOf] in Hu. cbn [unitText app quotedBody length].
      rewrite isQuote_not_backslash, N.eqb_refl, Hu, IH by done. done.
Qed.

Lemma bodyText_head q us t :
  isQuote q → Forall (unitOf q) us → us ≠ [] →
  head (bodyText us ++ q :: t) ≠ Some q.
Proof.
  intros Hq Hus Hn. destruct us as [|u us]; [done|].
  inversion Hus as [|? ? Hu _]; subst. unfold bodyText. cbn [map concat].
  destruct u as [c|d]; cbn [unitText app head].
  - destruct Hu as [Hc _]. congruence.
  - destruct Hq as [-> | ->]; discriminate.
Qed.

Lemma literalAt_units q us t :
  isQuote q → Forall (unitOf q) us → us ≠ [] →
  literalAt (q :: bodyText us ++ q :: t)
  = Some (length (bodyText us) + 2).
Proof.
  intros Hq Hus Hn.
  pose proof (bodyText_head q us t Hq Hus Hn) as Hh.
  pose proof (quotedBody_units q us t Hq Hus) as Hb.
  assert (∀ q', isQuote q' →
            tripleQuoted q' (q :: bodyText us ++ q :: t) = None) as Ht.
  { intros q' Hq'. destruct (decide (q' = q)) as [->|Hne].
    - by apply tripleQuoted_second.
    - apply tripleQuoted_head. cbn [head]. congruence. }
  unfold literalAt. rewrite !Ht by (first [by left | by right]). cbn [orElse].
  replace (length (bodyText us) + 2) with (S (S (length (bodyText us))))
    by lia.
  destruct Hq as [-> | ->].
  - unfold singleQuoted at 1. rewrite N.eqb_refl, Hb. done.
  - rewrite (singleQuoted_head Ch.squote) by done. cbn [orElse].
    unfold singleQuoted. rewrite N.eqb_refl, Hb. done.
Qed.

(** A backslash before a line terminator ends the search for the closing
    quote. *)
Lemma quotedBody_broken q us d t :
  isQuote q → Forall (unitOf q) us → isLineTerminator d = true →
  quotedBody q (bodyText us ++ Ch.backslash :: d :: t) = None.
Proof.
  intros Hq Hus Hd. induction Hus as [|u us Hu _ IH].
  - cbn [bodyText map concat app quotedBody].
    by rewrite isQuote_not_backslash, N.eqb_refl, Hd.
  - unfold bodyText in *. cbn [map concat]. destruct u as [c|e].
    + destruct Hu as [Hc Hb]. cbn [unitText app quotedBody].
      apply N.eqb_neq in Hc, Hb. by rewrite Hc, Hb, IH.
    + cbn [unitOf] in Hu. cbn [unitText app quotedBody].
      by rewrite isQuote_not_backslash, N.eqb_refl, Hu, IH.
Qed.

End literal_bodies.

(** X10.  An escaped character does not end a string literal: behind a
    quote, a body of characters other than that quote and the backslash and
    of backslashes each with a character that is no line terminator, and
    then the same quote, are one match of the string expression, with and
    without an [r] before the opening quote. *)
Theorem escapes_in_literal (q : N) (us : list bodyUnit) (t : text)
  (prev : option N) :
  isQuote q → Forall (unitOf q) us → us ≠ [] →
  re_string prev (q :: bodyText us ++ q :: t)
  = Some (length (q :: bodyText us ++ [q]))
  ∧ re_string prev (Ch.r :: q :: bodyText us ++ q :: t)
    = Some (length (Ch.r :: q :: bodyText us ++ [q])).
Proof.
  intros Hq Hus Hn. cbn [length]. rewrite length_app. cbn [length].
  unfold re_string. rewrite isQuote_not_r by done. rewrite N.eqb_refl.
  rewrite literalAt_units by done. split.
  - f_equal. lia.
  - cbn [fmap option_fmap option_map]. f_equal. lia.
Qed.

Lemma escapes_in_literal_witness :
  re_string None
    (Ch.squote :: bodyText [Char 97; Escaped Ch.squote; Escaped Ch.backslash]
       ++ Ch.squote :: str "; // c")
  = Some 7
  ∧ re_string None
      (Ch.r :: Ch.squote
         :: bodyText [Char 97; Escaped Ch.squote; Escaped Ch.backslash]
         ++ Ch.squote :: str "; // c")
    = Some 8.
Proof.
  apply (escapes_in_literal Ch.squote
           [Char 97; Escaped Ch.squote; Escaped Ch.backslash]%N
           (str "; // c") None).
  - by left.
  - repeat constructor; discriminate.
  - discriminate.
Defined.

(** X11.  A backslash before a line terminator breaks a literal: where the
    body behind a quote reaches such a backslash before it reaches the
    closing quote, the string expression does not match at that quote. *)
Theorem broken_escape_in_literal (q d : N) (us : list bodyUnit) (t : text)
  (prev : option N) :
  isQuote q → Forall (unitOf q) us → isLineTerminator d = true →
  re_string prev (q :: bodyText us ++ Ch.backslash :: d :: t) = None.
Proof.
  intros Hq Hus Hd. unfold re_string. rewrite isQuote_not_r by done.
  pose proof (quotedBody_broken q us d t Hq Hus Hd) as Hb.
  assert (head (bodyText us ++ Ch.backslash :: d :: t) ≠ Some q) as Hh.
  { destruct us as [|u us]; cbn.
    - destruct Hq as [-> | ->]; discriminate.
    - inversion Hus as [|? ? Hu _]; subst. destruct u as [c|e]; cbn.
      + destruct Hu as [Hc _]. congruence.
      + destruct Hq as [-> | ->]; discriminate. }
  assert (∀ q', isQuote q' →
            tripleQuoted q' (q :: bodyText us ++ Ch.backslash :: d :: t)
            = None) as Ht.
  { intros q' Hq'. destruct (decide (q' = q)) as [->|Hne].
    - by apply tripleQuoted_second.
    - apply tripleQuoted_head. cbn [head]. congruence. }
  unfold literalAt. rewrite !Ht by (first [by left | by right]). cbn [orElse].
  destruct Hq as [-> | ->].
  - unfold singleQuoted at 1. rewrite N.eqb_refl, Hb.
    cbn [fmap option_fmap option_map orElse]. by apply singleQuoted_head.
  - rewrite (singleQuoted_head Ch.squote) by done. cbn [orElse].
    unfold singleQuoted. by rewrite N.eqb_refl, Hb.
Qed.

Lemma broken_escape_in_literal_witness :
  re_string None
    (Ch.dquote :: bodyText [Char 97] ++ Ch.backslash :: Ch.nl :: str "b")
  = None.
Proof.
  apply (broken_escape_in_literal Ch.dquote Ch.nl [Char 97]%N (str "b") None).
  - by right.
  - repeat constructor; discriminate.
  - reflexivity.
Defined.

(** X12.  A literal between triple quotes runs to the first closing triple,
    over quotes, backslashes and newlines alike: behind three quotes, a
    body in which no three of them stand together, also not with two more
    behind it, and then three quotes are one match of the string
    expression, with and without an [r] before the opening quotes. *)
Theorem triple_quoted_literal (q : N) (body t : text) (prev : option N) :
  isQuote q →
  includes (body ++ [q; q]) [q; q; q] = false →
  re_string prev ([q; q; q] ++ body ++ [q; q; q] ++ t)
  = Some (length ([q; q; q] ++ body ++ [q; q; q]))
  ∧ re_string prev (Ch.r :: [q; q; q] ++ body ++ [q; q; q] ++ t)
    = Some (length (Ch.r :: [q; q; q] ++ body ++ [q; q; q])).
Proof.
  intros Hq Hb.
  assert (literalAt ([q; q; q] ++ body ++ [q; q; q] ++ t)
          = Some (3 + length body + 3)) as E.
  { assert (tripleQuoted q ([q; q; q] ++ body ++ [q; q; q] ++ t)
            = Some (3 + length body + 3)) as Et.
    { unfold tripleQuoted. rewrite startsWith_self.
      change (drop 3 ([q; q; q] ++ body ++ [q; q; q] ++ t))
        with (body ++ [q; q; q] ++ t).
      by rewrite indexOf0_first. }
    unfold literalAt. destruct Hq as [-> | ->].
    - rewrite (tripleQuoted_head Ch.dquote) by done. cbn [orElse].
      by rewrite Et.
    - by rewrite Et. }
  cbn [length]. rewrite !length_app. cbn [length].
  split.
  - change ([q; q; q] ++ body ++ [q; q; q] ++ t)
      with (q :: ([q; q] ++ body ++ [q; q; q] ++ t)) in *.
    cbn [re_string]. rewrite isQuote_not_r by done. rewrite E.
    f_equal; lia.
  - cbn [re_string]. rewrite N.eqb_refl, E.
    cbn [fmap option_fmap option_map]. f_equal; lia.
Qed.

Lemma triple_quoted_literal_witness :
  re_string None
    ([Ch.squote; Ch.squote; Ch.squote] ++ nls ["it's // a"; "/* b"]%string
       ++ [Ch.squote; Ch.squote; Ch.squote] ++ str ";")
  = Some 20
  ∧ re_string None
      (Ch.r :: [Ch.squote; Ch.squote; Ch.squote]
         ++ nls ["it's // a"; "/* b"]%string
         ++ [Ch.squote; Ch.squote; Ch.squote] ++ str ";")
    = Some 21.
Proof.
  apply (triple_quoted_literal Ch.squote (nls ["it's // a"; "/* b"]%string)
           (str ";") None).
  - by left.
  - reflexivity.
Defined.

(** ** More on placeholders and the table of preserved strings *)

Section placeholders.

Implicit Types (s p a b t x y m : text) (c d : N) (i : N) (k : nat)
  (st : strings) (pcs : list piece) (T : gmap text text).

(** *** Decimal numerals *)

Lemma uint_text_inj (u v : Decimal.uint) : uint_text u = uint_text v → u = v.
Proof.
  revert v. induction u; intros v; destruct v; cbn [uint_text];
    intros H; try done; injection H as H; f_equal; by auto.
Qed.

Lemma decimal_inj i j : decimal i = decimal j → i = j.
Proof.
  unfold decimal. intros H%uint_text_inj.
  by rewrite <- (DecimalN.Unsigned.of_to i), H, DecimalN.Unsigned.of_to.
Qed.

Lemma uint_text_digits (u : Decimal.uint) :
  Forall (λ c, isDigit c = true) (uint_text u).
Proof. induction u; cbn [uint_text]; by constructor. Qed.

Lemma decimal_nonnil i : decimal i ≠ [].
Proof.
  unfold decimal. destruct i as [|q]; [done|]. cbn [N.to_uint].
  pose proof (DecimalPos.Unsigned.to_uint_nonnil q) as H.
  by destruct (Pos.to_uint q).
Qed.

(** *** What the replacement of the literals leaves in the table *)

Lemma protect_plain_cons st c pcs :
  protect st (Plain c :: pcs)
  = ((protect st pcs).1, c :: (protect st pcs).2).
Proof. cbn [protect]. by destruct (protect st pcs). Qed.

Lemma protect_hole st m pcs :
  includes m (str "${") = true →
  protect st (Hit m :: pcs)
  = ((protect st pcs).1, interpolated m ++ (protect st pcs).2).
Proof.
  intros H. cbn [protect]. unfold onString. rewrite H.
  by destruct (protect st pcs).
Qed.

Lemma protect_literal st m pcs :
  includes m (str "${") = false →
  let st1 := {| stringIndex := stringIndex st + 1;
                preservedStrings :=
                  <[decimal (stringIndex st) := m]> (preservedStrings st) |} in
  protect st (Hit m :: pcs)
  = ((protect st1 pcs).1, placeholder (stringIndex st) ++ (protect st1 pcs).2).
Proof.
  intros H. cbn [protect]. unfold onString. rewrite H.
  by destruct (protect _ pcs).
Qed.

Lemma protectedOf_hole m pcs :
  includes m (str "${") = true → protectedOf (Hit m :: pcs) = protectedOf pcs.
Proof. intros H. unfold protectedOf. cbn [omap list_omap]. by rewrite H. Qed.

Lemma protectedOf_literal m pcs :
  includes m (str "${") = false →
  protectedOf (Hit m :: pcs) = m :: protectedOf pcs.
Proof. intros H. unfold protectedOf. cbn [omap list_omap]. by rewrite H. Qed.

Lemma protect_index st pcs :
  stringIndex (protect st pcs).1
  = (stringIndex st + N.of_nat (length (protectedOf pcs)))%N.
Proof.
  revert st. induction pcs as [|[c|m] pcs IH]; intros st.
  - cbn. lia.
  - rewrite protect_plain_cons. cbn [fst]. apply IH.
  - destruct (includes m (str "${")) eqn:E.
    + rewrite protect_hole, protectedOf_hole by done. apply IH.
    + rewrite protect_literal, protectedOf_literal by done. cbn [fst].
      rewrite IH. cbn [stringIndex length]. lia.
Qed.

Lemma protect_other st pcs key :
  (∀ k, k < length (protectedOf pcs) →
        key ≠ decimal (stringIndex st + N.of_nat k)) →
  preservedStrings (protect st pcs).1 !! key = preservedStrings st !! key.
Proof.
  revert st. induction pcs as [|[c|m] pcs IH]; intros st H.
  - done.
  - rewrite protect_plain_cons. cbn [fst]. by apply IH.
  - destruct (includes m (str "${")) eqn:E.
    + rewrite protect_hole by done. rewrite protectedOf_hole in H by done.
      by apply IH.
    + rewrite protect_literal by done.
      rewrite protectedOf_literal in H by done. cbn [fst].
      rewrite IH.
      * cbn [preservedStrings]. apply lookup_insert_ne.
        specialize (H 0 ltac:(simpl; lia)). rewrite N.add_0_r in H. done.
      * intros k Hk. cbn [stringIndex].
        specialize (H (S k) ltac:(simpl; lia)).
        by replace (stringIndex st + 1 + N.of_nat k)%N
          with (stringIndex st + N.of_nat (S k))%N by lia.
Qed.

Lemma protect_entry st pcs k m :
  protectedOf pcs !! k = Some m →
  preservedStrings (protect st pcs).1
    !! decimal (stringIndex st + N.of_nat k)
  = Some m.
Proof.
  revert st k. induction pcs as [|[c|m0] pcs IH]; intros st k H.
  - done.
  - rewrite protect_plain_cons. cbn [fst]. by apply IH.
  - destruct (includes m0 (str "${")) eqn:E.
    + rewrite protect_hole by done. rewrite protectedOf_hole in H by done.
      by apply IH.
    + rewrite protect_literal by done.
      rewrite protectedOf_literal in H by done. cbn [fst].
      destruct k as [|k].
      * injection H as ->. rewrite protect_other.
        -- cbn [preservedStrings]. rewrite N.add_0_r. apply lookup_insert_eq.
        -- intros k _ Hk%decimal_inj. cbn [stringIndex] in Hk. lia.
      * cbn [lookup list_lookup] in H.
        replace (stringIndex st + N.of_nat (S k))%N
          with (stringIndex st + 1 + N.of_nat k)%N by lia.
        by apply (IH {| stringIndex := stringIndex st + 1;
                        preservedStrings := _ |}).
Qed.

(** *** What the restoration finds *)

Lemma pieces_concat (re : regex) prev k s :
  concat (map (fill (λ m, m)) (pieces re prev k s)) = drop k s.
Proof.
  revert prev k. induction s as [|c s IH]; intros prev k.
  - by rewrite drop_nil.
  - destruct k as [|k]; cbn [pieces]; [|apply IH].
    destruct (re prev (c :: s)) as [[|n]|]; cbn [map concat fill app].
    + by rewrite IH.
    + rewrite IH. cbn [take app]. by rewrite take_drop.
    + by rewrite IH.
Qed.

Lemma pieces_match (re : regex) prev m t :
  m ≠ [] → re prev (m ++ t) = Some (length m) →
  ∃ prev', pieces re prev 0 (m ++ t) = Hit m :: pieces re prev' 0 t.
Proof.
  intros Hm H. destruct m as [|c m]; [done|].
  cbn [app length] in *. cbn [pieces]. rewrite H.
  destruct (pieces_skip re (Some c) (length m) (m ++ t)) as [prev' ->].
  exists prev'. cbn [take]. by rewrite take_app_length, drop_app_length.
Qed.

Lemma placeholder_overlap i k t :
  0 < k → k < length sentinel →
  startsWith (placeholder i ++ t) (drop k sentinel) = false.
Proof.
  intros H0 Hk.
  do 17 (destruct k as [|k]; [first [lia|reflexivity]|]).
  simpl in Hk. lia.
Qed.

Lemma placeholder_head i t : head (placeholder i ++ t) = Some 80%N.
Proof. reflexivity. Qed.

Lemma re_placeholder_at prev i t :
  (∀ d, head t = Some d → isDigit d = false) →
  re_placeholder prev (placeholder i ++ t) = Some (length (placeholder i)).
Proof.
  intros Hd. unfold re_placeholder, placeholder.
  rewrite <- app_assoc, startsWith_self.
  rewrite (drop_app_length' sentinel _ 17) by done.
  assert (takeWhile isDigit (decimal i ++ t) = decimal i) as ->.
  { destruct t as [|d t].
    - rewrite app_nil_r. rewrite <- (app_nil_r (decimal i)) at 1.
      rewrite takeWhile_all by apply uint_text_digits. by rewrite app_nil_r.
    - apply takeWhile_until; [apply uint_text_digits|by apply Hd]. }
  pose proof (decimal_nonnil i). rewrite length_app.
  by destruct (decimal i).
Qed.

(** The text that the pieces stand for. *)
Local Abbreviation rawcat pcs := (concat (map (fill (λ m, m)) pcs)).

Lemma holeFree_cons_hit m pcs :
  holeFree (Hit m :: pcs) = true ↔
  includes m (str "${") = false ∧ holeFree pcs = true.
Proof.
  unfold holeFree. cbn [forallb]. rewrite andb_true_iff, negb_true_iff. done.
Qed.

(** A tail of the sentinel in front of the output is one in front of the
    input, unless the output starts with a placeholder. *)
Lemma sentinel_tail st pcs k :
  holeFree pcs = true →
  (∀ m r, pcs = Hit m :: r → 0 < k) →
  startsWith (protect st pcs).2 (drop k sentinel) = true →
  startsWith (rawcat pcs) (drop k sentinel) = true.
Proof.
  revert st k. induction pcs as [|[c|m] pcs IH]; intros st k Hf Hk.
  - done.
  - rewrite protect_plain_cons. cbn [snd map concat fill app].
    destruct (sentinel !! k) as [x|] eqn:Ex.
    + rewrite (drop_S _ _ _ Ex). cbn [startsWith].
      intros [-> H]%andb_true_iff. apply andb_true_iff. split; [done|].
      apply (IH st (S k)); [done| intros; lia |done].
    + apply lookup_ge_None in Ex. by rewrite drop_ge.
  - apply holeFree_cons_hit in Hf as [Hm Hf].
    rewrite protect_literal by done. cbn [snd].
    specialize (Hk m pcs eq_refl).
    destruct (sentinel !! k) as [x|] eqn:Ex.
    + apply lookup_lt_Some in Ex. by rewrite placeholder_overlap.
    + apply lookup_ge_None in Ex. by rewrite drop_ge.
Qed.

Lemma output_head st m pcs :
  holeFree pcs = true → noDigitBehind (Hit m :: pcs) = true →
  ∀ d, head (protect st pcs).2 = Some d → isDigit d = false.
Proof.
  intros Hf Hn d. destruct pcs as [|[c|m'] pcs].
  - done.
  - rewrite protect_plain_cons. cbn [snd head]. intros [= <-].
    cbn [noDigitBehind] in Hn. apply andb_true_iff in Hn as [Hn _].
    by apply negb_true_iff.
  - apply holeFree_cons_hit in Hf as [Hm Hf].
    rewrite protect_literal by done. cbn [snd].
    rewrite placeholder_head. by intros [= <-].
Qed.

Lemma restore_pieces T pcs st prev :
  holeFree pcs = true → noDigitBehind pcs = true →
  includes (rawcat pcs) sentinel = false →
  (∀ k m, protectedOf pcs !! k = Some m →
          T !! decimal (stringIndex st + N.of_nat k) = Some m) →
  concat (map (fill (λ m, match T !! drop 17 m with
                          | Some s => s
                          | None => str "undefined"
                          end))
            (pieces re_placeholder prev 0 (protect st pcs).2))
  = rawcat pcs.
Proof.
  revert st prev. induction pcs as [|[c|m] pcs IH]; intros st prev Hf Hn Hi HT.
  - done.
  - rewrite protect_plain_cons. cbn [snd map concat fill app] in *.
    rewrite pieces_miss.
    + cbn [map concat fill app]. f_equal.
      apply IH; [done|done| |done].
      by apply includes_cons_false in Hi as [_ Hi].
    + unfold re_placeholder.
      destruct (startsWith (c :: (protect st pcs).2) sentinel) eqn:E; [|done].
      exfalso. apply includes_cons_false in Hi as [Hi _].
      assert (startsWith (rawcat (Plain c :: pcs)) (drop 0 sentinel) = true)
        as H.
      { apply (sentinel_tail st); [done| intros ? ? [=] |].
        by rewrite protect_plain_cons, drop_0. }
      rewrite drop_0 in H. cbn [map concat fill app] in H. congruence.
  - pose proof Hf as Hf'. apply holeFree_cons_hit in Hf' as [Hm Hf'].
    rewrite protect_literal by done. cbn [snd].
    destruct (pieces_match re_placeholder prev (placeholder (stringIndex st))
                (protect {| stringIndex := stringIndex st + 1;
                            preservedStrings :=
                              <[decimal (stringIndex st) := m]>
                                (preservedStrings st) |} pcs).2)
      as [prev' ->].
    { intros H%(f_equal length). unfold placeholder in H.
      rewrite length_app in H. change (length sentinel) with 17 in H.
      simpl in H. lia. }
    { apply re_placeholder_at. by apply (output_head _ m). }
    cbn [map concat fill]. f_equal.
    + unfold placeholder. rewrite (drop_app_length' sentinel _ 17) by done.
      rewrite protectedOf_literal in HT by done.
      specialize (HT 0 m eq_refl). rewrite N.add_0_r in HT. by rewrite HT.
    + apply IH.
      * done.
      * cbn [noDigitBehind] in Hn. by apply andb_true_iff in Hn as [_ Hn].
      * by apply includes_false_app in Hi as [_ Hi].
      * intros k m' Hk. cbn [stringIndex].
        rewrite protectedOf_literal in HT by done.
        specialize (HT (S k) m' Hk).
        by replace (stringIndex st + 1 + N.of_nat k)%N
          with (stringIndex st + N.of_nat (S k))%N by lia.
Qed.

End placeholders.

(** X13.  What a file leaves in the table of preserved strings: the counter
    ends at the number of the literals of the file that have no hole, the
    table holds these literals at the numerals 0, 1, 2, ... in the order of
    the text, and every other entry of the table is as it was before the
    file, entries of earlier files with greater numbers among them. *)
Theorem table_after_file (preserved : gmap text text) (content : text) :
  let st := (protectStrings preserved content).1 in
  stringIndex st = N.of_nat (length (literals content))
  ∧ (∀ k m, literals content !! k = Some m →
            preservedStrings st !! decimal (N.of_nat k) = Some m)
  ∧ (∀ key, (∀ k, k < length (literals content) →
                  key ≠ decimal (N.of_nat k)) →
            preservedStrings st !! key = preserved !! key).
Proof.
  unfold protectStrings, literals. cbv zeta. split; [|split].
  - by rewrite protect_index.
  - intros k m H.
    by apply (protect_entry {| stringIndex := 0; preservedStrings := _ |}).
  - intros key H.
    by apply (protect_other {| stringIndex := 0; preservedStrings := _ |}).
Qed.

(** X14.  Replacing the literals by placeholders and restoring them gives
    the text back: for a text that nowhere holds the sentinel, in which no
    literal has a hole and no literal is followed by a digit at once, the
    restoration, with the table that the replacement leaves, turns the text
    with the placeholders into the text itself, whatever the table held
    before. *)
Theorem placeholders_restored (preserved : gmap text text) (content : text) :
  includes content sentinel = false →
  holeFree (pieces re_string None 0 content) = true →
  noDigitBehind (pieces re_string None 0 content) = true →
  restoreStrings (preservedStrings (protectStrings preserved content).1)
    (protectStrings preserved content).2
  = content.
Proof.
  intros Hi Hf Hn. unfold restoreStrings, replace, protectStrings.
  rewrite restore_pieces.
  - by rewrite pieces_concat.
  - done.
  - done.
  - by rewrite pieces_concat.
  - intros k m H.
    by apply (protect_entry {| stringIndex := 0; preservedStrings := _ |}).
Qed.

Lemma placeholders_restored_witness :
  restoreStrings
    (preservedStrings
       (protectStrings ∅ (str "f('a // b', r'c', x); // d")).1)
    (protectStrings ∅ (str "f('a // b', r'c', x); // d")).2
  = str "f('a // b', r'c', x); // d".
Proof.
  apply (placeholders_restored ∅ (str "f('a // b', r'c', x); // d"));
    reflexivity.
Defined.

(** ** More on the holes of a literal *)

Section plain_holes.

Implicit Types (s p a b t x y e r : text) (c d : N)
  (preserved : gmap text text).

Lemma includes_elem_of s p c : includes s (c :: p) = true → c ∈ s.
Proof.
  intros (a & b & ->)%includes_spec. apply elem_of_app. right.
  apply list_elem_of_here.
Qed.

Lemma includes_without s p c : c ∉ s → includes s (c :: p) = false.
Proof.
  intros H. apply not_true_is_false. intros E. by apply includes_elem_of in E.
Qed.

Lemma trim_part s : ∃ a b, s = a ++ trim s ++ b.
Proof.
  unfold trim, trimStart. exists (takeWhile isSpace s).
  destruct (trimEnd_split (dropWhile isSpace s)) as (w & _ & E).
  exists w. by rewrite <- E, takeWhile_dropWhile.
Qed.

Lemma trim_elem_of s c : c ∈ trim s → c ∈ s.
Proof.
  destruct (trim_part s) as (a & b & E). intros H. rewrite E.
  apply elem_of_app. right. apply elem_of_app. by left.
Qed.

Lemma trim_includes s p : includes s p = false → includes (trim s) p = false.
Proof.
  destruct (trim_part s) as (a & b & E). intros H. rewrite E in H.
  apply includes_false_app in H as [_ H].
  by apply includes_false_app in H as [H _].
Qed.

Lemma holeLiteral_shape e :
  holeLiteral e = Ch.squote :: (str "${" ++ e ++ str "}") ++ [Ch.squote].
Proof. unfold holeLiteral. rewrite <- !app_assoc. done. Qed.

Lemma re_string_holeLiteral prev e :
  Ch.squote ∉ e → Ch.backslash ∉ e →
  re_string prev (holeLiteral e) = Some (length (holeLiteral e)).
Proof.
  intros Hq Hb. rewrite holeLiteral_shape.
  cbn [re_string]. change (Ch.squote =? Ch.r)%N with false. cbv iota.
  unfold literalAt.
  rewrite tripleQuoted_head by done.
  rewrite tripleQuoted_second by done.
  cbn [orElse singleQuoted]. rewrite N.eqb_refl.
  rewrite quotedBody_plain.
  - cbn [fmap option_fmap option_map orElse]. f_equal.
    cbn [length]. rewrite !length_app. simpl. lia.
  - rewrite !not_elem_of_app. repeat split; [notin|done|notin].
  - rewrite !not_elem_of_app. repeat split; [notin|done|notin].
Qed.

Lemma plainHole_line e :
  Ch.nl ∉ e →
  plainHole false (str "${" ++ e ++ str "}")
  = str "${" ++ trim (cleanExpr e) ++ str "}".
Proof.
  intros Hn. unfold plainHole. rewrite holeExpr_hole. cbv zeta iota.
  by rewrite (includes_without e [] Ch.nl).
Qed.

Lemma interpolated_holeLiteral e :
  e ≠ [] → Ch.rbrace ∉ e → Ch.nl ∉ e →
  interpolated (holeLiteral e) = holeLiteral (trim (cleanExpr e)).
Proof.
  intros He Hr Hn. unfold interpolated.
  change (startsWith (holeLiteral e) [Ch.r]) with false. cbv iota.
  unfold replace.
  change (holeLiteral e)
    with (Ch.squote :: Ch.dollar :: Ch.lbrace
            :: (e ++ Ch.rbrace :: [Ch.squote])).
  rewrite pieces_miss by (by apply re_hole_miss).
  pose proof (re_hole_hole (Some Ch.squote) e [Ch.squote] He Hr) as Hh.
  change (str "${" ++ e ++ str "}" ++ [Ch.squote])
    with (Ch.dollar :: Ch.lbrace :: (e ++ Ch.rbrace :: [Ch.squote])) in Hh.
  rewrite (pieces_hit _ _ _ _ _ Hh).
  destruct (pieces_skip re_hole (Some Ch.dollar) (length e + 2)
              (Ch.lbrace :: (e ++ Ch.rbrace :: [Ch.squote]))) as [p ->].
  replace (drop (length e + 2)
             (Ch.lbrace :: (e ++ Ch.rbrace :: [Ch.squote])))
    with [Ch.squote].
  2:{ replace (length e + 2) with (S (length e + 1)) by lia.
      cbn [drop]. rewrite drop_app_add'; done. }
  rewrite pieces_miss by (by apply re_hole_miss).
  replace (take (S (length e + 2))
             (Ch.dollar :: Ch.lbrace :: (e ++ Ch.rbrace :: [Ch.squote])))
    with (str "${" ++ e ++ str "}").
  2:{ replace (S (length e + 2)) with (S (S (length e + 1))) by lia.
      cbn [take]. change (str "${" ++ e ++ str "}")
        with (Ch.dollar :: Ch.lbrace :: (e ++ [Ch.rbrace])).
      do 2 f_equal.
      change (e ++ Ch.rbrace :: [Ch.squote])
        with (e ++ [Ch.rbrace] ++ [Ch.squote]).
      rewrite app_assoc, take_app_length'; [done|].
      rewrite length_app. simpl. lia. }
  cbn [map fill concat pieces]. rewrite plainHole_line by done.
  unfold holeLiteral. rewrite <- !app_assoc. done.
Qed.

(** The string pass on a literal that is one hole on one line. *)
Lemma protectStrings_holeLiteral preserved e :
  e ≠ [] → Ch.rbrace ∉ e → Ch.squote ∉ e → Ch.backslash ∉ e → Ch.nl ∉ e →
  protectStrings preserved (holeLiteral e)
  = ({| stringIndex := 0; preservedStrings := preserved |},
     holeLiteral (trim (cleanExpr e))).
Proof.
  intros He Hr Hq Hb Hn. unfold protectStrings.
  rewrite pieces_whole.
  - cbn [protect]. unfold onString.
    assert (includes (holeLiteral e) (str "${") = true) as ->.
    { apply includes_spec. exists (str "'"), (e ++ str "}'"). done. }
    rewrite interpolated_holeLiteral by done. by rewrite app_nil_r.
  - by rewrite holeLiteral_shape.
  - by apply re_string_holeLiteral.
Qed.

(** The other passes on a literal that is a hole without slash. *)
Lemma holeLiteral_kept preserved r :
  Ch.slash ∉ r → Ch.nl ∉ r → includes r sentinel = false →
  format (restoreStrings preserved (stripComments (holeLiteral r)))
  = holeLiteral r.
Proof.
  intros Hs Hn Hi.
  assert (Ch.slash ∉ holeLiteral r) as Hs'.
  { unfold holeLiteral. rewrite !not_elem_of_app.
    repeat split; [notin|done|notin]. }
  rewrite stripComments_quiet
    by (change (str "//") with (Ch.slash :: [Ch.slash]);
        change (str "/*") with (Ch.slash :: [Ch.star]);
        by apply includes_without).
  rewrite restoreStrings_quiet.
  2:{ unfold holeLiteral.
      rewrite <- (app_nil_l (str "'${" ++ _)), includes_mid;
        [|done|done|repeat constructor; notin].
      rewrite <- (app_nil_r (str "}'")), includes_mid;
        [|done|done|repeat constructor; notin].
      by rewrite Hi. }
  apply format_fixed. rewrite split_line.
  2:{ unfold holeLiteral. rewrite !not_elem_of_app.
      repeat split; [notin|done|notin]. }
  constructor; [|constructor].
  assert (trimEnd (holeLiteral r) = holeLiteral r) as E.
  { rewrite holeLiteral_shape, app_comm_cons. by apply trimEnd_snoc. }
  split; [|done]. unfold trim, trimStart.
  rewrite holeLiteral_shape at 1. rewrite dropWhile_stop by done.
  rewrite <- holeLiteral_shape, E. by rewrite holeLiteral_shape.
Qed.

Lemma process_holeLiteral preserved e :
  e ≠ [] → Ch.rbrace ∉ e → Ch.squote ∉ e → Ch.backslash ∉ e → Ch.nl ∉ e →
  Ch.slash ∉ cleanExpr e → Ch.nl ∉ cleanExpr e →
  includes (cleanExpr e) sentinel = false →
  process preserved (holeLiteral e) = holeLiteral (trim (cleanExpr e)).
Proof.
  intros He Hr Hq Hb Hn Hs Hn' Hi. unfold process, processFile.
  rewrite protectStrings_holeLiteral by done. cbn [snd preservedStrings].
  apply holeLiteral_kept.
  - intros H. by apply trim_elem_of in H.
  - intros H. by apply trim_elem_of in H.
  - by apply trim_includes.
Qed.

(** *** The expression of a hole *)

Lemma erase_block_quiet s :
  includes s (str "/*") = false → erase re_block s = s.
Proof.
  intros H. apply replace_quiet. intros prev a c b ->.
  apply includes_false_app in H as [_ H].
  apply includes_cons_false in H as [H _]. unfold re_block. by rewrite H.
Qed.

Lemma cleanExpr_quiet e : Ch.slash ∉ e → cleanExpr e = e.
Proof.
  intros H. unfold cleanExpr.
  assert (includes e (str "//") = false) as H1
    by (change (str "//") with (Ch.slash :: [Ch.slash]);
        by apply includes_without).
  assert (includes e (str "/*") = false) as H2
    by (change (str "/*") with (Ch.slash :: [Ch.star]);
        by apply includes_without).
  change (erase re_doc e) with (removeDocComments e).
  rewrite removeDocComments_quiet by done.
  change (erase re_line e) with (removeLineComments e).
  rewrite removeLineComments_quiet by done.
  by apply erase_block_quiet.
Qed.

Lemma one_slash_l a :
  Ch.slash ∉ a → includes (a ++ [Ch.slash]) (str "//") = false.
Proof.
  induction a as [|c a IH]; [done|]. intros [Hc Ha]%not_elem_of_cons.
  cbn [app includes]. rewrite IH by done.
  change (str "//") with (Ch.slash :: [Ch.slash]). cbn [startsWith].
  assert ((Ch.slash =? c)%N = false) as -> by (apply N.eqb_neq; congruence).
  done.
Qed.

Lemma one_slash_r b :
  Ch.slash ∉ b → includes (Ch.slash :: b) (str "//") = false.
Proof.
  intros Hb. change (str "//") with (Ch.slash :: [Ch.slash]).
  cbn [includes].
  rewrite (includes_without b [Ch.slash] Ch.slash Hb), orb_false_r.
  destruct b as [|c b]; [done|]. apply not_elem_of_cons in Hb as [Hc _].
  cbn [startsWith].
  assert ((Ch.slash =? c)%N = false) as -> by (apply N.eqb_neq; congruence).
  by rewrite andb_false_r.
Qed.

(** The expression of a hole with one block comment in it. *)
Lemma cleanExpr_block a body b :
  Ch.slash ∉ a → Ch.slash ∉ body → Ch.slash ∉ b →
  cleanExpr (a ++ str "/*" ++ body ++ str "*/" ++ b) = a ++ b.
Proof.
  intros Ha Hm Hb. unfold cleanExpr.
  set (e := a ++ str "/*" ++ body ++ str "*/" ++ b).
  assert (includes e (str "//") = false) as H1.
  { unfold e.
    change (a ++ str "/*" ++ body ++ str "*/" ++ b)
      with (a ++ [Ch.slash] ++ Ch.star :: (body ++ Ch.star :: Ch.slash :: b)).
    rewrite app_assoc.
    rewrite (includes_sep (a ++ [Ch.slash]) Ch.star) by notin.
    rewrite (includes_sep body Ch.star) by notin.
    rewrite one_slash_l, one_slash_r by done.
    change (str "//") with (Ch.slash :: [Ch.slash]).
    by rewrite includes_without. }
  change (erase re_doc e) with (removeDocComments e).
  rewrite removeDocComments_quiet by done.
  change (erase re_line e) with (removeLineComments e).
  rewrite removeLineComments_quiet by done.
  rewrite erase_eraseFrom. unfold e. rewrite eraseFrom_app_plain.
  2:{ intros prev x c y ->. unfold re_block.
      assert (c ≠ Ch.slash) as Hc.
      { intros ->. apply Ha, elem_of_app. right. apply list_elem_of_here. }
      change (str "/*") with (Ch.slash :: [Ch.star]).
      erewrite startsWith_head; [done|done|done]. }
  f_equal.
  assert (re_block (from_option Some None (last a))
            (str "/*" ++ body ++ str "*/" ++ b)
          = Some (S (S (length body + 2)))) as Hh.
  { unfold re_block.
    change (startsWith (str "/*" ++ body ++ str "*/" ++ b) (str "/*"))
      with true. cbv iota.
    change (drop 2 (str "/*" ++ body ++ str "*/" ++ b))
      with (body ++ str "*/" ++ b).
    rewrite indexOf0_first;
      [cbn [fmap option_fmap option_map]; f_equal; lia|done|].
    change (take _ _) with [Ch.star]. rewrite snoc_closer by done.
    change (str "*/") with (Ch.star :: [Ch.slash]).
    apply not_true_is_false. intros (u & v & E)%includes_spec.
    apply Hm. rewrite E. apply elem_of_app. right. cbn.
    apply list_elem_of_further, list_elem_of_here. }
  destruct (eraseFrom_hit _ _ _ _ Hh) as [prev' ->].
  replace (drop (S (S (length body + 2))) (str "/*" ++ body ++ str "*/" ++ b))
    with b.
  2:{ change (str "/*" ++ body ++ str "*/" ++ b)
        with (Ch.slash :: Ch.star :: (body ++ [Ch.star; Ch.slash] ++ b)).
      cbn [drop]. rewrite app_assoc. symmetry. apply drop_app_length'.
      rewrite length_app. simpl. lia. }
  rewrite (eraseFrom_blind _ prev' None) by done.
  change (erase re_block b = b). apply erase_block_quiet.
  change (str "/*") with (Ch.slash :: [Ch.star]). by apply includes_without.
Qed.

(** *** The same for a raw literal *)

Lemma rawHole_line e :
  Ch.nl ∉ e → Ch.slash ∉ e → includes e (str "${") = false →
  rawHole (str "${" ++ e ++ str "}") = str "${" ++ trim e ++ str "}".
Proof.
  intros Hn Hs Hd. unfold rawHole. rewrite holeExpr_hole. cbv zeta.
  rewrite Hd.
  change (str "/*") with (Ch.slash :: [Ch.star]).
  change (str "//") with (Ch.slash :: [Ch.slash]).
  rewrite !(includes_without e _ Ch.slash) by done. cbn [orb].
  rewrite (includes_without e [] Ch.nl) by done.
  by rewrite cleanExpr_quiet.
Qed.

Lemma interpolated_rawLiteral_line e :
  e ≠ [] → Ch.rbrace ∉ e → Ch.nl ∉ e → Ch.slash ∉ e →
  includes e (str "${") = false →
  interpolated (rawLiteral e) = rawLiteral (trim e).
Proof.
  intros He Hr Hn Hs Hd. unfold interpolated.
  change (startsWith (rawLiteral e) [Ch.r]) with true. cbv iota.
  unfold replace.
  change (rawLiteral e)
    with (Ch.r :: Ch.squote :: Ch.dollar :: Ch.lbrace
            :: (e ++ Ch.rbrace :: [Ch.squote])).
  rewrite pieces_miss by (by apply re_hole_miss).
  rewrite pieces_miss by (by apply re_hole_miss).
  pose proof (re_hole_hole (Some Ch.squote) e [Ch.squote] He Hr) as Hh.
  change (str "${" ++ e ++ str "}" ++ [Ch.squote])
    with (Ch.dollar :: Ch.lbrace :: (e ++ Ch.rbrace :: [Ch.squote])) in Hh.
  rewrite (pieces_hit _ _ _ _ _ Hh).
  destruct (pieces_skip re_hole (Some Ch.dollar) (length e + 2)
              (Ch.lbrace :: (e ++ Ch.rbrace :: [Ch.squote]))) as [p ->].
  replace (drop (length e + 2)
             (Ch.lbrace :: (e ++ Ch.rbrace :: [Ch.squote])))
    with [Ch.squote].
  2:{ replace (length e + 2) with (S (length e + 1)) by lia.
      cbn [drop]. rewrite drop_app_add'; done. }
  rewrite pieces_miss by (by apply re_hole_miss).
  replace (take (S (length e + 2))
             (Ch.dollar :: Ch.lbrace :: (e ++ Ch.rbrace :: [Ch.squote])))
    with (str "${" ++ e ++ str "}").
  2:{ replace (S (length e + 2)) with (S (S (length e + 1))) by lia.
      cbn [take]. change (str "${" ++ e ++ str "}")
        with (Ch.dollar :: Ch.lbrace :: (e ++ [Ch.rbrace])).
      do 2 f_equal.
      change (e ++ Ch.rbrace :: [Ch.squote])
        with (e ++ [Ch.rbrace] ++ [Ch.squote]).
      rewrite app_assoc, take_app_length'; [done|].
      rewrite length_app. simpl. lia. }
  cbn [map fill concat pieces]. rewrite rawHole_line by done.
  unfold rawLiteral. rewrite <- !app_assoc. done.
Qed.

Lemma rawLiteral_kept preserved r :
  Ch.slash ∉ r → Ch.nl ∉ r → includes r sentinel = false →
  format (restoreStrings preserved (stripComments (rawLiteral r)))
  = rawLiteral r.
Proof.
  intros Hs Hn Hi.
  assert (Ch.slash ∉ rawLiteral r) as Hs'.
  { unfold rawLiteral. rewrite !not_elem_of_app.
    repeat split; [notin|done|notin]. }
  rewrite stripComments_quiet
    by (change (str "//") with (Ch.slash :: [Ch.slash]);
        change (str "/*") with (Ch.slash :: [Ch.star]);
        by apply includes_without).
  rewrite restoreStrings_quiet.
  2:{ unfold rawLiteral.
      rewrite <- (app_nil_l (str "r'${" ++ _)), includes_mid;
        [|done|done|repeat constructor; notin].
      rewrite <- (app_nil_r (str "}'")), includes_mid;
        [|done|done|repeat constructor; notin].
      by rewrite Hi. }
  apply format_fixed. rewrite split_line.
  2:{ unfold rawLiteral. rewrite !not_elem_of_app.
      repeat split; [notin|done|notin]. }
  constructor; [|constructor].
  assert (trimEnd (rawLiteral r) = rawLiteral r) as E.
  { rewrite rawLiteral_shape, !app_comm_cons. by apply trimEnd_snoc. }
  split; [|done]. unfold trim, trimStart.
  rewrite rawLiteral_shape at 1. rewrite dropWhile_stop by done.
  rewrite <- rawLiteral_shape, E. by rewrite rawLiteral_shape.
Qed.

End plain_holes.

(** X15.  The expression of a hole is trimmed even where it holds no
    comment: a single-quoted literal that is one hole, with an expression
    on one line without quote, backslash, closing brace and slash, comes
    out with the white space at both ends of the expression removed. *)
Theorem hole_expression_trimmed (preserved : gmap text text) (expr : text) :
  expr ≠ [] →
  Ch.rbrace ∉ expr → Ch.squote ∉ expr → Ch.backslash ∉ expr →
  Ch.nl ∉ expr → Ch.slash ∉ expr →
  includes expr sentinel = false →
  process preserved (holeLiteral expr) = holeLiteral (trim expr).
Proof.
  intros He Hr Hq Hb Hn Hs Hi.
  rewrite process_holeLiteral; rewrite ?cleanExpr_quiet; done.
Qed.

Lemma hole_expression_trimmed_witness :
  process ∅ (holeLiteral (str " a + b  ")) = holeLiteral (str "a + b").
Proof.
  apply (hole_expression_trimmed ∅ (str " a + b  "));
    first [discriminate | notin | reflexivity].
Defined.

(** X16.  The hole of a raw literal is trimmed as well: a raw single-quoted
    literal that is one hole, with an expression on one line without quote,
    backslash, closing brace, slash and hole opener, comes out with the
    white space at both ends of the expression removed. *)
Theorem raw_hole_expression_trimmed (preserved : gmap text text)
  (expr : text) :
  expr ≠ [] →
  Ch.rbrace ∉ expr → Ch.squote ∉ expr → Ch.backslash ∉ expr →
  Ch.nl ∉ expr → Ch.slash ∉ expr →
  includes expr (str "${") = false →
  includes expr sentinel = false →
  process preserved (rawLiteral expr) = rawLiteral (trim expr).
Proof.
  intros He Hr Hq Hb Hn Hs Hd Hi. unfold process, processFile, protectStrings.
  rewrite pieces_whole;
    [|by rewrite rawLiteral_shape|by apply re_string_rawLiteral].
  cbn [protect]. unfold onString.
  assert (includes (rawLiteral expr) (str "${") = true) as ->.
  { apply includes_spec. exists (str "r'"), (expr ++ str "}'"). done. }
  rewrite interpolated_rawLiteral_line by done.
  rewrite app_nil_r. cbn [snd preservedStrings].
  apply rawLiteral_kept.
  - intros H. by apply trim_elem_of in H.
  - intros H. by apply trim_elem_of in H.
  - by apply trim_includes.
Qed.

Lemma raw_hole_expression_trimmed_witness :
  process ∅ (rawLiteral (str " a + b  ")) = rawLiteral (str "a + b").
Proof.
  apply (raw_hole_expression_trimmed ∅ (str " a + b  "));
    first [discriminate | notin | reflexivity].
Defined.

Ltac listed :=
  repeat first [apply list_elem_of_here | apply list_elem_of_further].

(** X17.  A block comment in the hole of a literal that is not raw is
    removed: where the expression on one line is a block comment between
    two texts, none of the three with a quote, a backslash, a closing brace
    or a slash, the literal comes out with the two texts put together and
    trimmed as the expression of the hole. *)
Theorem hole_comment_removed (preserved : gmap text text)
  (a body b : text) :
  Forall (λ c, c ∉ [Ch.rbrace; Ch.squote; Ch.backslash; Ch.nl; Ch.slash])
    (a ++ body ++ b) →
  includes (a ++ b) sentinel = false →
  process preserved (holeLiteral (a ++ str "/*" ++ body ++ str "*/" ++ b))
  = holeLiteral (trim (a ++ b)).
Proof.
  intros Hf Hi. rewrite Forall_forall in Hf.
  assert (∀ c, c ∈ [Ch.rbrace; Ch.squote; Ch.backslash; Ch.nl; Ch.slash] →
               (c ∉ a) ∧ (c ∉ body) ∧ (c ∉ b)) as H.
  { intros c Hc. repeat split; intros Hx; apply (Hf c); try done;
      rewrite !elem_of_app; auto. }
  destruct (H Ch.rbrace) as (Ra & Rm & Rb); [listed|].
  destruct (H Ch.squote) as (Qa & Qm & Qb); [listed|].
  destruct (H Ch.backslash) as (Ba & Bm & Bb); [listed|].
  destruct (H Ch.nl) as (Na & Nm & Nb); [listed|].
  destruct (H Ch.slash) as (Sa & Sm & Sb); [listed|].
  rewrite process_holeLiteral; rewrite ?cleanExpr_block; try done.
  - by destruct a.
  - rewrite !not_elem_of_app. repeat split; first [done | notin].
  - rewrite !not_elem_of_app. repeat split; first [done | notin].
  - rewrite !not_elem_of_app. repeat split; first [done | notin].
  - rewrite !not_elem_of_app. repeat split; first [done | notin].
  - by rewrite not_elem_of_app.
  - by rewrite not_elem_of_app.
Qed.

Lemma hole_comment_removed_witness :
  process ∅ (holeLiteral (str "a " ++ str "/*" ++ str " c " ++ str "*/"
                            ++ str " + b"))
  = holeLiteral (str "a  + b").
Proof.
  apply (hole_comment_removed ∅ (str "a ") (str " c ") (str " + b")).
  - apply Forall_forall. intros c Hc. vm_compute in Hc.
    repeat (apply elem_of_cons in Hc as [->|Hc]; [notin|]).
    by apply elem_of_nil in Hc.
  - reflexivity.
Defined.

(** ** More on the run over a project *)

Section run.

Implicit Types (f : dartFile) (files before after : list dartFile)
  (preserved T : gmap text text) (written : list (text * text))
  (results : list text).

Lemma processFile_process T x : (processFile T x).2 = process T x.
Proof. done. Qed.

Lemma eachFile_step T f files written results x :
  source f = Some x → writable f = true ∨ process T x = x →
  eachFile T (f :: files) written results
  = eachFile (processFile T x).1 files
      (written ++ changed [f] [process T x])
      (results ++ (changed [f] [process T x]).*1).
Proof.
  intros Hs Hw. cbn [eachFile]. rewrite Hs. unfold changed.
  cbn [zip zip_with omap list_omap fst snd]. rewrite Hs.
  rewrite <- processFile_process in Hw |- *.
  destruct (processFile T x) as [T' out]. cbn [fst snd] in *.
  destruct (decide (out = x)) as [->|Hne].
  - rewrite decide_True by done. cbn. by rewrite !app_nil_r.
  - rewrite decide_False by congruence. cbn [fmap list_fmap fst].
    destruct Hw as [-> | ?]; done.
Qed.

Lemma changed_cons f files x outs :
  changed (f :: files) (x :: outs) = changed [f] [x] ++ changed files outs.
Proof.
  unfold changed. cbn [zip zip_with omap list_omap].
  by destruct (decide _).
Qed.

(** The loop over files that can be read and written. *)
Lemma eachFile_app T before rest written results :
  Forall accessible before →
  eachFile T (before ++ rest) written results
  = eachFile (tableAfter T (sources before)) rest
      (written ++ changed before (processFiles T (sources before)))
      (results ++ (changed before (processFiles T (sources before))).*1).
Proof.
  intros H. revert T written results.
  induction H as [|f before [[x Hx] Hw] _ IH]; intros T written results.
  - cbn. by rewrite !app_nil_r.
  - cbn [app]. rewrite (eachFile_step _ _ _ _ _ x) by auto.
    rewrite IH. unfold sources. cbn [omap list_omap]. rewrite Hx.
    cbn [tableAfter processFiles]. fold (sources before).
    pose proof (processFile_process T x) as E.
    destruct (processFile T x) as [T' out]. cbn [fst snd] in *. subst out.
    rewrite (changed_cons f before), fmap_app, !app_assoc. done.
Qed.

Lemma processFiles_length T contents :
  length (processFiles T contents) = length contents.
Proof.
  revert T. induction contents as [|x contents IH]; intros T; [done|].
  cbn [processFiles]. destruct (processFile T x). cbn. by rewrite IH.
Qed.

(** A text with line comments at most, once processed, is a fixed point,
    whatever the table. *)
Lemma processed_fixed T T' x :
  lineCommentsOnly x → process T' (process T x) = process T x.
Proof.
  intros Hc. rewrite (process_lineCommentsOnly T) by done.
  rewrite process_lineCommentsOnly
    by (by apply lineCommentsOnly_format, lineCommentsOnly_lineStrip).
  rewrite format_lineStrip_fixed. apply format_idem.
Qed.

Lemma eachFile_fixed T files outs written results :
  Forall (λ x, ∀ T', process T' x = x) outs →
  eachFile T (withTexts files outs) written results = (written, inr results).
Proof.
  intros H. revert T files. induction H as [|x outs Hx _ IH]; intros T files.
  - by destruct files.
  - destruct files as [|f files]; [done|].
    unfold withTexts. cbn [zip_with]. fold (withTexts files outs).
    rewrite (eachFile_step _ _ _ _ _ x); [|done|right; apply Hx].
    rewrite Hx. unfold changed.
    cbn [zip zip_with omap list_omap fst snd source].
    rewrite decide_True by done. cbn. rewrite !app_nil_r. apply IH.
Qed.

Lemma processFiles_fixed T contents :
  Forall lineCommentsOnly contents →
  Forall (λ x, ∀ T', process T' x = x) (processFiles T contents).
Proof.
  intros H. revert T. induction H as [|x contents Hx _ IH]; intros T.
  - constructor.
  - cbn [processFiles]. pose proof (processFile_process T x) as E.
    destruct (processFile T x) as [T1 out]. cbn [snd] in E. subst out.
    constructor; [|apply IH]. intros T'. by apply processed_fixed.
Qed.

Lemma removeCommentsIn_valid path p :
  path ≠ [] → stats p = Some true →
  removeCommentsIn (Some path) p = eachFile ∅ (dartFiles p) [] [].
Proof.
  intros Hp Hs. unfold removeCommentsIn. rewrite Hs.
  destruct path; [done|]. cbn. by destruct (dartFiles p).
Qed.

End run.

(** X18.  The run writes and reports the files that change, and no others:
    on a directory in which every listed file can be read and written, the
    writes are, in the order of the listing, the files whose processed text
    differs from what was read, each with its processed text, and the
    result names these files. *)
Theorem changed_files_written (path : text) (p : project) :
  path ≠ [] → stats p = Some true →
  Forall accessible (dartFiles p) →
  let outs := removeComments (sources (dartFiles p)) in
  removeCommentsIn (Some path) p
  = (changed (dartFiles p) outs, inr (changed (dartFiles p) outs).*1).
Proof.
  intros Hp Hs Hf outs. rewrite removeCommentsIn_valid by done.
  pose proof (eachFile_app ∅ (dartFiles p) [] [] [] Hf) as E.
  rewrite app_nil_r in E. exact E.
Qed.

Lemma changed_files_written_witness :
  removeCommentsIn (Some (str "app"))
    {| stats := Some true;
       dartFiles :=
         [ {| file := str "a.dart"; source := Some (str "x(); // c");
              writable := true |};
           {| file := str "b.dart"; source := Some (str "y();");
              writable := true |} ] |}
  = ([(str "a.dart", str "x();")], inr [str "a.dart"]).
Proof.
  apply (changed_files_written (str "app")
           {| stats := Some true;
              dartFiles :=
                [ {| file := str "a.dart"; source := Some (str "x(); // c");
                     writable := true |};
                  {| file := str "b.dart"; source := Some (str "y();");
                     writable := true |} ] |}).
  - discriminate.
  - reflexivity.
  - repeat constructor; by eexists.
Defined.

(** X19.  The run stops at the first file that cannot be read, or that
    changes and cannot be written: behind files that can be read and
    written, it ends with the error of that file, the writes to the files
    before it are done and stay, no later file is touched, and no result is
    returned. *)
Theorem run_stops_at_failure (path : text) (p : project)
  (before after : list dartFile) (f : dartFile) (err : failure) :
  path ≠ [] → stats p = Some true →
  dartFiles p = before ++ f :: after →
  Forall accessible before →
  failureAt (tableAfter ∅ (sources before)) f = Some err →
  removeCommentsIn (Some path) p
  = (changed before (removeComments (sources before)), inl err).
Proof.
  intros Hp Hs Hf Hb He. rewrite removeCommentsIn_valid by done.
  rewrite Hf, eachFile_app by done. cbn [app eachFile].
  unfold failureAt in He. destruct (source f) as [x|]; [|by injection He as <-].
  rewrite <- processFile_process in He.
  destruct (processFile _ x) as [T' out]. cbn [snd] in He.
  destruct (decide (out = x)); [done|].
  destruct (writable f); [done|]. by injection He as <-.
Qed.

Lemma run_stops_at_failure_witness :
  removeCommentsIn (Some (str "app"))
    {| stats := Some true;
       dartFiles :=
         [ {| file := str "a.dart"; source := Some (str "x(); // c");
              writable := true |} ]
         ++ {| file := str "b.dart"; source := Some (str "y(); // d");
               writable := false |}
         :: [ {| file := str "c.dart"; source := Some (str "z(); // e");
                 writable := true |} ] |}
  = (changed
       [ {| file := str "a.dart"; source := Some (str "x(); // c");
            writable := true |} ]
       (removeComments (sources
          [ {| file := str "a.dart"; source := Some (str "x(); // c");
               writable := true |} ])),
     inl (WriteFailed (str "b.dart"))).
Proof.
  apply (run_stops_at_failure (str "app") _
           [ {| file := str "a.dart"; source := Some (str "x(); // c");
                writable := true |} ]
           [ {| file := str "c.dart"; source := Some (str "z(); // e");
                writable := true |} ]
           {| file := str "b.dart"; source := Some (str "y(); // d");
              writable := false |}).
  - discriminate.
  - reflexivity.
  - reflexivity.
  - repeat constructor; by eexists.
  - reflexivity.
Defined.

(** X20.  A second run finds nothing to do: where every listed file can be
    read and holds a text with line and documentation comments at most (no
    quote, no block comment, no sentinel), a run over the same files with
    the texts that a first run leaves in them, which are their processed
    texts, writes nothing and returns an empty result, also where files
    cannot be written. *)
Theorem second_run_quiet (path : text) (p : project) :
  path ≠ [] → stats p = Some true →
  Forall (λ f, ∃ x, source f = Some x ∧ lineCommentsOnly x) (dartFiles p) →
  removeCommentsIn (Some path)
    {| stats := stats p;
       dartFiles :=
         withTexts (dartFiles p) (removeComments (sources (dartFiles p))) |}
  = ([], inr []).
Proof.
  intros Hp Hs Hc. rewrite removeCommentsIn_valid by done.
  cbn [dartFiles]. apply eachFile_fixed, processFiles_fixed.
  induction Hc as [|f files (x & Hx & Hl) _ IH]; [constructor|].
  unfold sources. cbn [omap list_omap]. rewrite Hx. by constructor.
Qed.

Lemma second_run_quiet_witness :
  removeCommentsIn (Some (str "app"))
    {| stats := Some true;
       dartFiles :=
         withTexts
           [ {| file := str "a.dart"; source := Some (str "x(); // c");
                writable := false |} ]
           (removeComments
              (sources
                 [ {| file := str "a.dart"; source := Some (str "x(); // c");
                      writable := false |} ])) |}
  = ([], inr []).
Proof.
  apply (second_run_quiet (str "app")
           {| stats := Some true;
              dartFiles :=
                [ {| file := str "a.dart"; source := Some (str "x(); // c");
                     writable := false |} ] |}).
  - discriminate.
  - reflexivity.
  - constructor; [|constructor]. exists (str "x(); // c").
    split; [reflexivity|]. repeat split; first [notin | reflexivity].
Defined.

(** ** Lines of code, literals and remarks *)

Section lines.

Implicit Types (s p a b t x y lit rest : text) (d q : N)
  (ps : list (text * text)) (l : sourceLine) (ls : list sourceLine)
  (st : strings) (pcs : list piece) (T preserved : gmap text text).

(** *** What the string expression finds *)

Lemma code_front a b prev x c y :
  noQuote a →
  (last a ≠ Some Ch.r ∨ ∀ q, isQuote q → head b ≠ Some q) →
  a = x ++ c :: y →
  re_string prev (c :: y ++ b) = None.
Proof.
  intros Hq Hr ->. apply noQuote_app in Hq as [_ Hq].
  apply noQuote_cons in Hq as [[Hc1 Hc2] Hy].
  cbn [re_string]. destruct (c =? Ch.r)%N eqn:Ec.
  - destruct y as [|c' y].
    + apply N.eqb_eq in Ec as ->. destruct Hr as [Hr|Hr].
      * by rewrite last_snoc in Hr.
      * cbn [app].
        rewrite literalAt_head; [done|apply Hr; by left|apply Hr; by right].
    + apply noQuote_cons in Hy as [[? ?] _].
      rewrite literalAt_head; [done| |]; intros [= ->]; done.
  - rewrite literalAt_head; [done| |]; intros [= ->]; done.
Qed.

Lemma pieces_code a b :
  noQuote a →
  (last a ≠ Some Ch.r ∨ ∀ q, isQuote q → head b ≠ Some q) →
  pieces re_string None 0 (a ++ b)
  = map Plain a ++ pieces re_string None 0 b.
Proof.
  intros Hq Hr. rewrite pieces_app_plain.
  - f_equal. apply pieces_blind, re_string_blind.
  - intros prev x c y E. by apply (code_front a b prev x c y).
Qed.

Lemma literal_nonnil lit t :
  re_string None (lit ++ t) = Some (length lit) →
  ∃ body q, lit = body ++ [q] ∧ isQuote q.
Proof.
  intros H. destruct (re_string_last _ _ _ H) as (body & q & Hb & Hq).
  rewrite take_app_length in Hb. by exists body, q.
Qed.

Lemma pieces_lit lit t :
  re_string None (lit ++ t) = Some (length lit) →
  pieces re_string None 0 (lit ++ t) = Hit lit :: pieces re_string None 0 t.
Proof.
  intros H. destruct (literal_nonnil _ _ H) as (body & q & -> & _).
  destruct (pieces_match re_string None (body ++ [q]) t) as [prev' ->];
    [by destruct body|done|].
  f_equal. apply pieces_blind, re_string_blind.
Qed.

Lemma partsText_cons lit c ps :
  partsText ((lit, c) :: ps) = lit ++ c ++ partsText ps.
Proof. unfold partsText. cbn [map concat fst snd]. by rewrite <- app_assoc. Qed.

Lemma partsPieces_cons lit c ps :
  partsPieces ((lit, c) :: ps) = Hit lit :: map Plain c ++ partsPieces ps.
Proof. done. Qed.

Lemma head_literal lit t q :
  head lit = Some Ch.r → isQuote q → head (lit ++ t) ≠ Some q.
Proof.
  destruct lit as [|c lit]; [done|]. intros [= ->] [-> | ->]; done.
Qed.

Lemma pieces_parts before ps rest :
  literalsAt before ps rest →
  (∀ q, isQuote q → head rest ≠ Some q) →
  pieces re_string None 0 (partsText ps ++ rest)
  = partsPieces ps ++ pieces re_string None 0 rest.
Proof.
  revert before. induction ps as [|[lit c] ps IH]; intros before H Hr; [done|].
  destruct H as (_ & Hm & _ & (Hq & _) & _ & H).
  rewrite partsText_cons, partsPieces_cons, <- !app_assoc.
  rewrite pieces_lit by done. cbn [app]. f_equal.
  rewrite pieces_code; [|done|].
  - rewrite <- app_assoc. f_equal. by apply (IH c).
  - destruct ps as [|[lit' c'] ps]; [by right|].
    destruct H as ([H|H] & _); [by left|right].
    intros q Hq'. rewrite partsText_cons, <- app_assoc.
    by apply head_literal.
Qed.

Lemma sourceText_cons l ls :
  sourceText (l :: ls)
  = codeText l ++ remark l ++ match ls with
                              | [] => []
                              | _ => Ch.nl :: sourceText ls
                              end.
Proof.
  unfold sourceText. cbn [map]. destruct ls as [|l' ls].
  - cbn. unfold lineText. by rewrite app_nil_r.
  - rewrite join_cons by done. unfold lineText. by rewrite <- app_assoc.
Qed.

Lemma strippedText_cons l ls :
  strippedText (l :: ls)
  = codeText l ++ match ls with
                  | [] => []
                  | _ => Ch.nl :: strippedText ls
                  end.
Proof.
  unfold strippedText. cbn [map]. destruct ls as [|l' ls].
  - cbn. by rewrite app_nil_r.
  - by rewrite join_cons.
Qed.

Lemma remark_head code t tail q :
  remarkAt code t → (∀ q, isQuote q → head tail ≠ Some q) →
  isQuote q → head (t ++ tail) ≠ Some q.
Proof.
  intros [->|(Hq & _)] Ht Hq'; [by apply Ht|].
  destruct t as [|c t]; [by apply Ht|].
  apply noQuote_cons in Hq as [[? ?] _]. cbn.
  destruct Hq' as [-> | ->]; congruence.
Qed.

Lemma remark_noQuote code t : remarkAt code t → noQuote t.
Proof.
  intros [->|(Hq & _)]; [|done]. split; apply not_elem_of_nil.
Qed.

(** The string expression cuts the file into the code, the literals and the
    remarks of its lines. *)
Lemma pieces_lines ls :
  plainLines ls → pieces re_string None 0 (sourceText ls) = textPieces ls.
Proof.
  induction ls as [|l ls IH]; [done|].
  intros ((Hq & _) & Hl & Hr & Hls).
  rewrite sourceText_cons. cbn [textPieces].
  unfold linePieces, codePieces, codeText.
  set (tail := match ls with [] => [] | _ :: _ => Ch.nl :: sourceText ls end)
    in *.
  assert (∀ q, isQuote q → head tail ≠ Some q) as Ht.
  { intros q [-> | ->]; unfold tail; by destruct ls. }
  rewrite <- !app_assoc. rewrite pieces_code; [|done|].
  2:{ destruct (behind l) as [|[lit c] ps] eqn:E.
      - right. intros q Hq'. cbn [partsText map concat app].
        by apply (remark_head (codeText l)).
      - destruct Hl as ([H|H] & _); [by left|right].
        intros q Hq'. rewrite partsText_cons, <- app_assoc.
        by apply head_literal. }
  f_equal. rewrite (pieces_parts (front l)); [|done|].
  2:{ intros q Hq'. by apply (remark_head (codeText l)). }
  f_equal.
  rewrite pieces_code; [|by apply (remark_noQuote (codeText l))|by right].
  f_equal. unfold tail. destruct ls as [|l' ls]; [done|].
  rewrite pieces_miss.
  - f_equal. rewrite (pieces_blind _ _ None) by apply re_string_blind.
    by apply IH.
  - cbn [re_string]. change (Ch.nl =? Ch.r)%N with false. cbv iota.
    by apply literalAt_head.
Qed.

(** *** Code in which no comment starts *)

Lemma from_last_cons (p : option N) z (x : text) :
  from_option Some p (last (z :: x)) = from_option Some (Some z) (last x).
Proof.
  destruct x as [|z' x]; [done|]. rewrite last_cons_cons.
  destruct (last (z' :: x)) eqn:E; [done|]. by apply last_None in E.
Qed.

Lemma from_last_app (p : option N) (a b : text) :
  from_option Some (from_option Some p (last a)) (last b)
  = from_option Some p (last (a ++ b)).
Proof.
  revert p. induction a as [|z a IH]; intros p; [done|].
  cbn [app]. by rewrite !from_last_cons, IH.
Qed.

Lemma guardedFrom_suffix (p : option N) (x s : text) :
  guardedFrom p (x ++ s) = true →
  guardedFrom (from_option Some p (last x)) s = true.
Proof.
  revert p. induction x as [|z x IH]; intros p; [done|].
  cbn [app guardedFrom]. intros [_ H]%andb_true_iff.
  rewrite from_last_cons. by apply IH.
Qed.

Lemma guardedFrom_any (p : option N) s :
  guardedFrom None s = true → guardedFrom p s = true.
Proof.
  destruct s as [|z s]; [done|]. cbn [guardedFrom].
  intros [H1 H2]%andb_true_iff. apply andb_true_iff. split; [|done].
  rewrite bool_decide_false in H1 by done.
  cbn [andb] in H1. rewrite orb_false_r in H1. by rewrite H1.
Qed.

Lemma slashfree_guarded (p : option N) s :
  Ch.slash ∉ s → guardedFrom p s = true.
Proof.
  revert p. induction s as [|z s IH]; intros p; [done|].
  intros [Hz Hs]%not_elem_of_cons. cbn [guardedFrom]. rewrite IH by done.
  change (str "//") with (Ch.slash :: [Ch.slash]).
  erewrite startsWith_head; [done|done|congruence].
Qed.

Lemma starts2 s :
  startsWith s (str "//") = true ↔ ∃ t, s = Ch.slash :: Ch.slash :: t.
Proof. apply startsWith_spec. Qed.

Lemma starts3 s :
  startsWith s (str "///") = true
  ↔ ∃ t, s = Ch.slash :: Ch.slash :: Ch.slash :: t.
Proof. apply startsWith_spec. Qed.

Lemma guardedFrom_app (p : option N) (a m : text) :
  guardedFrom p a = true → guardedFrom None m = true →
  last a ≠ Some Ch.slash ∨ head m ≠ Some Ch.slash →
  guardedFrom p (a ++ m) = true.
Proof.
  revert p. induction a as [|z a IH]; intros p Ha Hm Hj.
  { by apply guardedFrom_any. }
  cbn [app guardedFrom] in *. apply andb_true_iff in Ha as [H1 H2].
  apply andb_true_iff. split.
  - destruct (startsWith (z :: a ++ m) (str "//")) eqn:E2; [|done].
    apply starts2 in E2 as [t E2]. injection E2 as -> E2.
    destruct a as [|z2 a].
    { cbn [app] in E2. subst m. destruct Hj as [Hj|Hj]; by destruct Hj. }
    cbn [app] in E2 |- *. injection E2 as -> E2.
    change (startsWith (Ch.slash :: Ch.slash :: a) (str "//")) with true in H1.
    cbn [negb orb] in H1. apply andb_true_iff in H1 as [Hc H3].
    rewrite Hc. cbn [negb orb andb].
    destruct (startsWith (Ch.slash :: Ch.slash :: a ++ m) (str "///")) eqn:E3;
      [|done].
    apply starts3 in E3 as [t' E3]. injection E3 as E3.
    destruct a as [|z3 a].
    { cbn [app] in E3. subst m. destruct Hj as [Hj|Hj]; by destruct Hj. }
    cbn [app] in E3. injection E3 as -> E3.
    by change (startsWith (Ch.slash :: Ch.slash :: Ch.slash :: a) (str "///"))
      with true in H3.
  - apply IH; [done|done|]. destruct Hj as [Hj|Hj]; [|by right].
    destruct a as [|z2 a]; [by left|]. left. by rewrite last_cons_cons in Hj.
Qed.

Lemma code_safe_doc (p : option N) (a b : text) :
  guardedFrom p a = true →
  last a ≠ Some Ch.slash ∨ head b ≠ Some Ch.slash →
  ∀ prev x z y, a = x ++ z :: y → re_doc prev (z :: y ++ b) = None.
Proof.
  intros Hg Hj prev x z y ->. apply guardedFrom_suffix in Hg.
  unfold re_doc.
  destruct (startsWith (z :: y ++ b) (str "///")) eqn:E; [exfalso|done].
  apply starts3 in E as [t E]. injection E as -> E.
  destruct y as [|z2 y].
  { cbn [app] in E. subst b. rewrite last_snoc in Hj.
    destruct Hj as [Hj|Hj]; by destruct Hj. }
  cbn [app] in E. injection E as -> E.
  destruct y as [|z3 y].
  { cbn [app] in E. subst b.
    change (x ++ [Ch.slash; Ch.slash]) with (x ++ [Ch.slash] ++ [Ch.slash])
      in Hj.
    rewrite app_assoc, last_snoc in Hj.
    destruct Hj as [Hj|Hj]; by destruct Hj. }
  cbn [app] in E. injection E as -> E.
  cbn [guardedFrom] in Hg. apply andb_true_iff in Hg as [Hg _].
  change (startsWith (Ch.slash :: Ch.slash :: Ch.slash :: y) (str "//"))
    with true in Hg.
  change (startsWith (Ch.slash :: Ch.slash :: Ch.slash :: y) (str "///"))
    with true in Hg.
  cbn [negb orb] in Hg. by rewrite andb_false_r in Hg.
Qed.

Lemma code_safe_line (a b : text) :
  guardedFrom None a = true →
  last a ≠ Some Ch.slash ∨ head b ≠ Some Ch.slash →
  ∀ prev x z y, a = x ++ z :: y →
    re_line (from_option Some prev (last x)) (z :: y ++ b) = None.
Proof.
  intros Hg Hj prev x z y ->. apply guardedFrom_suffix in Hg.
  unfold re_line. destruct (decide _) as [|Hn]; [done|].
  destruct (startsWith (z :: y ++ b) (str "//")) eqn:E; [exfalso|done].
  apply starts2 in E as [t E]. injection E as -> E.
  destruct y as [|z2 y].
  { cbn [app] in E. subst b. rewrite last_snoc in Hj.
    destruct Hj as [Hj|Hj]; by destruct Hj. }
  cbn [app] in E. injection E as -> E.
  cbn [guardedFrom] in Hg. apply andb_true_iff in Hg as [Hg _].
  change (startsWith (Ch.slash :: Ch.slash :: y) (str "//")) with true in Hg.
  cbn [negb orb] in Hg. apply andb_true_iff in Hg as [Hg _].
  apply bool_decide_eq_true in Hg. apply Hn.
  destruct (last x) as [w|]; [|done]. exact Hg.
Qed.

(** Removal by an expression that matches nowhere in the front of a text,
    the character before each place taken into account. *)
Lemma eraseFrom_safe (re : regex) (prev : option N) (a b : text) :
  (∀ x z y, a = x ++ z :: y →
            re (from_option Some prev (last x)) (z :: y ++ b) = None) →
  eraseFrom re prev (a ++ b)
  = a ++ eraseFrom re (from_option Some prev (last a)) b.
Proof.
  revert prev. induction a as [|z a IH]; intros prev H; [done|].
  cbn [app]. rewrite eraseFrom_miss by (by apply (H [] z a)).
  rewrite from_last_cons. f_equal. apply IH.
  intros x z' y ->. rewrite <- from_last_cons with (p := prev).
  by apply (H (z :: x) z' y).
Qed.

Lemma eraseFrom_whole (re : regex) (prev : option N) s n :
  lineComment re → re prev s = Some n → Ch.nl ∉ s → eraseFrom re prev s = [].
Proof.
  intros Hre E Hs. destruct (lc_whole re Hre prev s n E Hs) as [-> Hn].
  destruct s as [|z s]; [done|]. unfold eraseFrom. cbn [pieces]. rewrite E.
  cbn [length]. by rewrite pieces_skip_all.
Qed.

(** The two passes on a line that is code without a comment start and then
    a remark. *)
Lemma lineStrip_remark (a t : text) :
  guardedFrom None a = true → Ch.nl ∉ a →
  t = []
  ∨ ((Ch.nl ∉ t) ∧ last a ≠ Some Ch.slash
     ∧ (startsWith t (str "///") = true
        ∨ (startsWith t (str "//") = true ∧ last a ≠ Some Ch.colon))) →
  lineStrip (a ++ t) = a.
Proof.
  intros Hg Hn Ht.
  assert (last a ≠ Some Ch.slash ∨ t = []) as Hj
    by (destruct Ht as [->|(_ & ? & _)]; auto).
  unfold lineStrip, removeDocComments, removeLineComments.
  rewrite !erase_eraseFrom.
  rewrite (eraseFrom_safe re_doc).
  2:{ intros x z y E. eapply (code_safe_doc None a t); [done| |exact E].
      destruct Hj as [?| ->]; [by left|by right]. }
  set (u := eraseFrom re_doc (from_option Some None (last a)) t).
  assert (Ch.nl ∉ t) as Hnt.
  { destruct Ht as [->|(? & _)]; [apply not_elem_of_nil|done]. }
  assert (Ch.nl ∉ u) as Hnu.
  { intros H. apply Hnt.
    by apply (eraseFrom_elem_of _ re_doc_lineComment _ t _ Hnt) in H. }
  assert (eraseFrom re_line (from_option Some None (last a)) u = []) as Eu.
  { destruct Ht as [->|(_ & Hs & [H3|[H2 Hc]])]; [done| |].
    - unfold u.
      rewrite (eraseFrom_whole re_doc _ t
                 (3 + length (takeWhile notNl (drop 3 t))));
        [done|apply re_doc_lineComment| |done].
      unfold re_doc. by rewrite H3.
    - destruct (startsWith t (str "///")) eqn:H3.
      { unfold u.
        rewrite (eraseFrom_whole re_doc _ t
                   (3 + length (takeWhile notNl (drop 3 t))));
          [done|apply re_doc_lineComment| |done].
        unfold re_doc. by rewrite H3. }
      apply starts2 in H2 as [t' ->].
      assert (u = Ch.slash :: Ch.slash
                    :: eraseFrom re_doc (Some Ch.slash) t') as Eu.
      { unfold u. rewrite eraseFrom_miss by (unfold re_doc; by rewrite H3).
        rewrite eraseFrom_miss; [done|]. unfold re_doc.
        destruct (startsWith (Ch.slash :: t') (str "///")) eqn:E; [|done].
        apply starts3 in E as [t'' E]. injection E as ->. done. }
      rewrite Eu in Hnu |- *.
      apply (eraseFrom_whole re_line _ _
               (S (1 + length (takeWhile notNl
                                 (eraseFrom re_doc (Some Ch.slash) t')))));
        [apply re_line_lineComment| |done].
      apply (re_line_hit _ (eraseFrom re_doc (Some Ch.slash) t')).
      destruct (last a) as [w|]; [exact Hc|done]. }
  rewrite (eraseFrom_safe re_line).
  - by rewrite Eu, app_nil_r.
  - intros x z y E. eapply (code_safe_line a u); [done| |exact E].
    destruct Hj as [?| ->]; [by left|by right].
Qed.

(** *** The text with the placeholders *)

Lemma protect_app_eq st (a b : list piece) :
  protect st (a ++ b)
  = ((protect (protect st a).1 b).1,
     (protect st a).2 ++ (protect (protect st a).1 b).2).
Proof.
  rewrite protect_app. destruct (protect st a) as [st1 out1]. cbn [fst snd].
  by destruct (protect st1 b).
Qed.

Lemma protect_plain_app st s (X : list piece) :
  protect st (map Plain s ++ X) = ((protect st X).1, s ++ (protect st X).2).
Proof. by rewrite protect_app_eq, protect_plain. Qed.

Lemma protect_parts_cons st lit (c : text) ps :
  includes lit (str "${") = false →
  let st1 := {| stringIndex := stringIndex st + 1;
                preservedStrings :=
                  <[decimal (stringIndex st) := lit]> (preservedStrings st) |}
  in protect st (partsPieces ((lit, c) :: ps))
     = ((protect st1 (partsPieces ps)).1,
        placeholder (stringIndex st) ++ c
          ++ (protect st1 (partsPieces ps)).2).
Proof.
  intros H st1. rewrite partsPieces_cons, protect_literal by done.
  fold st1. by rewrite protect_plain_app.
Qed.

Lemma placeholder_chars (i : N) z :
  z ∈ placeholder i → z ∈ sentinel ∨ isDigit z = true.
Proof.
  unfold placeholder. intros [H|H]%elem_of_app; [by left|right].
  pose proof (uint_text_digits (N.to_uint i)) as Hd.
  rewrite Forall_forall in Hd. by apply Hd.
Qed.

Lemma placeholder_without (i : N) z :
  z ∉ sentinel → isDigit z = false → z ∉ placeholder i.
Proof.
  intros H1 H2 [H|H]%placeholder_chars; [done|congruence].
Qed.

Lemma placeholder_last (i : N) :
  ∃ d, last (placeholder i) = Some d ∧ isDigit d = true.
Proof.
  unfold placeholder. pose proof (decimal_nonnil i) as Hn.
  pose proof (uint_text_digits (N.to_uint i)) as Hd.
  fold (decimal i) in Hd.
  destruct (decimal i) as [|z t] using rev_ind; [done|].
  exists z. rewrite app_assoc, last_snoc. split; [done|].
  rewrite Forall_forall in Hd. apply Hd. apply elem_of_app. right.
  apply list_elem_of_here.
Qed.

Lemma placeholder_nonnil (i : N) : placeholder i ≠ [].
Proof.
  intros H. pose proof (placeholder_head i []) as E.
  by rewrite app_nil_r, H in E.
Qed.

Lemma includes_app2 (a b : text) (c1 c2 : N) :
  includes a [c1; c2] = false → includes b [c1; c2] = false →
  last a ≠ Some c1 ∨ head b ≠ Some c2 →
  includes (a ++ b) [c1; c2] = false.
Proof.
  intros Ha Hb Hj. induction a as [|z a IH]; [done|].
  apply includes_cons_false in Ha as [Hs Ha].
  cbn [app includes]. rewrite IH; [|done|].
  2:{ destruct Hj as [Hj|Hj]; [|by right].
      destruct a as [|z2 a]; [by left|]. left.
      by rewrite last_cons_cons in Hj. }
  rewrite orb_false_r. destruct a as [|z2 a]; [|exact Hs].
  cbn [app startsWith]. apply andb_false_iff.
  destruct (c1 =? z)%N eqn:E1; [right|by left].
  apply N.eqb_eq in E1 as <-.
  destruct b as [|w b]; [done|]. cbn [startsWith].
  destruct (c2 =? w)%N eqn:E2; [|done]. apply N.eqb_eq in E2 as <-.
  destruct Hj as [Hj|Hj]; by destruct Hj.
Qed.

(** The parts of a line that are what the theorems ask of them. *)
Lemma literalsAt_parts before ps rest :
  literalsAt before ps rest →
  Forall (λ e, includes e.1 (str "${") = false ∧ plainCode e.2
               ∧ ∀ d, head e.2 = Some d → isDigit d = false) ps.
Proof.
  revert before. induction ps as [|[lit c] ps IH]; intros before H;
    [constructor|].
  destruct H as (_ & _ & H1 & H2 & H3 & H). constructor; [done|].
  by apply (IH c).
Qed.

Lemma masked_facts st ps :
  Forall (λ e, includes e.1 (str "${") = false ∧ plainCode e.2
               ∧ ∀ d, head e.2 = Some d → isDigit d = false) ps →
  guardedFrom None (protect st (partsPieces ps)).2 = true
  ∧ (Ch.nl ∉ (protect st (partsPieces ps)).2)
  ∧ includes (protect st (partsPieces ps)).2 (str "/*") = false
  ∧ ((protect st (partsPieces ps)).2 = []
     ∨ head (protect st (partsPieces ps)).2 = Some 80%N).
Proof.
  intros H. revert st.
  induction H as [|[lit c] ps (Hh & (Hq & Hn & Hg & Hb & Hs) & Hd) _ IH];
    intros st.
  { cbn. repeat split; [apply not_elem_of_nil|by left]. }
  cbn [fst snd] in *. rewrite protect_parts_cons by done. cbn [snd].
  set (st1 := {| stringIndex := stringIndex st + 1; preservedStrings := _ |}).
  destruct (IH st1) as (G & N' & B & Hd').
  set (M := (protect st1 (partsPieces ps)).2) in *.
  destruct (placeholder_last (stringIndex st)) as (w & Hw & Hwd).
  assert (head M ≠ Some Ch.slash ∧ head M ≠ Some Ch.star) as [Hm1 Hm2].
  { destruct Hd' as [-> | ->]; by split. }
  assert (Ch.slash ∉ placeholder (stringIndex st)) as Hps
    by (apply placeholder_without; [notin|done]).
  repeat split.
  - apply guardedFrom_app; [by apply slashfree_guarded| |].
    + apply guardedFrom_app; [done|done|by right].
    + left. rewrite Hw. intros [= ->]. done.
  - rewrite !not_elem_of_app. repeat split; [|done|done].
    apply placeholder_without; [notin|done].
  - change (str "/*") with [Ch.slash; Ch.star].
    apply includes_app2.
    + by apply includes_without.
    + apply includes_app2; [done|done|by right].
    + left. rewrite Hw. intros [= ->]. done.
  - right. apply placeholder_head.
Qed.

Lemma last_app_nonnil (a b : text) : b ≠ [] → last (a ++ b) = last b.
Proof.
  intros Hb. rewrite last_app. destruct (last b) eqn:E; [done|].
  by apply last_None in E.
Qed.

(** A character that is no digit and ends the line with the placeholders
    ends the line. *)
Lemma masked_last st before ps z :
  Forall (λ e, includes e.1 (str "${") = false ∧ plainCode e.2
               ∧ ∀ d, head e.2 = Some d → isDigit d = false) ps →
  isDigit z = false →
  last (before ++ (protect st (partsPieces ps)).2) = Some z →
  last (before ++ partsText ps) = Some z.
Proof.
  intros H Hz. revert st before.
  induction H as [|[lit c] ps (Hh & _) _ IH]; intros st before; [done|].
  cbn [fst snd] in *. rewrite protect_parts_cons by done. cbn [snd].
  set (st1 := {| stringIndex := stringIndex st + 1; preservedStrings := _ |}).
  rewrite partsText_cons, !app_assoc. intros E.
  apply (IH st1) in E.
  destruct (decide (c ++ partsText ps = [])) as [En|En].
  - apply app_eq_nil in En as [-> En]. rewrite En, !app_nil_r in E.
    destruct (placeholder_last (stringIndex st)) as (w & Hw & Hwd).
    rewrite last_app_nonnil in E by apply placeholder_nonnil.
    congruence.
  - rewrite <- !app_assoc in E |- *.
    rewrite (app_assoc before), last_app_nonnil by done.
    rewrite (app_assoc before), last_app_nonnil in E by done.
    done.
Qed.

Lemma lineStrip_line_cons (a r : text) :
  Ch.nl ∉ a → lineStrip (a ++ Ch.nl :: r) = lineStrip a ++ Ch.nl :: lineStrip r.
Proof.
  intros H. unfold lineStrip, removeDocComments, removeLineComments.
  rewrite !erase_eraseFrom.
  rewrite (eraseFrom_line _ re_doc_lineComment) by done.
  rewrite (eraseFrom_line _ re_line_lineComment); [done|].
  by apply removeDocComments_line.
Qed.

Lemma protect_text_snd st l ls :
  (protect st (textPieces (l :: ls))).2
  = front l ++ (protect st (partsPieces (behind l))).2 ++ remark l
      ++ match ls with
         | [] => []
         | _ => Ch.nl :: (protect (protect st (partsPieces (behind l))).1
                            (textPieces ls)).2
         end.
Proof.
  cbn [textPieces]. unfold linePieces, codePieces. rewrite <- !app_assoc.
  rewrite protect_plain_app. cbn [snd]. rewrite protect_app_eq. cbn [snd].
  rewrite protect_plain_app. cbn [snd]. do 3 f_equal.
  destruct ls as [|l' ls]; [done|]. by rewrite protect_plain_cons.
Qed.

Lemma protect_stripped_snd st l ls :
  (protect st (strippedPieces (l :: ls))).2
  = front l ++ (protect st (partsPieces (behind l))).2
      ++ match ls with
         | [] => []
         | _ => Ch.nl :: (protect (protect st (partsPieces (behind l))).1
                            (strippedPieces ls)).2
         end.
Proof.
  cbn [strippedPieces]. unfold codePieces. rewrite <- !app_assoc.
  rewrite protect_plain_app. cbn [snd]. rewrite protect_app_eq. cbn [snd].
  do 2 f_equal.
  destruct ls as [|l' ls]; [done|]. by rewrite protect_plain_cons.
Qed.

(** The code of a line with its placeholders. *)
Lemma masked_code st l rest :
  plainCode (front l) → literalsAt (front l) (behind l) rest →
  remarkAt (codeText l) (remark l) →
  guardedFrom None (front l ++ (protect st (partsPieces (behind l))).2) = true
  ∧ (Ch.nl ∉ front l ++ (protect st (partsPieces (behind l))).2)
  ∧ includes (front l ++ (protect st (partsPieces (behind l))).2) (str "/*")
    = false
  ∧ lineStrip (front l ++ (protect st (partsPieces (behind l))).2 ++ remark l)
    = front l ++ (protect st (partsPieces (behind l))).2.
Proof.
  intros (Hq & Hn & Hg & Hb & Hs) Hl Hr.
  apply literalsAt_parts in Hl.
  destruct (masked_facts st _ Hl) as (G & N' & B & Hd).
  set (M := (protect st (partsPieces (behind l))).2) in *.
  assert (head M ≠ Some Ch.slash ∧ head M ≠ Some Ch.star) as [Hm1 Hm2].
  { destruct Hd as [-> | ->]; by split. }
  assert (guardedFrom None (front l ++ M) = true) as GA
    by (apply guardedFrom_app; [done|done|by right]).
  assert (Ch.nl ∉ front l ++ M) as NA by (by rewrite not_elem_of_app).
  split; [done|]. split; [done|]. split.
  { change (str "/*") with [Ch.slash; Ch.star].
    apply includes_app2; [done|done|by right]. }
  rewrite app_assoc. apply lineStrip_remark; [done|done|].
  destruct Hr as [->|(_ & Hnt & Hsl & Hc)]; [by left|right].
  split; [done|]. split.
  - intros E. by apply (masked_last st) in E.
  - destruct Hc as [H3|[H2 Hc]]; [by left|right]. split; [done|].
    intros E. by apply (masked_last st) in E.
Qed.

(** The passes over line comments take the remarks, and nothing else, from
    the text with the placeholders. *)
Lemma lineStrip_masked ls st :
  plainLines ls →
  lineStrip (protect st (textPieces ls)).2 = (protect st (strippedPieces ls)).2
  ∧ includes (protect st (strippedPieces ls)).2 (str "/*") = false.
Proof.
  revert st. induction ls as [|l ls IH]; intros st; [done|].
  intros (Hf & Hl & Hr & Hls).
  rewrite protect_text_snd, protect_stripped_snd.
  destruct (masked_code st l _ Hf Hl Hr) as (G & N' & B & E).
  set (M := (protect st (partsPieces (behind l))).2) in *.
  set (st' := (protect st (partsPieces (behind l))).1).
  destruct ls as [|l' ls].
  { rewrite !app_nil_r. split; [done|]. exact B. }
  destruct (IH st' Hls) as [E' B'].
  split.
  - match goal with
    | |- lineStrip (_ ++ _ ++ _ ++ Ch.nl :: ?X) = _ =>
        replace (front l ++ M ++ remark l ++ Ch.nl :: X)
          with ((front l ++ M ++ remark l) ++ Ch.nl :: X)
          by (by rewrite <- !app_assoc)
    end.
    rewrite lineStrip_line_cons.
    + rewrite E, E'. by rewrite <- app_assoc.
    + rewrite !not_elem_of_app. rewrite not_elem_of_app in N'.
      repeat split; [apply N'|apply N'|].
      destruct Hr as [->|(_ & ? & _)]; [apply not_elem_of_nil|done].
  - rewrite app_assoc, includes_sep by notin. by rewrite B, B'.
Qed.

(** *** The restoration *)

Lemma sentinel_tail_masked st pcs k :
  holeFree pcs = true →
  (∀ m r, pcs = Hit m :: r → 0 < k) →
  startsWith (protect st pcs).2 (drop k sentinel) = true →
  startsWith (masked pcs) (drop k sentinel) = true.
Proof.
  revert st k. induction pcs as [|[c|m] pcs IH]; intros st k Hf Hk.
  - done.
  - rewrite protect_plain_cons. unfold masked. cbn [snd map concat fill app].
    fold (masked pcs).
    destruct (sentinel !! k) as [x|] eqn:Ex.
    + rewrite (drop_S _ _ _ Ex). cbn [startsWith].
      intros [-> H]%andb_true_iff. apply andb_true_iff. split; [done|].
      apply (IH st (S k)); [done| intros; lia |done].
    + apply lookup_ge_None in Ex. by rewrite drop_ge.
  - apply holeFree_cons_hit in Hf as [Hm Hf].
    rewrite protect_literal by done. cbn [snd].
    specialize (Hk m pcs eq_refl).
    destruct (sentinel !! k) as [x|] eqn:Ex.
    + apply lookup_lt_Some in Ex. by rewrite placeholder_overlap.
    + apply lookup_ge_None in Ex. by rewrite drop_ge.
Qed.

(** The restoration gives every placeholder its literal back, where the
    text between the literals holds no sentinel; what the literals hold
    does not matter. *)
Lemma restore_masked T pcs st prev :
  holeFree pcs = true → noDigitBehind pcs = true →
  includes (masked pcs) sentinel = false →
  (∀ k m, protectedOf pcs !! k = Some m →
          T !! decimal (stringIndex st + N.of_nat k) = Some m) →
  concat (map (fill (λ m, match T !! drop 17 m with
                          | Some s => s
                          | None => str "undefined"
                          end))
            (pieces re_placeholder prev 0 (protect st pcs).2))
  = concat (map (fill (λ m, m)) pcs).
Proof.
  revert st prev. induction pcs as [|[c|m] pcs IH]; intros st prev Hf Hn Hi HT.
  - done.
  - rewrite protect_plain_cons. unfold masked in Hi.
    cbn [snd map concat fill app] in *. fold (masked pcs) in Hi.
    rewrite pieces_miss.
    + cbn [map concat fill app]. f_equal.
      apply IH; [done|done| |done].
      by apply includes_cons_false in Hi as [_ Hi].
    + unfold re_placeholder.
      destruct (startsWith (c :: (protect st pcs).2) sentinel) eqn:E; [|done].
      exfalso. apply includes_cons_false in Hi as [Hi _].
      assert (startsWith (masked (Plain c :: pcs)) (drop 0 sentinel) = true)
        as H.
      { apply (sentinel_tail_masked st); [done| intros ? ? [=] |].
        by rewrite protect_plain_cons, drop_0. }
      rewrite drop_0 in H. unfold masked in H.
      cbn [map concat fill app] in H. fold (masked pcs) in H. congruence.
  - pose proof Hf as Hf'. apply holeFree_cons_hit in Hf' as [Hm Hf'].
    rewrite protect_literal by done. cbn [snd].
    destruct (pieces_match re_placeholder prev (placeholder (stringIndex st))
                (protect {| stringIndex := stringIndex st + 1;
                            preservedStrings :=
                              <[decimal (stringIndex st) := m]>
                                (preservedStrings st) |} pcs).2)
      as [prev' ->].
    { apply placeholder_nonnil. }
    { apply re_placeholder_at. by apply (output_head _ m). }
    cbn [map concat fill]. f_equal.
    + unfold placeholder. rewrite (drop_app_length' sentinel _ 17) by done.
      rewrite protectedOf_literal in HT by done.
      specialize (HT 0 m eq_refl). rewrite N.add_0_r in HT. by rewrite HT.
    + apply IH.
      * done.
      * cbn [noDigitBehind] in Hn. by apply andb_true_iff in Hn as [_ Hn].
      * unfold masked in Hi. cbn [map concat fill app] in Hi.
        by apply includes_cons_false in Hi as [_ Hi].
      * intros k m' Hk. cbn [stringIndex].
        rewrite protectedOf_literal in HT by done.
        specialize (HT (S k) m' Hk).
        by replace (stringIndex st + 1 + N.of_nat k)%N
          with (stringIndex st + N.of_nat (S k))%N by lia.
Qed.

(** *** The pieces of the lines *)

Lemma holeFree_app (a b : list piece) :
  holeFree (a ++ b) = holeFree a && holeFree b.
Proof. apply forallb_app. Qed.

Lemma holeFree_plain s : holeFree (map Plain s) = true.
Proof. by induction s. Qed.

Lemma holeFree_parts ps :
  Forall (λ e, includes e.1 (str "${") = false ∧ plainCode e.2
               ∧ ∀ d, head e.2 = Some d → isDigit d = false) ps →
  holeFree (partsPieces ps) = true.
Proof.
  induction 1 as [|[lit c] ps (Hh & _) _ IH]; [done|].
  rewrite partsPieces_cons. apply holeFree_cons_hit. split; [done|].
  by rewrite holeFree_app, holeFree_plain.
Qed.

Lemma holeFree_stripped ls :
  plainLines ls → holeFree (strippedPieces ls) = true.
Proof.
  induction ls as [|l ls IH]; [done|]. intros (_ & Hl & _ & Hls).
  cbn [strippedPieces]. unfold codePieces.
  rewrite !holeFree_app, holeFree_plain.
  rewrite (holeFree_parts _ (literalsAt_parts _ _ _ Hl)).
  destruct ls as [|l' ls]; [done|]. by apply IH.
Qed.

Lemma noDigitBehind_plain s (X : list piece) :
  noDigitBehind (map Plain s ++ X) = noDigitBehind X.
Proof. by induction s. Qed.

Lemma noDigitBehind_parts ps (Y : list piece) :
  Forall (λ e, includes e.1 (str "${") = false ∧ plainCode e.2
               ∧ ∀ d, head e.2 = Some d → isDigit d = false) ps →
  noDigitBehind Y = true →
  (∀ d r, Y = Plain d :: r → isDigit d = false) →
  noDigitBehind (partsPieces ps ++ Y) = true.
Proof.
  intros H HY Hd. induction H as [|[lit c] ps (_ & _ & Hc) Hps IH]; [done|].
  cbn [fst snd] in *. rewrite partsPieces_cons. cbn [app noDigitBehind].
  rewrite <- app_assoc, noDigitBehind_plain, IH, andb_true_r.
  destruct c as [|d c].
  - cbn [map app]. destruct ps as [|[lit' c'] ps].
    + cbn [partsPieces map concat app]. destruct Y as [|[d|m] r]; [done| |done].
      apply negb_true_iff. by apply (Hd d r).
    + done.
  - cbn [map app]. apply negb_true_iff. by apply Hc.
Qed.

Lemma noDigitBehind_stripped ls :
  plainLines ls → noDigitBehind (strippedPieces ls) = true.
Proof.
  induction ls as [|l ls IH]; [done|]. intros (_ & Hl & _ & Hls).
  cbn [strippedPieces]. unfold codePieces.
  rewrite <- app_assoc, noDigitBehind_plain.
  apply noDigitBehind_parts; [by apply literalsAt_parts in Hl| |].
  - destruct ls as [|l' ls]; [done|]. cbn [noDigitBehind]. by apply IH.
  - intros d r E. destruct ls as [|l' ls]; [done|]. by injection E as <- _.
Qed.

Lemma masked_app (a b : list piece) : masked (a ++ b) = masked a ++ masked b.
Proof. unfold masked. by rewrite map_app, concat_app. Qed.

Lemma masked_plain s : masked (map Plain s) = s.
Proof. apply fill_plain. Qed.

Lemma includes_nl_join (a b p : text) :
  Ch.nl ∉ p →
  includes a p = false → includes b p = false →
  b = [] ∨ head b = Some Ch.nl →
  includes (a ++ b) p = false.
Proof.
  intros Hp Ha Hb [->|H]; [by rewrite app_nil_r|].
  destruct b as [|z b]; [done|]. injection H as ->.
  rewrite includes_sep by done. rewrite Ha.
  by apply includes_cons_false in Hb as [_ ->].
Qed.

Lemma includes_nl_cons (b p : text) :
  Ch.nl ∉ p → p ≠ [] → includes b p = false →
  includes (Ch.nl :: b) p = false.
Proof.
  intros Hp Hn Hb. pose proof (includes_sep [] Ch.nl b p Hp) as E.
  cbn [app] in E. rewrite E, Hb. by destruct p.
Qed.

Lemma masked_parts_sentinel ps :
  Forall (λ e, includes e.1 (str "${") = false ∧ plainCode e.2
               ∧ ∀ d, head e.2 = Some d → isDigit d = false) ps →
  includes (masked (partsPieces ps)) sentinel = false
  ∧ (masked (partsPieces ps) = []
     ∨ head (masked (partsPieces ps)) = Some Ch.nl).
Proof.
  induction 1 as [|[lit c] ps (_ & (_ & _ & _ & _ & Hs) & _) _ [IH1 IH2]];
    [by split; [|left]|].
  cbn [fst snd] in *. rewrite partsPieces_cons.
  change (masked (Hit lit :: map Plain c ++ partsPieces ps))
    with (Ch.nl :: masked (map Plain c ++ partsPieces ps)).
  rewrite masked_app, masked_plain. split; [|by right].
  apply includes_nl_cons; [notin|done|].
  apply includes_nl_join; [notin|done|done|done].
Qed.

Lemma masked_stripped_sentinel ls :
  plainLines ls → includes (masked (strippedPieces ls)) sentinel = false.
Proof.
  induction ls as [|l ls IH]; [done|].
  intros ((_ & _ & _ & _ & Hs) & Hl & _ & Hls).
  cbn [strippedPieces]. unfold codePieces.
  rewrite !masked_app, masked_plain, <- app_assoc.
  destruct (masked_parts_sentinel _ (literalsAt_parts _ _ _ Hl)) as [H1 H2].
  set (MP := masked (partsPieces (behind l))) in *.
  destruct ls as [|l' ls].
  { cbn [masked map concat]. rewrite app_nil_r.
    apply includes_nl_join; [notin|done|done|done]. }
  change (masked (Plain Ch.nl :: strippedPieces (l' :: ls)))
    with (Ch.nl :: masked (strippedPieces (l' :: ls))).
  apply includes_nl_join; [notin|done| |].
  - apply includes_nl_join; [notin|done| |by right].
    apply includes_nl_cons; [notin|done|by apply IH].
  - destruct H2 as [-> | H2]; [by right|].
    right. by destruct MP.
Qed.

Lemma protectedOf_app (a b : list piece) :
  protectedOf (a ++ b) = protectedOf a ++ protectedOf b.
Proof. apply omap_app. Qed.

Lemma protectedOf_plain s : protectedOf (map Plain s) = [].
Proof. by induction s. Qed.

Lemma protectedOf_text ls :
  protectedOf (textPieces ls) = protectedOf (strippedPieces ls).
Proof.
  induction ls as [|l ls IH]; [done|].
  cbn [textPieces strippedPieces]. unfold linePieces.
  rewrite !protectedOf_app, protectedOf_plain, app_nil_r. f_equal.
  destruct ls as [|l' ls]; [done|].
  change (protectedOf (Plain Ch.nl :: ?X)) with (protectedOf X). exact IH.
Qed.

Lemma text_parts ps :
  concat (map (fill (λ m, m)) (partsPieces ps)) = partsText ps.
Proof.
  induction ps as [|[lit c] ps IH]; [done|].
  rewrite partsPieces_cons, partsText_cons. cbn [map concat fill].
  by rewrite map_app, concat_app, fill_plain, IH.
Qed.

Lemma text_stripped ls :
  concat (map (fill (λ m, m)) (strippedPieces ls)) = strippedText ls.
Proof.
  induction ls as [|l ls IH]; [done|].
  rewrite strippedText_cons. cbn [strippedPieces]. unfold codePieces, codeText.
  rewrite !map_app, !concat_app, fill_plain, text_parts.
  f_equal. destruct ls as [|l' ls]; [done|].
  cbn [map concat fill app]. by rewrite IH.
Qed.

(** The content that the formatter receives is the file without its
    remarks. *)
Lemma unformatted_lines preserved ls :
  plainLines ls → unformatted preserved (sourceText ls) = strippedText ls.
Proof.
  intros H. unfold unformatted, protectStrings.
  rewrite pieces_lines by done.
  set (st0 := {| stringIndex := 0; preservedStrings := preserved |}).
  destruct (lineStrip_masked ls st0 H) as [E B].
  pose proof (protect_entry st0 (textPieces ls)) as HT.
  destruct (protect st0 (textPieces ls)) as [st P]. cbn [fst snd] in *.
  unfold stripComments. fold (lineStrip P). rewrite E.
  rewrite removeBlockComments_quiet by done.
  unfold restoreStrings, replace. rewrite restore_masked.
  - apply text_stripped.
  - by apply holeFree_stripped.
  - by apply noDigitBehind_stripped.
  - by apply masked_stripped_sentinel.
  - intros k m Hk. apply HT. by rewrite protectedOf_text.
Qed.

(** *** The literals of the lines *)






Lemma quote_not_space q : isQuote q → isSpace q = false.
Proof. by intros [-> | ->]. Qed.

End lines.

(** ** A placeholder that the comment passes leave *)

Section placeholder_left.

Implicit Types (s u v w m : text) (k : nat) (i : N)
  (T preserved : gmap text text).

Lemma pieces_front (re : regex) u w :
  (∀ prev x c y, u = x ++ c :: y → re prev (c :: y ++ w) = re prev (c :: y)) →
  (∀ prev s n, re prev s = Some n → n ≤ length s) →
  ∀ prev k, k ≤ length u →
  ∃ prev', pieces re prev k (u ++ w)
           = pieces re prev k u ++ pieces re prev' 0 w.
Proof.
  intros Hc Hb. induction u as [|c u IH]; intros prev k Hk.
  { exists prev. cbn [length] in Hk. by replace k with 0 by lia. }
  assert (∀ prev x c' y, u = x ++ c' :: y →
                         re prev (c' :: y ++ w) = re prev (c' :: y)) as Hc'.
  { intros prev0 x c' y ->. by apply (Hc prev0 (c :: x)). }
  cbn [length] in Hk. destruct k as [|k].
  - cbn [app pieces]. rewrite (Hc prev [] c u eq_refl).
    destruct (re prev (c :: u)) as [[|n]|] eqn:E.
    + destruct (IH Hc' (Some c) 0) as [prev' ->]; [lia|]. by exists prev'.
    + apply Hb in E. cbn [length] in E.
      destruct (IH Hc' (Some c) n) as [prev' ->]; [lia|]. exists prev'.
      cbn [take app]. by rewrite take_app_le by lia.
    + destruct (IH Hc' (Some c) 0) as [prev' ->]; [lia|]. by exists prev'.
  - cbn [app pieces]. apply (IH Hc'). lia.
Qed.

Lemma takeWhile_front (f : N → bool) u w :
  (∀ d, head w = Some d → f d = false) →
  takeWhile f (u ++ w) = takeWhile f u.
Proof.
  intros Hw. induction u as [|c u IH].
  - destruct w as [|d w]; [done|]. cbn [app takeWhile].
    by rewrite (Hw d eq_refl).
  - cbn [app takeWhile]. by rewrite IH.
Qed.

Lemma re_placeholder_bound prev s n :
  re_placeholder prev s = Some n → n ≤ length s.
Proof.
  unfold re_placeholder. destruct (startsWith s sentinel) eqn:E; [|done].
  apply startsWith_spec in E as [b ->].
  rewrite (drop_app_length' sentinel b 17) by done.
  assert (length (takeWhile isDigit b) ≤ length b) as Hb.
  { rewrite <- (takeWhile_dropWhile isDigit b) at 2. rewrite length_app. lia. }
  destruct (takeWhile isDigit b) as [|d ds]; [done|].
  intros [= <-]. rewrite length_app. change (length sentinel) with 17.
  cbn [length] in Hb. lia.
Qed.

Lemma re_placeholder_front prev c y i v :
  re_placeholder prev (c :: y ++ placeholder i ++ v)
  = re_placeholder prev (c :: y).
Proof.
  unfold re_placeholder.
  change (c :: y ++ placeholder i ++ v) with ((c :: y) ++ placeholder i ++ v).
  destruct (startsWith (c :: y) sentinel) eqn:E.
  - rewrite (startsWith_app _ _ _ E).
    apply startsWith_spec in E as [b ->].
    rewrite <- app_assoc.
    rewrite !(drop_app_length' sentinel _ 17) by done.
    rewrite takeWhile_front; [done|].
    rewrite placeholder_head. by intros d [= <-].
  - destruct (startsWith ((c :: y) ++ placeholder i ++ v) sentinel) eqn:E';
      [|done].
    apply startsWith_app_cases in E' as [E'|[Hl E']]; [congruence|].
    rewrite placeholder_overlap in E'; [done| |done].
    cbn [length]. lia.
Qed.

(** The restoration at a placeholder, whatever stands around it. *)
Lemma restoreStrings_around T u i v :
  (∀ d, head v = Some d → isDigit d = false) →
  restoreStrings T (u ++ placeholder i ++ v)
  = restoreStrings T u
      ++ match T !! decimal i with
         | Some s => s
         | None => str "undefined"
         end
      ++ restoreStrings T v.
Proof.
  intros Hv. unfold restoreStrings, replace.
  destruct (pieces_front re_placeholder u (placeholder i ++ v)) with
    (prev := @None N) (k := 0) as [prev' ->].
  - intros prev x c y _. apply re_placeholder_front.
  - apply re_placeholder_bound.
  - lia.
  - rewrite map_app, concat_app. f_equal.
    destruct (pieces_match re_placeholder prev' (placeholder i) v)
      as [prev'' ->].
    + apply placeholder_nonnil.
    + by apply re_placeholder_at.
    + cbn [map concat fill]. unfold placeholder at 1.
      rewrite (drop_app_length' sentinel _ 17) by done. f_equal.
      by rewrite (pieces_blind _ prev'' None 0 v re_placeholder_blind).
Qed.

Lemma pieces_hit_quote prev k s m :
  Hit m ∈ pieces re_string prev k s →
  ∃ body q, m = body ++ [q] ∧ isQuote q.
Proof.
  revert prev k. induction s as [|c s IH]; intros prev k.
  { by intros ?%elem_of_nil. }
  destruct k as [|k]; cbn [pieces]; [|apply IH].
  destruct (re_string prev (c :: s)) as [[|n]|] eqn:E.
  - destruct (re_string_last _ _ _ E) as (body & q & Eb & _).
    by destruct body.
  - intros [[= ->]|H]%elem_of_cons; [|by apply (IH _ _ H)].
    by apply (re_string_last _ _ _ E).
  - intros [[=]|H]%elem_of_cons. by apply (IH _ _ H).
Qed.

Lemma protectedOf_hit pcs m :
  m ∈ protectedOf pcs → Hit m ∈ pcs.
Proof.
  unfold protectedOf. intros (p & Hp & E)%list_elem_of_omap.
  destruct p as [c|m']; [done|].
  destruct (includes m' (str "${")); [done|]. by injection E as ->.
Qed.

End placeholder_left.

(** ** Literals and comments in whole files *)

(** Lines given in full: every condition on them is decided by evaluation. *)
Ltac plain :=
  repeat match goal with
    | |- plainLines _ => cbn [plainLines front behind remark]
    | |- literalsAt _ _ _ => cbn [literalsAt]
    | |- plainCode _ => unfold plainCode
    | |- noQuote _ => split
    | |- remarkAt _ _ => first [by left | right]
    | |- _ ∧ _ => split
    | |- True => exact I
    | |- _ ∉ _ => notin
    | |- _ ∨ _ => first [left; solve [plain] | right; solve [plain]]
    | |- _ ≠ _ => let H := fresh in intros H; vm_compute in H; discriminate H
    | |- ∀ d, head _ = Some d → _ =>
        let d := fresh in let H := fresh in
        intros d H; vm_compute in H;
        first [discriminate H | injection H as <-; reflexivity]
    | |- _ = _ => reflexivity
    end.




(** Outside the lines above.  With an interpolation hole the literal gets no
    placeholder, and the comment passes run over its text. *)
Lemma interpolated_literal_stripped :
  re_string None (str "'${x}//y'") = Some (length (str "'${x}//y'"))
  ∧ process ∅ (str "'${x}//y'") = str "'${x}"
  ∧ includes (process ∅ (str "'${x}//y'")) (str "${x}//y") = false.
Proof. repeat split; reflexivity. Qed.

(** A placeholder with a digit behind it reads as the placeholder of a
    string that does not exist. *)
Lemma literal_before_digit :
  process ∅ (str "'//'1") = str "undefined".
Proof. reflexivity. Qed.

(** The same after a block comment between the literal and the digit has
    been cut out. *)
Lemma literal_before_block_comment :
  process ∅ (str "'a//b' /**/1") = str "undefined".
Proof. reflexivity. Qed.

(** An apostrophe in a block comment opens a literal as well. *)
Lemma block_comment_quote_opens_literal :
  process ∅ (str "x = 'a'; /* it's */ y = 'b // c';") = str "x = 'a';".
Proof. reflexivity. Qed.

(** The formatter takes the inner lines of a literal over several lines for
    code and trims their ends, while the content it receives holds the
    literal as it was. *)
Lemma multiline_literal_trimmed :
  unformatted ∅ (nls ["x = '''//"; " a  "; "''';"]%string)
  = nls ["x = '''//"; " a  "; "''';"]%string
  ∧ process ∅ (nls ["x = '''//"; " a  "; "''';"]%string)
    = nls ["x = '''//"; " a"; "''';"]%string.
Proof. split; reflexivity. Qed.

(** C8.  Lines of code with string literals and a comment at the end of the
    line, under the same conditions on quote characters, block comments,
    placeholder text and literals.  A comment begins with three slashes
    wherever it stands, or with two slashes that do not stand behind a
    colon; two slashes behind a colon with no third slash are code.  The
    content that the formatter receives is the file with every comment
    removed from its first slash to the end of its line and everything else
    in place, and the output is the formatter applied to that. *)
Theorem comments_removed (preserved : gmap text text) (ls : list sourceLine) :
  plainLines ls →
  unformatted preserved (joinNl (map (λ l, codeText l ++ remark l) ls))
  = joinNl (map codeText ls)
  ∧ process preserved (joinNl (map (λ l, codeText l ++ remark l) ls))
    = format (joinNl (map codeText ls)).
Proof.
  intros H. change (joinNl (map (λ l, codeText l ++ remark l) ls))
    with (sourceText ls).
  change (joinNl (map codeText ls)) with (strippedText ls).
  rewrite process_unformatted. by rewrite (unformatted_lines preserved ls H).
Qed.

Lemma comments_removed_witness :
  process ∅
    (nls ["/// d"; "a = b / c; // half"; "u = p://q; //r";
          "v = 'x://y' + z; :/// w"; "k = s:// t"]%string)
  = nls ["a = b / c;"; "u = p://q;"; "v = 'x://y' + z; :"; "k = s:// t"]%string.
Proof.
  destruct (comments_removed ∅
    [ {| front := []; behind := []; remark := str "/// d" |};
      {| front := str "a = b / c; "; behind := [];
         remark := str "// half" |};
      {| front := str "u = p://q; "; behind := []; remark := str "//r" |};
      {| front := str "v = "; behind := [(str "'x://y'", str " + z; :")];
         remark := str "/// w" |};
      {| front := str "k = s:// t"; behind := []; remark := [] |} ])
    as [_ E].
  { plain. }
  exact E.
Defined.

(** C8 as the specification states it does not hold, for the same reason as
    C1: the apostrophe in the comment of the first line opens a literal that
    ends in the second line, the first comment then runs to the end of the
    second line, and the code of the second line is removed with it. *)
Lemma comment_quote_takes_code :
  pieces re_string None 0
    (nls ["x = 1; // it's"; "y = 'b'; // c"; "z = 2;"]%string)
  = map Plain (str "x = 1; // it")
      ++ Hit (str "'s" ++ [Ch.nl] ++ str "y = '")
      :: map Plain (str "b'; // c" ++ [Ch.nl] ++ str "z = 2;")
  ∧ process ∅ (nls ["x = 1; // it's"; "y = 'b'; // c"; "z = 2;"]%string)
    = nls ["x = 1;"; "z = 2;"]%string.
Proof. split; reflexivity. Qed.

(** Outside the lines above.  The string expression reads a backslash as an
    escape in a raw literal too, so the raw literal below does not end at its
    closing quote; the literal that is matched ends in the second line, and
    the comment of the first line is inside it. *)
Lemma raw_backslash_literal :
  process ∅ (nls ["x = r'\'; // c"; "y = 'a';"]%string)
  = nls ["x = r'\'; // c"; "y = 'a';"]%string.
Proof. reflexivity. Qed.

(** X21.  In any file, a literal that the string pass replaced by a
    placeholder comes back wherever the comment passes left that
    placeholder: if the text after the comment passes is [u], the placeholder
    of the [k]-th protected literal [m], and [v], where [v] does not begin
    with a digit, then the content that the formatter receives is the
    restoration of [u], then [m] character by character, then the restoration
    of [v]; and if [m] lies on one line, it stands in the output. *)
Theorem literal_where_placeholder_left
    (preserved : gmap text text) (s : text) (k : nat) (m u v : text) :
  literals s !! k = Some m →
  stripComments (protectStrings preserved s).2
  = u ++ placeholder (N.of_nat k) ++ v →
  (∀ d, head v = Some d → isDigit d = false) →
  unformatted preserved s
  = restoreStrings (preservedStrings (protectStrings preserved s).1) u
      ++ m
      ++ restoreStrings (preservedStrings (protectStrings preserved s).1) v
  ∧ (Ch.nl ∉ m → includes (process preserved s) m = true).
Proof.
  intros Hm Hs Hv.
  assert (unformatted preserved s
          = restoreStrings (preservedStrings (protectStrings preserved s).1) u
              ++ m
              ++ restoreStrings
                   (preservedStrings (protectStrings preserved s).1) v) as E.
  { unfold unformatted. unfold protectStrings in *.
    pose proof (protect_entry
                  {| stringIndex := 0; preservedStrings := preserved |}
                  (pieces re_string None 0 s) k m Hm) as HT.
    cbn [stringIndex] in HT. rewrite N.add_0_l in HT.
    destruct (protect _ (pieces re_string None 0 s)) as [st P].
    cbn [fst snd] in *. rewrite Hs, restoreStrings_around by done.
    by rewrite HT. }
  split; [done|]. intros Hn. rewrite process_unformatted, E.
  apply list_elem_of_lookup_2, protectedOf_hit, pieces_hit_quote in Hm
    as (body & q & -> & Hq).
  apply format_keeps; [done|by apply quote_not_space|].
  apply includes_spec. by eexists _, _.
Qed.

Lemma literal_where_placeholder_left_witness :
  unformatted ∅ (str "x = 'a // b'; /* c */ y = 'd'; // e")
  = str "x = 'a // b'; y = 'd'; "
  ∧ includes (process ∅ (str "x = 'a // b'; /* c */ y = 'd'; // e"))
      (str "'a // b'") = true.
Proof.
  destruct (literal_where_placeholder_left ∅
              (str "x = 'a // b'; /* c */ y = 'd'; // e") 0
              (str "'a // b'") (str "x = ")
              (str "; y = PRESERVED_STRING_1; ")) as [E K].
  - reflexivity.
  - reflexivity.
  - intros d [= <-]. reflexivity.
  - split; [exact E|]. apply K. notin.
Defined.
